(** * Hierarchical timing wheel of hongker/go-datastructures (package timewheel)

    A shallow embedding of [timewheel.go] and [bucket.go]:
    - [int64] values are integers of [Z] with the two's-complement wrap-around
      of Go written out ([wrap64], [add64], [mul64], [quo64], [rem64]);
    - timers and buckets are heap objects that are aliased (a bucket is
      referenced by its wheel, by the delay queue and by the back-reference of
      every timer it holds), so they live in stores indexed by addresses;
    - a wheel level exclusively owns its overflow level, so the chain of
      levels is an inductive value;
    - code that locks, panics or loops runs in the monad [M]. *)

From stdpp Require Import gmap list.

Local Open Scope Z_scope.

(** ** 64-bit integers *)

Module Int64.

Definition min_int64 : Z := - 2 ^ 63.
Definition max_int64 : Z := 2 ^ 63 - 1.
Definition modulus : Z := 2 ^ 64.

(** Reduction of an integer to the signed 64-bit value with the same bits. *)
Definition wrap64 (x : Z) : Z := (x + 2 ^ 63) mod modulus - 2 ^ 63.

Definition in_int64 (x : Z) : Prop := min_int64 <= x <= max_int64.

Definition add64 (x y : Z) : Z := wrap64 (x + y).
Definition sub64 (x y : Z) : Z := wrap64 (x - y).
Definition mul64 (x y : Z) : Z := wrap64 (x * y).
(** Go's [/] and [%] truncate toward zero; [min_int64 / -1] wraps. A zero
    divisor panics and is handled by the callers. *)
Definition quo64 (x y : Z) : Z := wrap64 (Z.quot x y).
Definition rem64 (x y : Z) : Z := wrap64 (Z.rem x y).

End Int64.

Import Int64.

(** ** truncate (timewheel.go) *)

(** [truncate x m]: [x] rounded toward zero to a multiple of [m]; [x] itself
    when [m <= 0]. *)
Definition truncate (x m : Z) : Z :=
  if m <=? 0 then x else sub64 x (rem64 x m).

(** ** Data model *)

(** Addresses of heap objects. *)
Definition timer_ref := nat.
Definition bucket_ref := nat.
Definition elem_ref := nat.

(** [timer] of bucket.go. [t_bucket] is the atomic back-reference, [element]
    the [*list.Element] that holds the timer in the bucket's list. The task
    closure is not represented: running it is recorded in [spawned]. *)
Record timer := Timer {
  expiration : Z;
  t_bucket : option bucket_ref;
  element : option elem_ref
}.

(** [bucket] of bucket.go. [mu] tells whether the mutex is held. [timers] is
    the [container/list]: the sequence of its elements, each an address with
    the timer stored in its [Value]. *)
Record bucket := Bucket {
  b_expiration : Z;
  mu : bool;
  timers : list (elem_ref * timer_ref)
}.

(** [TimeWheel] of timewheel.go. [stop] tells whether the stop channel is
    closed, [waitGroup] counts the goroutines registered with the wait group.
    The delay queue is shared by all levels and lives in the [World]. *)
#[local] Unset Elimination Schemes.
Inductive TimeWheel := MkTimeWheel {
  tick : Z;
  size : Z;
  interval : Z;
  currentTime : Z;
  buckets : list bucket_ref;
  stop : bool;
  waitGroup : nat;
  overflowWheel : option TimeWheel
}.
#[local] Set Elimination Schemes.

(** Modelled from the spec: the delay queue ([DelayQueue], [newQueue],
    [Offer], [Poll]) is not among the sources. The wheel only submits entries
    to it, [offer(entry, expiration)], so the queue is represented by the
    sequence of submissions it has received, oldest first. *)
Definition DelayQueue := list (bucket_ref * Z).

(** The heap: the stores of timers and buckets, the allocation counters for
    timers, list elements and buckets, the delay queue, and the tasks started
    with [go t.task()], oldest first. *)
Record World := MkWorld {
  w_timers : gmap timer_ref timer;
  w_buckets : gmap bucket_ref bucket;
  next_timer : timer_ref;
  next_elem : elem_ref;
  next_bucket : bucket_ref;
  queue : DelayQueue;
  spawned : list timer_ref
}.

Definition empty_world : World := MkWorld ∅ ∅ 0%nat 0%nat 0%nat [] [].

Definition with_timers (f : gmap timer_ref timer → gmap timer_ref timer)
    (w : World) : World :=
  MkWorld (f (w_timers w)) (w_buckets w) (next_timer w) (next_elem w)
    (next_bucket w) (queue w) (spawned w).

Definition with_buckets (f : gmap bucket_ref bucket → gmap bucket_ref bucket)
    (w : World) : World :=
  MkWorld (w_timers w) (f (w_buckets w)) (next_timer w) (next_elem w)
    (next_bucket w) (queue w) (spawned w).

Definition with_queue (f : DelayQueue → DelayQueue) (w : World) : World :=
  MkWorld (w_timers w) (w_buckets w) (next_timer w) (next_elem w)
    (next_bucket w) (f (queue w)) (spawned w).

(** ** The monad of effects *)

(** Outcome of running a piece of code: it returns, it panics (nil
    dereference, index out of range, division by zero, explicit [panic]), it
    blocks forever on a mutex that is never released, or the model ran out of
    fuel. *)
Inductive Result (A : Type) :=
| Ok (a : A)
| Panic
| Blocked
| OutOfFuel.
Arguments Ok {A} a.
Arguments Panic {A}.
Arguments Blocked {A}.
Arguments OutOfFuel {A}.

Definition M (A : Type) : Type := World → Result (A * World).

Definition ret {A} (a : A) : M A := fun w => Ok (a, w).

Definition bind {A B} (m : M A) (k : A → M B) : M B :=
  fun w =>
    match m w with
    | Ok (a, w') => k a w'
    | Panic => Panic
    | Blocked => Blocked
    | OutOfFuel => OutOfFuel
    end.

Definition panic {A} : M A := fun _ => Panic.
Definition block {A} : M A := fun _ => Blocked.
Definition out_of_fuel {A} : M A := fun _ => OutOfFuel.

Declare Scope m_scope.
Delimit Scope m_scope with M.
Notation "x ← y ; z" := (bind y (fun x => z))
  (at level 20, y at level 100, z at level 200) : m_scope.
Notation "' x ← y ; z" := (bind y (fun x => z))
  (at level 20, x pattern, y at level 100, z at level 200) : m_scope.
Notation "y ;; z" := (bind y (fun _ => z))
  (at level 100, z at level 200, right associativity) : m_scope.
Local Open Scope m_scope.

(** Dereference of a timer or bucket address; an address that denotes no
    object panics like a nil pointer. *)
Definition load_timer (t : timer_ref) : M timer :=
  fun w => match w_timers w !! t with Some tm => Ok (tm, w) | None => Panic end.

Definition load_bucket (b : bucket_ref) : M bucket :=
  fun w => match w_buckets w !! b with Some bk => Ok (bk, w) | None => Panic end.

Definition store_timer (t : timer_ref) (tm : timer) : M unit :=
  fun w => Ok (tt, with_timers <[t := tm]> w).

Definition store_bucket (b : bucket_ref) (bk : bucket) : M unit :=
  fun w => Ok (tt, with_buckets <[b := bk]> w).

(** Allocation of the address of a new list element, bucket or timer. *)
Definition fresh_elem : M elem_ref :=
  fun w => Ok (next_elem w,
               MkWorld (w_timers w) (w_buckets w) (next_timer w)
                 (S (next_elem w)) (next_bucket w) (queue w) (spawned w)).

Definition fresh_bucket : M bucket_ref :=
  fun w => Ok (next_bucket w,
               MkWorld (w_timers w) (w_buckets w) (next_timer w)
                 (next_elem w) (S (next_bucket w)) (queue w) (spawned w)).

Definition fresh_timer : M timer_ref :=
  fun w => Ok (next_timer w,
               MkWorld (w_timers w) (w_buckets w) (S (next_timer w))
                 (next_elem w) (next_bucket w) (queue w) (spawned w)).

(** [go t.task()]: the task of timer [t] is started on a goroutine of its
    own. *)
Definition spawn (t : timer_ref) : M unit :=
  fun w => Ok (tt, MkWorld (w_timers w) (w_buckets w) (next_timer w)
                     (next_elem w) (next_bucket w) (queue w) (spawned w ++ [t])).

(** ** sync.Mutex *)

Definition Lock (b : bucket_ref) : M unit :=
  bk ← load_bucket b;
  if mu bk then block
  else store_bucket b (Bucket (b_expiration bk) true (timers bk)).

Definition Unlock (b : bucket_ref) : M unit :=
  bk ← load_bucket b;
  if mu bk then store_bucket b (Bucket (b_expiration bk) false (timers bk))
  else panic.

(** ** container/list *)

(** [l.PushBack(t)]: a new element at the back; its address is returned. *)
Definition PushBack (b : bucket_ref) (t : timer_ref) : M elem_ref :=
  bk ← load_bucket b;
  e ← fresh_elem;
  store_bucket b (Bucket (b_expiration bk) (mu bk) (timers bk ++ [(e, t)]));;
  ret e.

(** [l.Remove(e)]: unlinks [e] if it is an element of [l], else nothing. *)
Definition list_remove (e : elem_ref) (l : list (elem_ref * timer_ref))
  : list (elem_ref * timer_ref) :=
  filter (fun p => p.1 ≠ e) l.

Definition Remove (b : bucket_ref) (e : elem_ref) : M unit :=
  bk ← load_bucket b;
  store_bucket b (Bucket (b_expiration bk) (mu bk) (list_remove e (timers bk))).

(** [l.Front()]. *)
Definition Front (b : bucket_ref) : M (option (elem_ref * timer_ref)) :=
  bk ← load_bucket b;
  ret (head (timers bk)).

(** [e.Next()]: the successor of [e] in the list it belongs to, nil at the
    back and for an element that has been removed. *)
Fixpoint list_next (e : elem_ref) (l : list (elem_ref * timer_ref))
  : option (elem_ref * timer_ref) :=
  match l with
  | [] => None
  | p :: l' => if decide (p.1 = e) then head l' else list_next e l'
  end.

Definition Next (b : bucket_ref) (e : elem_ref)
  : M (option (elem_ref * timer_ref)) :=
  bk ← load_bucket b;
  ret (list_next e (timers bk)).

(** ** timer (bucket.go) *)

Definition getBucket (t : timer_ref) : M (option bucket_ref) :=
  tm ← load_timer t; ret (t_bucket tm).

Definition setBucket (t : timer_ref) (b : option bucket_ref) : M unit :=
  tm ← load_timer t; store_timer t (Timer (expiration tm) b (element tm)).

Definition setElement (t : timer_ref) (e : option elem_ref) : M unit :=
  tm ← load_timer t; store_timer t (Timer (expiration tm) (t_bucket tm) e).

(** ** bucket (bucket.go) *)

Definition newBucket : bucket := Bucket (-1) false [].

(** [atomic.SwapInt64] on the record, then its lifting to the heap. *)
Definition swap_expiration (e : Z) (bk : bucket) : bool * bucket :=
  (negb (b_expiration bk =? e), Bucket e (mu bk) (timers bk)).

Definition SetExpiration (b : bucket_ref) (e : Z) : M bool :=
  bk ← load_bucket b;
  let r := swap_expiration e bk in
  store_bucket b r.2;;
  ret r.1.

Definition Expiration (b : bucket_ref) : M Z :=
  bk ← load_bucket b; ret (b_expiration bk).

(** [b.remove(t)]. It takes no lock. *)
Definition remove (b : bucket_ref) (t : timer_ref) : M bool :=
  ob ← getBucket t;
  if decide (ob = Some b) then
    tm ← load_timer t;
    match element tm with
    | None => panic
    | Some e =>
        Remove b e;;
        setBucket t None;;
        setElement t None;;
        ret true
    end
  else ret false.

(** [b.Add(t)]. *)
Definition Add (b : bucket_ref) (t : timer_ref) : M unit :=
  Lock b;;
  elem ← PushBack b t;
  setElement t (Some elem);;
  setBucket t (Some b);;
  Unlock b.

(** The loop of [Flush]: [e] is the loop variable, [next] is read before the
    timer is removed and handed to the callback. The callback is a closure:
    [x] is the state it has captured (the wheel, for [tw.addOrRun]), which it
    may update. *)
Fixpoint flush_loop {X : Type} (fuel : nat) (b : bucket_ref)
    (e : option (elem_ref * timer_ref)) (reinsert : timer_ref → X → M X)
    (x : X) : M X :=
  match e with
  | None => ret x
  | Some (eid, t) =>
      match fuel with
      | O => out_of_fuel
      | S fuel' =>
          next ← Next b eid;
          remove b t;;
          x' ← reinsert t x;
          flush_loop fuel' b next reinsert x'
      end
  end.

(** [b.Flush(reinsert)]. *)
Definition Flush {X : Type} (fuel : nat) (b : bucket_ref)
    (reinsert : timer_ref → X → M X) (x : X) : M X :=
  Lock b;;
  e ← Front b;
  x' ← flush_loop fuel b e reinsert x;
  SetExpiration b (-1);;
  Unlock b;;
  ret x'.

(** [t.Stop()]: the loop runs while the timer has an owning bucket. *)
Fixpoint stop_loop (fuel : nat) (t : timer_ref) (stopped : bool) : M bool :=
  ob ← getBucket t;
  match ob with
  | None => ret stopped
  | Some b =>
      match fuel with
      | O => out_of_fuel
      | S fuel' => r ← remove b t; stop_loop fuel' t r
      end
  end.

Definition Stop (fuel : nat) (t : timer_ref) : M bool := stop_loop fuel t false.

(** ** TimeWheel (timewheel.go) *)

Definition Millisecond : Z := 1000000.

(** Modelled from the spec: [newQueue] and [Offer] of the delay queue, which
    is not among the sources. A new queue has received no submission;
    [offer(entry, expiration)] submits one. *)
Definition newQueue (capacity : Z) : M unit :=
  fun w => Ok (tt, with_queue (fun _ => []) w).

Definition Offer (b : bucket_ref) (e : Z) : M unit :=
  fun w => Ok (tt, with_queue (fun q => q ++ [(b, e)]) w).

(** The loop of [newTimeWheel] that fills the slice of buckets. *)
Fixpoint make_buckets (n : nat) : M (list bucket_ref) :=
  match n with
  | O => ret []
  | S n' =>
      b ← fresh_bucket;
      store_bucket b newBucket;;
      bs ← make_buckets n';
      ret (b :: bs)
  end.

(** [make([]*bucket, n)] panics (makeslice: len out of range) when [n] is
    negative and when the slice would be larger than the allocator can
    address: the limit [maxAlloc] of the runtime is [2 ^ 48] bytes on 64-bit
    platforms and an element of the slice is a pointer of 8 bytes, so the
    largest length is [2 ^ 45]. A length within the limit for which the
    machine has no memory left ends the process; like every exhaustion of
    memory this is not represented. *)
Definition max_slice_len : Z := 2 ^ 45.

Definition make_panics (n : Z) : bool := (n <? 0) || (max_slice_len <? n).

(** [newTimeWheel]. *)
Definition newTimeWheel (tickMs wheelSize startMs : Z) : M TimeWheel :=
  if make_panics wheelSize then panic
  else
    bs ← make_buckets (Z.to_nat wheelSize);
    ret (MkTimeWheel tickMs wheelSize (mul64 tickMs wheelSize)
           (truncate startMs tickMs) bs false 0%nat None).

(** [New]. [tick] is a [time.Duration], in nanoseconds; [nowMs] is the value
    of [time.Now().UnixMilli()]. *)
Definition New (tick0 wheelSize nowMs : Z) : M TimeWheel :=
  let tickMs := quo64 tick0 Millisecond in
  if tickMs <=? 0 then panic
  else newQueue wheelSize;; newTimeWheel tickMs wheelSize nowMs.

Definition set_clock (tw : TimeWheel) (c : Z) (ov : option TimeWheel)
  : TimeWheel :=
  MkTimeWheel (tick tw) (size tw) (interval tw) c (buckets tw) (stop tw)
    (waitGroup tw) ov.

(** [advanceClock]: it reads and writes the clocks of the levels only. *)
Fixpoint advanceClock (tw : TimeWheel) (expiration0 : Z) : TimeWheel :=
  if add64 (currentTime tw) (tick tw) <=? expiration0 then
    let currentTime' := truncate expiration0 (tick tw) in
    set_clock tw currentTime'
      match overflowWheel tw with
      | Some ov => Some (advanceClock ov currentTime')
      | None => None
      end
  else tw.

(** Indexing of a slice; out of range panics. *)
Definition index {A} (l : list A) (i : Z) : option A :=
  if i <? 0 then None else l !! Z.to_nat i.

(** [add]. [fuel] bounds the depth of the recursion through the levels. *)
Fixpoint add (fuel : nat) (tw : TimeWheel) (t : timer_ref)
  : M (TimeWheel * bool) :=
  match fuel with
  | O => out_of_fuel
  | S fuel' =>
      tm ← load_timer t;
      let currentTime0 := currentTime tw in
      if expiration tm <? add64 currentTime0 (tick tw) then ret (tw, false)
      else if expiration tm <? add64 currentTime0 (interval tw) then
        if tick tw =? 0 then panic
        else
          let virtualID := quo64 (expiration tm) (tick tw) in
          if size tw =? 0 then panic
          else
            match index (buckets tw) (rem64 virtualID (size tw)) with
            | None => panic
            | Some b =>
                Add b t;;
                changed ← SetExpiration b (mul64 virtualID (tick tw));
                (if changed : bool then e ← Expiration b; Offer b e
                 else ret tt);;
                ret (tw, true)
            end
      else
        ov ← match overflowWheel tw with
             | Some ov => ret ov
             | None => newTimeWheel (interval tw) (size tw) currentTime0
             end;
        ' (ov', placed) ← add fuel' ov t;
        ret (set_clock tw (currentTime tw) (Some ov'), placed)
  end.

(** [addOrRun]. *)
Definition addOrRun (fuel : nat) (tw : TimeWheel) (t : timer_ref)
  : M TimeWheel :=
  ' (tw', placed) ← add fuel tw t;
  if placed : bool then ret tw' else spawn t;; ret tw'.

(** [AfterFunc]. [expiration0] is the value of
    [time.Now().Add(d).UnixMilli()]. *)
Definition AfterFunc (fuel : nat) (tw : TimeWheel) (expiration0 : Z)
  : M (TimeWheel * timer_ref) :=
  t ← fresh_timer;
  store_timer t (Timer expiration0 None None);;
  tw' ← addOrRun fuel tw t;
  ret (tw', t).

(** The body of the dispatch loop of [Start] for a bucket [b] received from
    the delay queue. *)
Definition dispatch (fuel : nat) (tw : TimeWheel) (b : bucket_ref)
  : M TimeWheel :=
  e ← Expiration b;
  Flush fuel b (fun t tw' => addOrRun fuel tw' t) (advanceClock tw e).

(** [Start] registers the poll loop and the dispatch loop with the wait
    group; the loops themselves run concurrently and are represented by
    [dispatch] only. [TimeWheel_Stop] is the method [Stop] of the wheel: closing
    a closed channel panics. *)
Definition Start (tw : TimeWheel) : TimeWheel :=
  MkTimeWheel (tick tw) (size tw) (interval tw) (currentTime tw) (buckets tw)
    (stop tw) (S (S (waitGroup tw))) (overflowWheel tw).

Definition TimeWheel_Stop (tw : TimeWheel) : M TimeWheel :=
  if stop tw then panic
  else ret (MkTimeWheel (tick tw) (size tw) (interval tw) (currentTime tw)
              (buckets tw) true 0%nat (overflowWheel tw)).

(** The lifecycle of the engine (section 4.4 of the specification) as it can
    be read off the wheel: no loop registered and the stop channel open is
    Unstarted. *)
Inductive lifecycle := Unstarted | Running | Stopped.

Definition lifecycle_of (tw : TimeWheel) : lifecycle :=
  if stop tw then Stopped
  else if decide (waitGroup tw = 0%nat) then Unstarted else Running.


(** * Specification *)

(** ** Heaps reached by the code *)

(** What the allocation of buckets does to the heap: every bucket is as it
    was or is a new bucket, and nothing else changes but the counter. *)
Definition buckets_extended (w w' : World) : Prop :=
  (∀ b, w_buckets w' !! b = Some newBucket
        ∨ w_buckets w' !! b = w_buckets w !! b)
  ∧ w_timers w' = w_timers w
  ∧ next_timer w' = next_timer w
  ∧ next_elem w' = next_elem w
  ∧ queue w' = queue w
  ∧ spawned w' = spawned w.

(** The heap after [b.Add(t)]. *)
Definition Add_world (b : bucket_ref) (t : timer_ref) (bk : bucket)
    (tm : timer) (w : World) : World :=
  MkWorld
    (<[t := Timer (expiration tm) (Some b) (Some (next_elem w))]> (w_timers w))
    (<[b := Bucket (b_expiration bk) false (timers bk ++ [(next_elem w, t)])]>
       (w_buckets w))
    (next_timer w) (S (next_elem w)) (next_bucket w) (queue w) (spawned w).

(** The heap after [b.remove(t)] has unlinked element [e]. *)
Definition remove_world (b : bucket_ref) (t : timer_ref) (bk : bucket)
    (tm : timer) (e : elem_ref) (w : World) : World :=
  MkWorld
    (<[t := Timer (expiration tm) None None]> (w_timers w))
    (<[b := Bucket (b_expiration bk) (mu bk) (list_remove e (timers bk))]>
       (w_buckets w))
    (next_timer w) (next_elem w) (next_bucket w) (queue w) (spawned w).

(** The start of the slot of an instant [e] on a level. *)
Definition slot_of (tw : TimeWheel) (e : Z) : Z := tick tw * (e / tick tw).

(** The heap after [add] has placed timer [t] in bucket [b] of a level. *)
Definition placed_world (tw : TimeWheel) (t : timer_ref) (tm : timer)
    (w : World) (b : bucket_ref) (bk : bucket) : World :=
  MkWorld
    (<[t := Timer (expiration tm) (Some b) (Some (next_elem w))]> (w_timers w))
    (<[b := Bucket (slot_of tw (expiration tm)) false
              (timers bk ++ [(next_elem w, t)])]> (w_buckets w))
    (next_timer w) (S (next_elem w)) (next_bucket w)
    (if b_expiration bk =? slot_of tw (expiration tm) then queue w
     else queue w ++ [(b, slot_of tw (expiration tm))])
    (spawned w).

(** ** Well-formed wheels *)

(** The representation invariant of a chain of levels: ticks and slot counts
    are positive, a slot count is one that [make] accepts, the interval is
    the product computed by [newTimeWheel],
    clocks are at or after the epoch and a tick away from the end of
    [int64], there is one bucket per slot, and an
    overflow level has the interval of the level below as its tick, the same
    slot count and a clock that is not ahead. *)
Fixpoint wf_wheel (tw : TimeWheel) : Prop :=
  0 < tick tw ∧ 0 < size tw <= max_slice_len
  ∧ interval tw = mul64 (tick tw) (size tw)
  ∧ 0 <= currentTime tw <= max_int64 - tick tw
  ∧ Z.of_nat (length (buckets tw)) = size tw
  ∧ match overflowWheel tw with
    | None => True
    | Some ov =>
        tick ov = interval tw ∧ size ov = size tw
        ∧ currentTime ov <= currentTime tw ∧ wf_wheel ov
    end.

(** Every bucket of every level is allocated and its mutex is free. *)
Fixpoint buckets_ready (tw : TimeWheel) (w : World) : Prop :=
  (∀ b, b ∈ buckets tw → ∃ bk, w_buckets w !! b = Some bk ∧ mu bk = false)
  ∧ match overflowWheel tw with
    | None => True
    | Some ov => buckets_ready ov w
    end.

(** The overflow level that [add] recurses into: the one installed, or a new
    one. *)
Definition overflow_level (tw : TimeWheel) : M TimeWheel :=
  match overflowWheel tw with
  | Some ov => ret ov
  | None => newTimeWheel (interval tw) (size tw) (currentTime tw)
  end.

(** A level without overflow level, with slot count [sz], tick [tk],
    interval [iv] and clock [c], on which [add] of timer [t] does not return
    whatever the fuel. *)
Definition diverges (t : timer_ref) (tm : timer) (sz tk iv c : Z) : Prop :=
  ∀ fuel bs st wg w,
    w_timers w !! t = Some tm →
    add fuel (MkTimeWheel tk sz iv c bs st wg None) t w = OutOfFuel.

(** ** The heap invariant of buckets and timers *)

(** [t] is an element of the membership list of bucket [b]. *)
Definition member (t : timer_ref) (b : bucket_ref) (w : World) : Prop :=
  ∃ bk e, w_buckets w !! b = Some bk ∧ (e, t) ∈ timers bk.

(** The list of a bucket: its elements are distinct and allocated, and the
    timer held by an element points back to the bucket and to the element. *)
Definition linked (w : World) (b : bucket_ref) (bk : bucket) : Prop :=
  NoDup (timers bk).*1
  ∧ ∀ e t, (e, t) ∈ timers bk →
      (e < next_elem w)%nat
      ∧ ∃ tm, w_timers w !! t = Some tm
              ∧ t_bucket tm = Some b ∧ element tm = Some e.

(** A timer with a back-reference is held, by its element, in the list of
    the bucket it points to. *)
Definition owned (w : World) (t : timer_ref) (tm : timer) : Prop :=
  ∀ b, t_bucket tm = Some b →
    ∃ bk e, w_buckets w !! b = Some bk
            ∧ element tm = Some e ∧ (e, t) ∈ timers bk.

(** The invariant of the heap: lists and back-references agree, and the
    buckets in use have been allocated. *)
Definition heap_inv (w : World) : Prop :=
  map_Forall (linked w) (w_buckets w)
  ∧ map_Forall (owned w) (w_timers w)
  ∧ map_Forall (fun b _ => (b < next_bucket w)%nat) (w_buckets w).

(** The invariant of the specification: the back-reference of a timer is a
    bucket exactly when the timer is an element of the list of that bucket. *)
Definition backref_iff_member (w : World) : Prop :=
  ∀ t tm b, w_timers w !! t = Some tm → (t_bucket tm = Some b ↔ member t b w).

(** ** Flush *)

(** What [Flush] does, read off its text: the elements are visited front to
    back, and each timer is removed and handed to the callback before the
    next one is looked at. *)
Fixpoint drain {X : Type} (b : bucket_ref) (reinsert : timer_ref → X → M X)
    (l : list (elem_ref * timer_ref)) (x : X) : M X :=
  match l with
  | [] => ret x
  | (_, t) :: l' => remove b t;; x' ← reinsert t x; drain b reinsert l' x'
  end.

(** A callback that [Flush] of bucket [b] can run: called on a timer without
    owner while the mutex of [b] is held, it keeps the invariant of the heap
    and leaves bucket [b] as it is. *)
Definition callback_ok {X : Type} (b : bucket_ref)
    (reinsert : timer_ref → X → M X) : Prop :=
  ∀ t x w x' w' bk tm,
    heap_inv w → w_buckets w !! b = Some bk → mu bk = true →
    w_timers w !! t = Some tm → t_bucket tm = None →
    reinsert t x w = Ok (x', w') →
    heap_inv w' ∧ w_buckets w' !! b = Some bk.

(** The operations of bucket.go on the heap. [Add] is applied to a timer
    without owner, as [add] does: the timer is new or has just been removed
    by [Flush]. *)
Inductive bucket_step : World → World → Prop :=
| step_Add b t tm w w' :
    w_timers w !! t = Some tm → t_bucket tm = None →
    Add b t w = Ok (tt, w') → bucket_step w w'
| step_remove b t r w w' :
    remove b t w = Ok (r, w') → bucket_step w w'
| step_Flush (X : Type) fuel b (reinsert : timer_ref → X → M X) x x' w w' :
    callback_ok b reinsert →
    Flush fuel b reinsert x w = Ok (x', w') → bucket_step w w'
| step_Stop fuel t r w w' :
    Stop fuel t w = Ok (r, w') → bucket_step w w'.

(** A callback that starts the task of the timer and records it. *)
Definition run_task (t : timer_ref) (ran : list timer_ref)
  : M (list timer_ref) :=
  spawn t;; ret (ran ++ [t]).

(** A callback that records what it sees of bucket 0: whether the mutex is
    held and how many timers are still in the list. *)
Definition probe (t : timer_ref) (seen : list (bool * nat))
  : M (list (bool * nat)) :=
  bk ← load_bucket 0%nat;
  ret (seen ++ [(mu bk, length (timers bk))]).

(** ** Sample wheels and heaps *)

(** A heap with one new bucket. *)
Definition world_one_bucket : World :=
  with_buckets <[0%nat := newBucket]> empty_world.

(** The wheel of the test of the repository, tick 5 ms and 12 slots, at
    clock 1000 with its first overflow level, and a heap with its buckets
    and one timer. *)
Definition wheel_5_12 : TimeWheel :=
  MkTimeWheel 5 12 60 1000 (seq 0 12) false 0
    (Some (MkTimeWheel 60 12 720 960 (seq 12 12) false 0 None)).

Definition world_5_12 : World :=
  MkWorld {[ 0%nat := Timer 1010 None None ]}
    (list_to_map ((fun b => (b, newBucket)) <$> seq 0 24))
    1%nat 0%nat 24%nat [] [].

(** Three heaps with one bucket and two timers: no timer is in the bucket,
    the first one is, both are. *)
Definition world_free : World :=
  MkWorld {[ 0%nat := Timer 1010 None None; 1%nat := Timer 1012 None None ]}
    {[ 0%nat := newBucket ]} 2%nat 0%nat 1%nat [] [].

Definition world_one : World :=
  MkWorld {[ 0%nat := Timer 1010 (Some 0%nat) (Some 0%nat);
             1%nat := Timer 1012 None None ]}
    {[ 0%nat := Bucket (-1) false [(0%nat, 0%nat)] ]} 2%nat 1%nat 1%nat [] [].

Definition world_held : World :=
  MkWorld {[ 0%nat := Timer 1010 (Some 0%nat) (Some 0%nat);
             1%nat := Timer 1012 (Some 0%nat) (Some 1%nat) ]}
    {[ 0%nat := Bucket (-1) false [(0%nat, 0%nat); (1%nat, 1%nat)] ]}
    2%nat 2%nat 1%nat [] [].

(** ** The levels of a wheel *)

(** The clocks of the levels, finest first. *)
Fixpoint clocks (tw : TimeWheel) : list Z :=
  currentTime tw
  :: match overflowWheel tw with
     | Some ov => clocks ov
     | None => []
     end.

(** What is fixed when a level is created: tick, slot count, interval and
    buckets; finest level first. *)
Fixpoint levels (tw : TimeWheel) : list (Z * Z * Z * list bucket_ref) :=
  (tick tw, size tw, interval tw, buckets tw)
  :: match overflowWheel tw with
     | Some ov => levels ov
     | None => []
     end.

(** The timers of a bucket are those of one slot of a level with tick [tk]:
    their expirations lie in the tick that starts at the expiration of the
    bucket. *)
Definition slot_bucket (w : World) (tk : Z) (bk : bucket) : Prop :=
  ∀ e t, (e, t) ∈ timers bk →
    ∃ tm, w_timers w !! t = Some tm
          ∧ b_expiration bk <= expiration tm < b_expiration bk + tk.

(** The callback that adds the timer back to bucket [b]. *)
Definition add_back {X : Type} (b : bucket_ref) (t : timer_ref) (x : X)
  : M X :=
  Add b t;; ret x.

(** The clocks of the levels are aligned: no interval has left the range of
    [int64], the clock of a level is a multiple of its tick, and the clock
    of an overflow level is the clock of the level below truncated to the
    tick of the overflow level. *)
Fixpoint aligned (tw : TimeWheel) : Prop :=
  interval tw = tick tw * size tw
  ∧ (tick tw | currentTime tw)
  ∧ match overflowWheel tw with
    | None => True
    | Some ov =>
        currentTime ov = truncate (currentTime tw) (tick ov) ∧ aligned ov
    end.

(** The level [k] levels above the one given. *)
Fixpoint level (k : nat) (tw : TimeWheel) : option TimeWheel :=
  match k with
  | O => Some tw
  | S k' =>
      match overflowWheel tw with
      | Some ov => level k' ov
      | None => None
      end
  end.

(** The buckets of the first [k] levels are allocated, their mutexes are
    free, and bucket [b] is not one of them. *)
Fixpoint ready_below (k : nat) (b : bucket_ref) (tw : TimeWheel) (w : World)
  : Prop :=
  match k with
  | O => True
  | S k' =>
      (∀ b', b' ∈ buckets tw →
         b' ≠ b ∧ ∃ bk, w_buckets w !! b' = Some bk ∧ mu bk = false)
      ∧ match overflowWheel tw with
        | Some ov => ready_below k' b ov w
        | None => True
        end
  end.

(** Instant [e] is before the end of the interval of one of the first [k]
    levels. *)
Fixpoint within (k : nat) (tw : TimeWheel) (e : Z) : Prop :=
  match k with
  | O => False
  | S k' =>
      e < currentTime tw + interval tw
      ∨ match overflowWheel tw with
        | Some ov => within k' ov e
        | None => False
        end
  end.

(** The timer is due on a wheel: [add] would not place it. *)
Definition due (tw : TimeWheel) (w : World) (t : timer_ref) : bool :=
  match w_timers w !! t with
  | Some tm => expiration tm <? currentTime tw + tick tw
  | None => false
  end.

(** The heap of the sample wheel after a timer for instant 1207 has been
    scheduled: the timer is in the bucket of slot 1200 of the overflow
    level. *)
Definition world_1207 : World :=
  MkWorld {[ 0%nat := Timer 1010 None None;
             1%nat := Timer 1207 (Some 20%nat) (Some 0%nat) ]}
    (<[20%nat := Bucket 1200 false [(0%nat, 1%nat)]]>
       (list_to_map ((fun b => (b, newBucket)) <$> seq 0 24)))
    2%nat 1%nat 24%nat [(20%nat, 1200)] [].

(** ** The invariant of the engine *)

(** Every bucket that has an expiration has been submitted to the delay
    queue with it. This is what makes it safe for [add] to submit a bucket
    only when [SetExpiration] reports a change. *)
Definition offered (w : World) : Prop :=
  map_Forall
    (fun b bk => b_expiration bk = -1 ∨ (b, b_expiration bk) ∈ queue w)
    (w_buckets w).

(** The timers in use have been allocated. *)
Definition allocated (w : World) : Prop :=
  map_Forall (fun t _ => (t < next_timer w)%nat) (w_timers w).

Definition engine_inv (w : World) : Prop :=
  heap_inv w ∧ offered w ∧ allocated w.

(** The operations of the engine on the heap: scheduling a timer, one turn
    of the dispatch loop, and cancelling a timer. *)
Inductive engine_step : World → World → Prop :=
| step_AfterFunc fuel tw e r w w' :
    AfterFunc fuel tw e w = Ok (r, w') → engine_step w w'
| step_dispatch fuel tw b tw' w w' :
    dispatch fuel tw b w = Ok (tw', w') → engine_step w w'
| step_timer_Stop fuel t r w w' :
    Stop fuel t w = Ok (r, w') → engine_step w w'.

(** * Properties *)

Ltac unfold_m :=
  unfold bind, ret, panic, block, out_of_fuel, load_timer, load_bucket,
    store_timer, store_bucket, fresh_elem, fresh_bucket, fresh_timer, spawn,
    with_buckets, with_timers, with_queue in *.

(** ** 64-bit integers *)

Lemma wrap64_id x : in_int64 x → wrap64 x = x.
Proof.
  unfold in_int64, wrap64, min_int64, max_int64, modulus. intros H.
  rewrite Z.mod_small; lia.
Qed.

Lemma add64_id x y : in_int64 (x + y) → add64 x y = x + y.
Proof. apply wrap64_id. Qed.

Lemma mul64_id x y : in_int64 (x * y) → mul64 x y = x * y.
Proof. apply wrap64_id. Qed.
(** ** Arithmetic of [truncate] *)

Section Truncate.

Variables x m : Z.
Hypothesis m_pos : 0 < m.
Hypothesis x_nonneg : 0 <= x.
Hypothesis x_max : x <= max_int64.

Lemma rem64_nonneg : rem64 x m = x mod m.
Proof.
  unfold rem64. rewrite Z.rem_mod_nonneg by lia.
  apply wrap64_id. unfold in_int64, min_int64, max_int64 in *.
  pose proof (Z.mod_pos_bound x m m_pos).
  pose proof (Z.mod_le x m x_nonneg m_pos). lia.
Qed.

Lemma truncate_nonneg : truncate x m = m * (x / m).
Proof.
  unfold truncate. destruct (Z.leb_spec m 0); [lia|].
  rewrite rem64_nonneg. unfold sub64.
  pose proof (Z.mod_pos_bound x m m_pos).
  pose proof (Z.mod_le x m x_nonneg m_pos).
  rewrite wrap64_id; unfold in_int64, min_int64, max_int64 in *.
  - rewrite Z.mod_eq by lia. lia.
  - lia.
Qed.

Lemma truncate_bounds : 0 <= truncate x m <= x ∧ x - m < truncate x m.
Proof.
  rewrite truncate_nonneg.
  pose proof (Z.mod_pos_bound x m m_pos).
  pose proof (Z.mod_eq x m ltac:(lia)).
  pose proof (Z.mul_nonneg_nonneg m (x / m) ltac:(lia)
                (Z.div_pos x m x_nonneg m_pos)).
  lia.
Qed.

Lemma truncate_multiple : (m | truncate x m).
Proof. rewrite truncate_nonneg. apply Z.divide_factor_l. Qed.

End Truncate.

(** ** Running monadic code *)

Lemma bind_Ok {A B} (m : M A) (k : A → M B) w a w' :
  m w = Ok (a, w') → bind m k w = k a w'.
Proof. unfold bind. by intros ->. Qed.

Lemma bind_inv {A B} (m : M A) (k : A → M B) w b w'' :
  bind m k w = Ok (b, w'') → ∃ a w', m w = Ok (a, w') ∧ k a w' = Ok (b, w'').
Proof.
  unfold bind. destruct (m w) as [[a w']| | |]; try discriminate. eauto.
Qed.

Lemma load_timer_Ok t tm w :
  w_timers w !! t = Some tm → load_timer t w = Ok (tm, w).
Proof. unfold load_timer. by intros ->. Qed.

Lemma load_bucket_Ok b bk w :
  w_buckets w !! b = Some bk → load_bucket b w = Ok (bk, w).
Proof. unfold load_bucket. by intros ->. Qed.

Lemma load_timer_inv t tm w w' :
  load_timer t w = Ok (tm, w') → w' = w ∧ w_timers w !! t = Some tm.
Proof. unfold load_timer. destruct (w_timers w !! t); naive_solver. Qed.

Lemma load_bucket_inv b bk w w' :
  load_bucket b w = Ok (bk, w') → w' = w ∧ w_buckets w !! b = Some bk.
Proof. unfold load_bucket. destruct (w_buckets w !! b); naive_solver. Qed.

(** ** bucket.SetExpiration *)

Lemma SetExpiration_Ok b e bk w :
  w_buckets w !! b = Some bk →
  SetExpiration b e w
  = Ok (negb (b_expiration bk =? e),
        with_buckets <[b := Bucket e (mu bk) (timers bk)]> w).
Proof.
  intros Hb. unfold SetExpiration.
  rewrite (bind_Ok _ _ _ _ _ (load_bucket_Ok _ _ _ Hb)). reflexivity.
Qed.

(** C7. [SetExpiration b e] stores [e] in the bucket and returns true exactly
    when the expiration stored before differs from [e]; the same call made
    again at once returns false and changes nothing. *)
Theorem SetExpiration_swap (b : bucket_ref) (e : Z) (bk : bucket) (w : World) :
  w_buckets w !! b = Some bk →
  ∃ (r : bool) (w' : World),
    SetExpiration b e w = Ok (r, w')
    ∧ (r = true ↔ b_expiration bk ≠ e)
    ∧ w_buckets w' !! b = Some (Bucket e (mu bk) (timers bk))
    ∧ SetExpiration b e w' = Ok (false, w').
Proof.
  intros Hb. eexists _, _. split; [by apply SetExpiration_Ok|].
  split; [|split].
  - destruct (Z.eqb_spec (b_expiration bk) e); simpl; naive_solver.
  - simpl. apply lookup_insert_eq.
  - erewrite SetExpiration_Ok by (simpl; apply lookup_insert_eq).
    simpl. rewrite Z.eqb_refl. simpl. f_equal. f_equal.
    unfold with_buckets. simpl. f_equal. apply insert_insert_eq.
Qed.

Lemma SetExpiration_swap_witness :
  ∃ (r : bool) (w' : World),
    SetExpiration 0%nat 1010 world_one_bucket = Ok (r, w')
    ∧ (r = true ↔ b_expiration newBucket ≠ 1010)
    ∧ w_buckets w' !! 0%nat = Some (Bucket 1010 false [])
    ∧ SetExpiration 0%nat 1010 w' = Ok (false, w').
Proof. apply (SetExpiration_swap 0%nat 1010 newBucket). reflexivity. Defined.

(** ** TimeWheel.advanceClock *)

Lemma advanceClock_unfold tw e :
  advanceClock tw e
  = if add64 (currentTime tw) (tick tw) <=? e then
      set_clock tw (truncate e (tick tw))
        (match overflowWheel tw with
         | Some ov => Some (advanceClock ov (truncate e (tick tw)))
         | None => None
         end)
    else tw.
Proof. destruct tw; reflexivity. Qed.

(** C5. On a level with a positive tick and a clock at or after the epoch:
    [advanceClock e] changes nothing, on this level and on the coarser ones,
    when [e < currentTime + tick]; otherwise the clock becomes [e] truncated
    to a multiple of the tick, which is at most [e], more than [e - tick] and
    not before the old clock, and the overflow level, if there is one, is
    advanced with the new clock of this level. The call on the overflow level
    has only that level and the coarser ones to work on. *)
Theorem advanceClock_spec (tw : TimeWheel) (e : Z) :
  0 < tick tw → 0 <= currentTime tw →
  currentTime tw + tick tw <= max_int64 → e <= max_int64 →
  (e < currentTime tw + tick tw → advanceClock tw e = tw)
  ∧ (currentTime tw + tick tw <= e →
     let tw' := advanceClock tw e in
     currentTime tw' = truncate e (tick tw)
     ∧ currentTime tw' = tick tw * (e / tick tw)
     ∧ (tick tw | currentTime tw')
     ∧ currentTime tw <= currentTime tw' <= e
     ∧ e - tick tw < currentTime tw'
     ∧ overflowWheel tw'
       = (fun ov => advanceClock ov (currentTime tw')) <$> overflowWheel tw
     ∧ (tick tw', size tw', interval tw', buckets tw')
       = (tick tw, size tw, interval tw, buckets tw)).
Proof.
  intros Htick Hcur Hmax He.
  assert (Hadd : add64 (currentTime tw) (tick tw) = currentTime tw + tick tw).
  { apply add64_id. unfold in_int64, min_int64, max_int64 in *. lia. }
  rewrite advanceClock_unfold, Hadd. split; intros Hcmp.
  - destruct (Z.leb_spec (currentTime tw + tick tw) e); [lia|done].
  - destruct (Z.leb_spec (currentTime tw + tick tw) e); [|lia].
    assert (He0 : 0 <= e) by lia.
    pose proof (truncate_bounds e (tick tw) Htick He0 He) as [Hb1 Hb2].
    cbn.
    split; [done|]. split; [by apply truncate_nonneg|].
    split; [by apply truncate_multiple|].
    split; [lia|]. split; [lia|]. split; [|done].
    by destruct (overflowWheel tw).
Qed.

Lemma advanceClock_spec_witness :
  (1023 < currentTime wheel_5_12 + tick wheel_5_12 →
   advanceClock wheel_5_12 1023 = wheel_5_12)
  ∧ (currentTime wheel_5_12 + tick wheel_5_12 <= 1023 →
     let tw' := advanceClock wheel_5_12 1023 in
     currentTime tw' = truncate 1023 (tick wheel_5_12)
     ∧ currentTime tw' = tick wheel_5_12 * (1023 / tick wheel_5_12)
     ∧ (tick wheel_5_12 | currentTime tw')
     ∧ currentTime wheel_5_12 <= currentTime tw' <= 1023
     ∧ 1023 - tick wheel_5_12 < currentTime tw'
     ∧ overflowWheel tw'
       = (fun ov => advanceClock ov (currentTime tw'))
           <$> overflowWheel wheel_5_12
     ∧ (tick tw', size tw', interval tw', buckets tw')
       = (tick wheel_5_12, size wheel_5_12, interval wheel_5_12,
          buckets wheel_5_12)).
Proof.
  apply (advanceClock_spec wheel_5_12 1023); cbn; unfold max_int64; lia.
Defined.

(** ** New and newTimeWheel *)

Lemma buckets_extended_refl w : buckets_extended w w.
Proof. unfold buckets_extended. naive_solver. Qed.

Lemma buckets_extended_trans w1 w2 w3 :
  buckets_extended w1 w2 → buckets_extended w2 w3 → buckets_extended w1 w3.
Proof.
  unfold buckets_extended.
  intros (H1 & Ha1 & Hb1 & Hc1 & Hd1 & He1) (H2 & Ha2 & Hb2 & Hc2 & Hd2 & He2).
  split; [|repeat split; congruence].
  intros b. destruct (H2 b) as [->| ->]; [by left|apply H1].
Qed.

Lemma make_buckets_Ok n w :
  ∃ bs w', make_buckets n w = Ok (bs, w')
    ∧ length bs = n
    ∧ buckets_extended w w'
    ∧ ∀ b, b ∈ bs → w_buckets w' !! b = Some newBucket.
Proof.
  revert w. induction n as [|n IH]; intros w.
  - exists [], w. split; [done|]. split; [done|].
    split; [apply buckets_extended_refl|]. intros b Hb. by apply elem_of_nil in Hb.
  - cbn [make_buckets]. unfold bind, fresh_bucket, store_bucket, ret.
    match goal with |- context [make_buckets n ?w1] =>
      destruct (IH w1) as (bs & w' & Hrun & Hlen & Hext & Hnew) end.
    rewrite Hrun.
    eexists _, _. split; [reflexivity|]. split; [cbn; by rewrite Hlen|].
    assert (Hb0 : w_buckets w' !! next_bucket w = Some newBucket).
    { destruct Hext as [Hext _]. destruct (Hext (next_bucket w)) as [->| ->]; [done|].
      cbn. apply lookup_insert_eq. }
    split.
    + eapply buckets_extended_trans; [|exact Hext].
      unfold buckets_extended; cbn. split; [|done].
      intros b. destruct (decide (next_bucket w = b)) as [<-|Hne].
      * left. apply lookup_insert_eq.
      * right. by apply lookup_insert_ne.
    + intros b [->|Hb]%elem_of_cons; [done|by apply Hnew].
Qed.

Lemma make_panics_false n :
  make_panics n = false ↔ 0 <= n <= max_slice_len.
Proof.
  unfold make_panics. rewrite orb_false_iff, !Z.ltb_ge. lia.
Qed.

Lemma make_panics_true n :
  make_panics n = true ↔ n < 0 ∨ max_slice_len < n.
Proof.
  unfold make_panics. by rewrite orb_true_iff, !Z.ltb_lt.
Qed.

Lemma newTimeWheel_Ok tickMs wheelSize startMs w :
  0 <= wheelSize <= max_slice_len →
  ∃ bs w', newTimeWheel tickMs wheelSize startMs w
           = Ok (MkTimeWheel tickMs wheelSize (mul64 tickMs wheelSize)
                   (truncate startMs tickMs) bs false 0%nat None, w')
    ∧ Z.of_nat (length bs) = wheelSize
    ∧ buckets_extended w w'
    ∧ ∀ b, b ∈ bs → w_buckets w' !! b = Some newBucket.
Proof.
  intros Hsize. unfold newTimeWheel.
  rewrite (proj2 (make_panics_false wheelSize) Hsize).
  destruct (make_buckets_Ok (Z.to_nat wheelSize) w) as (bs & w' & Hrun & Hlen & Hext & Hnew).
  exists bs, w'. rewrite (bind_Ok _ _ _ _ _ Hrun). cbn.
  split; [done|]. split; [lia|done].
Qed.

(** C6, as the code has it. For a positive slot count, construction panics
    exactly when the tick is shorter than one millisecond or the slot count
    is more than [make] accepts; a tick of one millisecond or more and a slot
    count within that limit yield a wheel in the Unstarted state whose tick
    is the whole number of milliseconds of the tick given, with one bucket
    per slot. *)
Theorem New_spec (tick0 wheelSize nowMs : Z) (w : World) :
  in_int64 tick0 → 0 < wheelSize →
  (New tick0 wheelSize nowMs w = Panic
   ↔ tick0 < Millisecond ∨ max_slice_len < wheelSize)
  ∧ (Millisecond <= tick0 → wheelSize <= max_slice_len →
     ∃ tw w', New tick0 wheelSize nowMs w = Ok (tw, w')
       ∧ lifecycle_of tw = Unstarted
       ∧ tick tw = tick0 `quot` Millisecond
       ∧ 0 < tick tw
       ∧ size tw = wheelSize
       ∧ Z.of_nat (length (buckets tw)) = wheelSize
       ∧ overflowWheel tw = None
       ∧ queue w' = []).
Proof.
  intros Hrange Hsize. unfold New.
  assert (Hq : quo64 tick0 Millisecond = tick0 `quot` Millisecond).
  { apply wrap64_id. unfold in_int64, min_int64, max_int64, Millisecond in *.
    destruct (Z.le_gt_cases 0 tick0).
    - pose proof (Z.quot_pos tick0 1000000 ltac:(lia) ltac:(lia)).
      pose proof (Z.quot_le_upper_bound tick0 1000000 tick0 ltac:(lia) ltac:(lia)). lia.
    - pose proof (Z.quot_opp_l tick0 1000000 ltac:(lia)).
      pose proof (Z.quot_pos (- tick0) 1000000 ltac:(lia) ltac:(lia)).
      pose proof (Z.quot_le_upper_bound (- tick0) 1000000 (- tick0) ltac:(lia) ltac:(lia)). lia. }
  rewrite Hq.
  assert (Hsign : tick0 `quot` Millisecond <= 0 ↔ tick0 < Millisecond).
  { unfold Millisecond. split; intros H.
    - destruct (Z.lt_ge_cases tick0 1000000) as [|Hge]; [done|].
      pose proof (Z.quot_le_lower_bound tick0 1000000 1 ltac:(lia) ltac:(lia)). lia.
    - destruct (Z.le_gt_cases 0 tick0).
      + rewrite Z.quot_small; lia.
      + pose proof (Z.quot_opp_l tick0 1000000 ltac:(lia)).
        pose proof (Z.quot_pos (- tick0) 1000000 ltac:(lia) ltac:(lia)). lia. }
  destruct (Z.leb_spec (tick0 `quot` Millisecond) 0) as [Hle|Hgt].
  { split; [tauto|]. intros. lia. }
  unfold bind, newQueue.
  destruct (Z.le_gt_cases wheelSize max_slice_len) as [Hfit|Hbig].
  - destruct (newTimeWheel_Ok (tick0 `quot` Millisecond) wheelSize nowMs
                (with_queue (fun _ => []) w) ltac:(lia))
      as (bs & w' & Hrun & Hlen & Hext & _).
    rewrite Hrun. split; [split; [discriminate|lia]|].
    intros _ _. eexists _, w'. split; [reflexivity|]. cbn.
    repeat split; try done.
    destruct Hext as (_ & _ & _ & _ & -> & _). done.
  - unfold newTimeWheel.
    rewrite (proj2 (make_panics_true wheelSize) (or_intror Hbig)).
    split; [split; [by right|done]|]. intros. lia.
Qed.

Lemma New_spec_witness :
  ∃ tw w', New 5000000 12 1700000000000 empty_world = Ok (tw, w')
    ∧ lifecycle_of tw = Unstarted
    ∧ tick tw = 5000000 `quot` Millisecond
    ∧ 0 < tick tw
    ∧ size tw = 12
    ∧ Z.of_nat (length (buckets tw)) = 12
    ∧ overflowWheel tw = None
    ∧ queue w' = [].
Proof.
  apply (New_spec 5000000 12 1700000000000 empty_world).
  - unfold in_int64, min_int64, max_int64. lia.
  - lia.
  - unfold Millisecond. lia.
  - unfold max_slice_len. lia.
Defined.

(** C6, as the claim states it, fails twice: a tick of half a millisecond is
    positive and the slot count is positive, yet construction panics; and so
    it does for a tick of five milliseconds with [2 ^ 62] slots, which
    [make] refuses. *)
Lemma New_panics_on_positive_tick :
  0 < 500000 ∧ 0 < 12 ∧ New 500000 12 1700000000000 empty_world = Panic
  ∧ 0 < 5000000 ∧ 0 < 2 ^ 62
  ∧ New 5000000 (2 ^ 62) 1700000000000 empty_world = Panic.
Proof. repeat split; try lia; reflexivity. Qed.

(** ** bucket.Add *)

Lemma Add_Ok b t bk tm w :
  w_buckets w !! b = Some bk → mu bk = false → w_timers w !! t = Some tm →
  Add b t w = Ok (tt, Add_world b t bk tm w).
Proof.
  intros Hb Hmu Ht.
  unfold Add, Lock, PushBack, setElement, setBucket, Unlock. unfold_m.
  rewrite Hb, Hmu. cbn. rewrite !lookup_insert_eq. cbn. rewrite Ht. cbn.
  rewrite !lookup_insert_eq. cbn. rewrite !lookup_insert_eq. cbn.
  unfold Add_world. rewrite !insert_insert_eq. reflexivity.
Qed.

Lemma Add_locked b t bk w :
  w_buckets w !! b = Some bk → mu bk = true → Add b t w = Blocked.
Proof.
  intros Hb Hmu. unfold Add, Lock. unfold_m. by rewrite Hb, Hmu.
Qed.

(** ** TimeWheel.add: placement on a level *)

Lemma add_unfold fuel tw t :
  add (S fuel) tw t
  = (tm ← load_timer t;
     if expiration tm <? add64 (currentTime tw) (tick tw) then ret (tw, false)
     else if expiration tm <? add64 (currentTime tw) (interval tw) then
       if tick tw =? 0 then panic
       else
         if size tw =? 0 then panic
         else
           match index (buckets tw)
                   (rem64 (quo64 (expiration tm) (tick tw)) (size tw)) with
           | None => panic
           | Some b =>
               Add b t;;
               changed ← SetExpiration b
                           (mul64 (quo64 (expiration tm) (tick tw)) (tick tw));
               (if changed : bool then e ← Expiration b; Offer b e
                else ret tt);;
               ret (tw, true)
           end
     else
       ov ← match overflowWheel tw with
            | Some ov => ret ov
            | None => newTimeWheel (interval tw) (size tw) (currentTime tw)
            end;
       ' (ov', placed) ← add fuel ov t;
       ret (set_clock tw (currentTime tw) (Some ov'), placed)).
Proof. reflexivity. Qed.

Lemma wf_wheel_unfold tw :
  wf_wheel tw
  ↔ 0 < tick tw ∧ 0 < size tw <= max_slice_len
    ∧ interval tw = mul64 (tick tw) (size tw)
    ∧ 0 <= currentTime tw <= max_int64 - tick tw
    ∧ Z.of_nat (length (buckets tw)) = size tw
    ∧ match overflowWheel tw with
      | None => True
      | Some ov =>
          tick ov = interval tw ∧ size ov = size tw
          ∧ currentTime ov <= currentTime tw ∧ wf_wheel ov
      end.
Proof. by destruct tw. Qed.

Lemma buckets_ready_unfold tw w :
  buckets_ready tw w
  ↔ (∀ b, b ∈ buckets tw → ∃ bk, w_buckets w !! b = Some bk ∧ mu bk = false)
    ∧ match overflowWheel tw with
      | None => True
      | Some ov => buckets_ready ov w
      end.
Proof. by destruct tw. Qed.

Section Placement.

Variables (tw : TimeWheel) (t : timer_ref) (tm : timer) (w : World).
Local Abbreviation e := (expiration tm) (only parsing).
Local Abbreviation slot := (slot_of tw (expiration tm)) (only parsing).

Hypothesis tick_pos : 0 < tick tw.
Hypothesis size_pos : 0 < size tw.
Hypothesis clock_nonneg : 0 <= currentTime tw.
Hypothesis slots : Z.of_nat (length (buckets tw)) = size tw.
Hypothesis timer_at : w_timers w !! t = Some tm.
Hypothesis not_due : currentTime tw + tick tw <= e.
Hypothesis e_max : e <= max_int64.

Lemma quo64_expiration : quo64 e (tick tw) = e / tick tw.
Proof.
  unfold quo64. rewrite Z.quot_div_nonneg by lia.
  apply wrap64_id. unfold in_int64, min_int64, max_int64 in *.
  pose proof (Z.div_pos e (tick tw) ltac:(lia) tick_pos).
  pose proof (Z.div_le_upper_bound e (tick tw) e tick_pos ltac:(nia)). lia.
Qed.

Lemma slot_index_range : 0 <= (e / tick tw) mod size tw < size tw.
Proof. by apply Z.mod_pos_bound. Qed.

Lemma rem64_slot :
  rem64 (quo64 e (tick tw)) (size tw) = (e / tick tw) mod size tw.
Proof.
  rewrite quo64_expiration. unfold rem64.
  pose proof (Z.div_pos e (tick tw) ltac:(lia) tick_pos).
  rewrite Z.rem_mod_nonneg by lia.
  pose proof slot_index_range.
  pose proof (Z.mod_le (e / tick tw) (size tw) ltac:(lia) size_pos).
  pose proof (Z.div_le_upper_bound e (tick tw) e tick_pos ltac:(nia)).
  apply wrap64_id. unfold in_int64, min_int64, max_int64 in *. lia.
Qed.

Lemma slot_start : slot = truncate e (tick tw) ∧ 0 <= slot <= e.
Proof.
  pose proof (truncate_bounds e (tick tw) tick_pos ltac:(lia) e_max).
  rewrite (truncate_nonneg e (tick tw)) in * by lia. unfold slot_of. lia.
Qed.

Lemma mul64_slot : mul64 (quo64 e (tick tw)) (tick tw) = slot.
Proof.
  rewrite quo64_expiration. pose proof slot_start as [_ Hs].
  unfold slot_of in *. rewrite Z.mul_comm. apply mul64_id.
  unfold in_int64, min_int64, max_int64 in *. lia.
Qed.

Hypothesis in_range : e < add64 (currentTime tw) (interval tw).
Hypothesis all_ready :
  ∀ b, b ∈ buckets tw → ∃ bk, w_buckets w !! b = Some bk ∧ mu bk = false.

Lemma add_place fuel :
  ∃ b bk,
    buckets tw !! Z.to_nat ((e / tick tw) mod size tw) = Some b
    ∧ w_buckets w !! b = Some bk
    ∧ add (S fuel) tw t w = Ok ((tw, true), placed_world tw t tm w b bk).
Proof.
  pose proof slot_index_range as Hidx.
  destruct (lookup_lt_is_Some_2 (buckets tw)
              (Z.to_nat ((e / tick tw) mod size tw)) ltac:(lia)) as [b Hb].
  destruct (all_ready b) as (bk & Hbk & Hmu).
  { eapply list_elem_of_lookup_2, Hb. }
  exists b, bk. split; [done|]. split; [done|].
  rewrite add_unfold.
  rewrite (bind_Ok _ _ _ _ _ (load_timer_Ok _ _ _ timer_at)).
  rewrite add64_id
    by (unfold in_int64, min_int64, max_int64 in *; lia).
  destruct (Z.ltb_spec e (currentTime tw + tick tw)); [lia|].
  destruct (Z.ltb_spec e (add64 (currentTime tw) (interval tw))); [|lia].
  destruct (Z.eqb_spec (tick tw) 0); [lia|].
  destruct (Z.eqb_spec (size tw) 0); [lia|].
  rewrite rem64_slot, mul64_slot. unfold index.
  destruct (Z.ltb_spec ((e / tick tw) mod size tw) 0); [lia|].
  rewrite Hb.
  rewrite (bind_Ok _ _ _ _ _ (Add_Ok _ _ _ _ _ Hbk Hmu timer_at)).
  erewrite bind_Ok
    by (apply SetExpiration_Ok; cbn; apply lookup_insert_eq).
  cbn [b_expiration mu timers]. unfold placed_world.
  destruct (Z.eqb_spec (b_expiration bk) slot) as [Heq|Hne]; cbn [negb].
  - unfold_m. cbn. rewrite insert_insert_eq. reflexivity.
  - unfold Expiration, Offer. unfold_m. cbn.
    rewrite lookup_insert_eq. cbn. rewrite insert_insert_eq. reflexivity.
Qed.

End Placement.

(** C4. On a level with positive tick and slot count, a clock at or after the
    epoch, one allocated and unlocked bucket per slot, and for a timer with
    [currentTime + tick <= e < currentTime + interval]: [add] returns true,
    the timer is appended to the bucket at index [(e / tick) mod size] and
    owned by it, the expiration of that bucket becomes the slot start, which
    is [e] truncated to a multiple of the tick, and the bucket is submitted to
    the delay queue with that expiration exactly when [SetExpiration]
    reported a change. *)
Theorem add_places_in_slot (fuel : nat) (tw : TimeWheel) (t : timer_ref)
    (tm : timer) (w : World) :
  0 < tick tw → 0 < size tw → 0 <= currentTime tw →
  Z.of_nat (length (buckets tw)) = size tw →
  currentTime tw + interval tw <= max_int64 →
  w_timers w !! t = Some tm →
  (∀ b, b ∈ buckets tw → ∃ bk, w_buckets w !! b = Some bk ∧ mu bk = false) →
  currentTime tw + tick tw <= expiration tm < currentTime tw + interval tw →
  let e := expiration tm in
  let slot := slot_of tw e in
  ∃ b bk w' changed w1,
    buckets tw !! Z.to_nat ((e / tick tw) mod size tw) = Some b
    ∧ w_buckets w !! b = Some bk
    ∧ add (S fuel) tw t w = Ok ((tw, true), w')
    ∧ w_buckets w' !! b
      = Some (Bucket slot false (timers bk ++ [(next_elem w, t)]))
    ∧ w_timers w' !! t = Some (Timer e (Some b) (Some (next_elem w)))
    ∧ slot = truncate e (tick tw) ∧ (tick tw | slot) ∧ slot <= e < slot + tick tw
    ∧ SetExpiration b slot (Add_world b t bk tm w) = Ok (changed, w1)
    ∧ queue w' = (if changed : bool then queue w ++ [(b, slot)] else queue w).
Proof.
  intros Htick Hsize Hcur Hlen Hmax Ht Hready [Hlo Hhi] e slot.
  assert (He : e <= max_int64) by (subst e; lia).
  assert (Hadd : add64 (currentTime tw) (interval tw)
                 = currentTime tw + interval tw).
  { apply add64_id. unfold in_int64, min_int64, max_int64 in *. lia. }
  destruct (add_place tw t tm w Htick Hsize Hcur Hlen Ht Hlo He
              ltac:(rewrite Hadd; lia) Hready fuel) as (b & bk & Hb & Hbk & Hrun).
  pose proof (slot_start tw tm Htick Hcur Hlo He) as [Hslot Hrange].
  pose proof (truncate_bounds e (tick tw) Htick ltac:(lia) He) as [_ Hlow].
  exists b, bk, (placed_world tw t tm w b bk), (negb (b_expiration bk =? slot)).
  eexists. split; [done|]. split; [done|]. split; [done|].
  split; [cbn; apply lookup_insert_eq|].
  split; [cbn; apply lookup_insert_eq|].
  split; [done|].
  split; [apply Z.divide_factor_l|].
  split; [subst e slot; unfold slot_of in *; rewrite <- Hslot in Hlow; lia|].
  split.
  - erewrite SetExpiration_Ok by (cbn; apply lookup_insert_eq). reflexivity.
  - subst e slot. cbn. by destruct (b_expiration bk =? _).
Qed.

Lemma world_5_12_ready (b : bucket_ref) :
  (b < 24)%nat →
  ∃ bk, w_buckets world_5_12 !! b = Some bk ∧ mu bk = false.
Proof.
  intros Hb. exists newBucket. split; [|done].
  do 24 (destruct b as [|b]; [reflexivity|]). lia.
Qed.

Lemma wheel_5_12_ready : buckets_ready wheel_5_12 world_5_12.
Proof.
  split; [|split; [|done]]; intros b Hb; apply world_5_12_ready.
  - apply (elem_of_seq 0 12) in Hb. lia.
  - apply (elem_of_seq 12 12) in Hb. lia.
Qed.

Lemma add_places_in_slot_witness :
  ∃ b bk w' changed w1,
    buckets wheel_5_12 !! Z.to_nat ((1010 / 5) mod 12) = Some b
    ∧ w_buckets world_5_12 !! b = Some bk
    ∧ add 1 wheel_5_12 0%nat world_5_12 = Ok ((wheel_5_12, true), w')
    ∧ w_buckets w' !! b
      = Some (Bucket (slot_of wheel_5_12 1010) false
                (timers bk ++ [(0%nat, 0%nat)]))
    ∧ w_timers w' !! 0%nat = Some (Timer 1010 (Some b) (Some 0%nat))
    ∧ slot_of wheel_5_12 1010 = truncate 1010 5
    ∧ (5 | slot_of wheel_5_12 1010)
    ∧ slot_of wheel_5_12 1010 <= 1010 < slot_of wheel_5_12 1010 + 5
    ∧ SetExpiration b (slot_of wheel_5_12 1010)
        (Add_world b 0%nat bk (Timer 1010 None None) world_5_12)
      = Ok (changed, w1)
    ∧ queue w' = (if changed : bool then [(b, slot_of wheel_5_12 1010)]
                  else []).
Proof.
  apply (add_places_in_slot 0 wheel_5_12 0%nat (Timer 1010 None None)
           world_5_12);
    [cbn; lia | cbn; lia | cbn; lia | reflexivity
    | cbn; unfold max_int64; lia | reflexivity
    | apply wheel_5_12_ready
    | cbn; lia].
Defined.

(** ** TimeWheel.add: the recursion through the levels *)

Lemma wheel_ind (P : TimeWheel → Prop) :
  (∀ tw, (∀ ov, overflowWheel tw = Some ov → P ov) → P tw) → ∀ tw, P tw.
Proof.
  intros H. fix IH 1. intros [tk sz iv c bs st wg [ov|]]; apply H; cbn;
    intros ov' Heq; [injection Heq as <-; apply IH|discriminate].
Qed.

Lemma buckets_ready_extended tw w w' :
  buckets_extended w w' → buckets_ready tw w → buckets_ready tw w'.
Proof.
  intros [Hext _]. induction tw as [tw IH] using wheel_ind.
  rewrite !buckets_ready_unfold. intros [Hhere Hov]. split.
  - intros b Hb. destruct (Hhere b Hb) as (bk & Hbk & Hmu).
    destruct (Hext b) as [Hnew|Hsame].
    + by exists newBucket.
    + exists bk. by rewrite Hsame.
  - destruct (overflowWheel tw) as [ov|]; [|done]. by apply IH.
Qed.

Lemma overflow_level_Ok tw w :
  wf_wheel tw → 0 < interval tw →
  currentTime tw + interval tw <= max_int64 →
  ∃ ov w1,
    overflow_level tw w = Ok (ov, w1)
    ∧ wf_wheel ov
    ∧ tick ov = interval tw ∧ size ov = size tw
    ∧ 0 <= currentTime ov <= currentTime tw
    ∧ buckets_extended w w1
    ∧ (buckets_ready tw w → buckets_ready ov w1).
Proof.
  rewrite wf_wheel_unfold. intros (Htick & Hsize & Hiv & Hcur & Hlen & Hov) Hpos Hmax.
  unfold overflow_level. destruct (overflowWheel tw) as [ov|] eqn:Heq.
  - destruct Hov as (Ht & Hs & Hc & Hwf). exists ov, w. split; [done|].
    split; [done|]. split; [done|]. split; [done|]. split.
    { apply wf_wheel_unfold in Hwf. lia. }
    split; [apply buckets_extended_refl|].
    rewrite (buckets_ready_unfold tw), Heq. tauto.
  - destruct (newTimeWheel_Ok (interval tw) (size tw) (currentTime tw) w
                ltac:(lia)) as (bs & w1 & Hrun & Hl & Hext & Hnew).
    pose proof (truncate_bounds (currentTime tw) (interval tw) Hpos
                  ltac:(lia) ltac:(lia)).
    eexists _, w1. split; [exact Hrun|]. cbn.
    split; [repeat split; try done; lia|].
    split; [done|]. split; [done|]. split; [lia|]. split; [done|].
    intros _. split; [|done]. intros b Hb. exists newBucket. by rewrite Hnew.
Qed.

Lemma add_delegate fuel tw t tm w :
  w_timers w !! t = Some tm →
  add64 (currentTime tw) (tick tw) <= expiration tm →
  add64 (currentTime tw) (interval tw) <= expiration tm →
  add (S fuel) tw t w
  = (ov ← overflow_level tw;
     ' (ov', placed) ← add fuel ov t;
     ret (set_clock tw (currentTime tw) (Some ov'), placed)) w.
Proof.
  intros Ht H1 H2. rewrite add_unfold.
  rewrite (bind_Ok _ _ _ _ _ (load_timer_Ok _ _ _ Ht)).
  destruct (Z.ltb_spec (expiration tm) (add64 (currentTime tw) (tick tw))); [lia|].
  destruct (Z.ltb_spec (expiration tm) (add64 (currentTime tw) (interval tw))); [lia|].
  reflexivity.
Qed.

Section Recursion.

Variables (t : timer_ref) (tm : timer).
Local Abbreviation e := (expiration tm) (only parsing).

(** A bound [C] on the clocks for which no product and no sum computed on
    the way to the level that takes the timer leaves the range of
    [int64]. *)
Variable C : Z.

Lemma level_arith tw :
  wf_wheel tw → currentTime tw <= C → C + e * size tw <= max_int64 →
  currentTime tw + tick tw <= e →
  e <= max_int64
  ∧ add64 (currentTime tw) (tick tw) = currentTime tw + tick tw
  ∧ interval tw = tick tw * size tw
  ∧ add64 (currentTime tw) (interval tw) = currentTime tw + interval tw
  ∧ currentTime tw + interval tw <= max_int64.
Proof.
  rewrite wf_wheel_unfold. intros (Htick & Hsize & Hiv & Hcur & _) HC Hbound Hlo.
  assert (He : e <= e * size tw) by nia.
  assert (Hts : tick tw * size tw <= e * size tw) by nia.
  assert (Hpos : 0 < tick tw * size tw) by nia.
  assert (Hiv' : interval tw = tick tw * size tw).
  { rewrite Hiv. apply mul64_id. unfold in_int64, min_int64, max_int64 in *. lia. }
  split; [lia|]. split.
  { apply add64_id. unfold in_int64, min_int64, max_int64 in *. lia. }
  split; [done|]. split; [|lia].
  apply add64_id. unfold in_int64, min_int64, max_int64 in *. lia.
Qed.

Lemma add_never_false fuel : ∀ tw w,
  wf_wheel tw → w_timers w !! t = Some tm →
  currentTime tw <= C → C + e * size tw <= max_int64 →
  currentTime tw + tick tw <= e →
  ∀ tw' w', add fuel tw t w ≠ Ok ((tw', false), w').
Proof.
  induction fuel as [|fuel IH]; intros tw w Hwf Ht HC Hbound Hlo tw' w';
    [discriminate|].
  destruct (level_arith tw Hwf HC Hbound Hlo) as (He & Hadd1 & Hiv & Hadd2 & Hmax).
  pose proof Hwf as (Htick & Hsize & _ & Hcur & _)%wf_wheel_unfold.
  destruct (Z.lt_ge_cases e (currentTime tw + interval tw)) as [Hin|Hout].
  - destruct (Z.le_gt_cases (size tw) 0); [lia|].
    rewrite add_unfold, (bind_Ok _ _ _ _ _ (load_timer_Ok _ _ _ Ht)).
    fold e. rewrite Hadd1, Hadd2.
    destruct (Z.ltb_spec e (currentTime tw + tick tw)); [lia|].
    destruct (Z.ltb_spec e (currentTime tw + interval tw)); [|lia].
    destruct (tick tw =? 0); [discriminate|].
    destruct (size tw =? 0); [discriminate|].
    destruct (index _ _); [|discriminate].
    intros (? & ? & _ & (? & ? & _ & (? & ? & _ & Hret)%bind_inv)%bind_inv)%bind_inv.
    discriminate.
  - rewrite (add_delegate fuel tw t tm w Ht) by lia.
    destruct (overflow_level_Ok tw w Hwf ltac:(nia) ltac:(lia))
      as (ov & w1 & Hrun & Hwfov & Htov & Hsov & Hcov & Hext & _).
    rewrite (bind_Ok _ _ _ _ _ Hrun).
    intros ([ov' placed] & w2 & Hrec & Hret)%bind_inv.
    injection Hret as _ -> _.
    eapply (IH ov w1); [done| |lia|by rewrite Hsov|lia|exact Hrec].
    destruct Hext as (_ & -> & _). done.
Qed.

(** Depth of the recursion: a level whose tick times [2 ^ n] exceeds the
    expiration needs at most [n] further levels. *)
Lemma add_returns n : ∀ tw w,
  wf_wheel tw → buckets_ready tw w → 2 <= size tw →
  w_timers w !! t = Some tm →
  currentTime tw <= C → C + e * size tw <= max_int64 →
  e < tick tw * 2 ^ Z.of_nat n →
  ∃ tw' placed w', add (S n) tw t w = Ok ((tw', placed), w').
Proof.
  induction n as [|n IH]; intros tw w Hwf Hready Hsize Ht HC Hbound Hdepth.
  all: pose proof Hwf as (Htick & _ & _ & Hcur & Hlen & _)%wf_wheel_unfold.
  all: destruct (Z.lt_ge_cases e (currentTime tw + tick tw)) as [Hdue|Hlo].
  all: try (exists tw, false, w;
            rewrite add_unfold, (bind_Ok _ _ _ _ _ (load_timer_Ok _ _ _ Ht));
            rewrite add64_id
              by (unfold in_int64, min_int64, max_int64 in *; lia);
            by destruct (Z.ltb_spec e (currentTime tw + tick tw)); [|lia]).
  destruct (level_arith tw Hwf HC Hbound Hlo) as (He & Hadd1 & Hiv & Hadd2 & Hmax).
  destruct (Z.lt_ge_cases e (currentTime tw + interval tw)) as [Hin|Hout].
  - apply buckets_ready_unfold in Hready as [Hready _].
    destruct (add_place tw t tm w Htick ltac:(lia) ltac:(lia) Hlen Ht Hlo He
                ltac:(rewrite Hadd2; exact Hin) Hready (S n))
      as (b & bk & _ & _ & Hrun).
    eauto.
  - rewrite (add_delegate (S n) tw t tm w Ht) by lia.
    destruct (overflow_level_Ok tw w Hwf ltac:(nia) ltac:(lia))
      as (ov & w1 & Hrun & Hwfov & Htov & Hsov & Hcov & Hext & Hrdy).
    rewrite (bind_Ok _ _ _ _ _ Hrun).
    destruct (IH ov w1) as (ov' & placed & w2 & Hrec);
      [done|by apply Hrdy|lia| |lia|by rewrite Hsov| |].
    + destruct Hext as (_ & -> & _). done.
    + rewrite Htov, Hiv. rewrite Nat2Z.inj_succ, Z.pow_succ_r in Hdepth by lia.
      assert (0 < 2 ^ Z.of_nat n) by (apply Z.pow_pos_nonneg; lia). nia.
    + rewrite (bind_Ok _ _ _ _ _ Hrec). cbn. eauto.
Qed.

End Recursion.


Lemma wheel_5_12_wf : wf_wheel wheel_5_12.
Proof. cbn. unfold max_int64, max_slice_len. repeat split; lia. Qed.


(** C10, as the code has it. On a well-formed chain of levels with at least
    two slots whose buckets are allocated and unlocked, and for a timer whose
    expiration [e] satisfies [currentTime + e * size <= max_int64], so that no
    interval computed on the way overflows, [add] returns; it visits at most
    64 levels. *)
Theorem add_terminates (tw : TimeWheel) (t : timer_ref) (tm : timer)
    (w : World) :
  wf_wheel tw → buckets_ready tw w → 1 <= tick tw → 2 <= size tw →
  w_timers w !! t = Some tm →
  currentTime tw + expiration tm * size tw <= max_int64 →
  ∃ tw' placed w', add 64 tw t w = Ok ((tw', placed), w').
Proof.
  intros Hwf Hready Htick Hsize Ht Hbound.
  pose proof Hwf as (_ & _ & _ & Hcur & _)%wf_wheel_unfold.
  apply (add_returns t tm (currentTime tw) 63 tw w Hwf Hready Hsize Ht
           ltac:(lia) Hbound).
  change (Z.of_nat 63) with 63.
  assert (expiration tm < 2 ^ 63) by (unfold max_int64 in *; nia).
  assert (0 < 2 ^ 63) by lia. nia.
Qed.

Lemma add_terminates_witness :
  ∃ tw' placed w', add 64 wheel_5_12 0%nat world_5_12 = Ok ((tw', placed), w').
Proof.
  apply (add_terminates wheel_5_12 0%nat (Timer 1010 None None) world_5_12);
    [apply wheel_5_12_wf | apply wheel_5_12_ready | cbn; lia | cbn; lia
    | reflexivity | cbn; unfold max_int64; lia].
Defined.

(** *** The recursion when the interval of a level wraps around *)

Section Divergence.

Variables (t : timer_ref) (tm : timer) (sz : Z).
Hypothesis sz_nonneg : 0 <= sz <= max_slice_len.
Local Abbreviation diverges := (diverges t tm sz) (only parsing).

Lemma diverges_step tk iv c iv' c' :
  iv' = mul64 iv sz → c' = truncate c iv →
  (expiration tm <? add64 c tk) = false →
  (expiration tm <? add64 c iv) = false →
  diverges iv iv' c' → diverges tk iv c.
Proof.
  intros -> -> H1 H2 Hnext [|fuel] bs st wg w Ht; [done|].
  rewrite add_unfold, (bind_Ok _ _ _ _ _ (load_timer_Ok _ _ _ Ht)).
  cbn [currentTime tick interval overflowWheel size]. rewrite H1, H2.
  destruct (newTimeWheel_Ok iv sz c w sz_nonneg)
    as (bs' & w' & Hrun & _ & Hext & _).
  rewrite (bind_Ok _ _ _ _ _ Hrun). unfold bind.
  rewrite Hnext; [done|]. destruct Hext as (_ & -> & _). done.
Qed.

Lemma diverges_zero c :
  in_int64 c → c <= expiration tm → diverges 0 0 c.
Proof.
  intros Hc Hle fuel. induction fuel as [|fuel IH]; intros bs st wg w Ht;
    [done|].
  assert (Hcmp : (expiration tm <? add64 c 0) = false).
  { unfold add64. rewrite Z.add_0_r, wrap64_id by done.
    by destruct (Z.ltb_spec (expiration tm) c); [lia|]. }
  rewrite add_unfold, (bind_Ok _ _ _ _ _ (load_timer_Ok _ _ _ Ht)).
  cbn [currentTime tick interval overflowWheel size]. rewrite Hcmp.
  destruct (newTimeWheel_Ok 0 sz c w sz_nonneg)
    as (bs' & w' & Hrun & _ & Hext & _).
  rewrite (bind_Ok _ _ _ _ _ Hrun). unfold bind.
  change (mul64 0 sz) with 0. change (truncate c 0) with c.
  rewrite IH; [done|]. destruct Hext as (_ & -> & _). done.
Qed.

End Divergence.

(** C10, as the claim states it, fails. A wheel with a tick of 1 ms and
    [2 ^ 21] slots is constructed at 1700000000000 ms after the epoch, and a
    task is scheduled 200 years ahead. The levels have intervals [2 ^ 21],
    [2 ^ 42], then [2 ^ 63], which wraps to [- 2 ^ 63], then 0: from there on
    every level delegates to a new overflow level, and [add] does not
    return. *)
Lemma AfterFunc_diverges :
  1 <= 1000000 `quot` Millisecond ∧ 2 <= 2097152
  ∧ ∃ tw w, New 1000000 2097152 1700000000000 empty_world = Ok (tw, w)
            ∧ ∀ fuel, AfterFunc fuel tw 8007200000000 w = OutOfFuel.
Proof.
  split; [by vm_compute|]. split; [lia|].
  destruct (newTimeWheel_Ok 1 2097152 1700000000000
              (with_queue (fun _ => []) empty_world)
              ltac:(unfold max_slice_len; lia))
    as (bs & w & Hrun & _ & _ & _).
  eexists _, w. split.
  { unfold New. change (quo64 1000000 Millisecond <=? 0) with false.
    unfold bind, newQueue.
    change (quo64 1000000 Millisecond) with 1. rewrite Hrun. reflexivity. }
  intros fuel. unfold AfterFunc, addOrRun, bind at 1 2 3. cbn [fresh_timer store_timer].
  set (tm := Timer 8007200000000 None None).
  assert (Hsz : 0 <= 2097152 <= max_slice_len)
    by (unfold max_slice_len; lia).
  assert (Hc : in_int64 0) by (unfold in_int64, min_int64, max_int64; lia).
  assert (Hle : 0 <= expiration tm) by (cbn; lia).
  pose proof (diverges_zero (next_timer w) tm 2097152 Hsz 0 Hc Hle) as H4.
  assert (H3 : diverges (next_timer w) tm 2097152 (- 2 ^ 63) 0 0).
  { by apply (diverges_step _ _ _ Hsz _ _ _ 0 0). }
  assert (H2 : diverges (next_timer w) tm 2097152 (2 ^ 42) (- 2 ^ 63) 0).
  { by apply (diverges_step _ _ _ Hsz _ _ _ 0 0). }
  assert (H1 : diverges (next_timer w) tm 2097152 2097152 (2 ^ 42)
                 (truncate 1700000000000 2097152)).
  { by apply (diverges_step _ _ _ Hsz _ _ _ (- 2 ^ 63) 0). }
  assert (H0 : diverges (next_timer w) tm 2097152 1 2097152 1700000000000).
  { by apply (diverges_step _ _ _ Hsz _ _ _ (2 ^ 42)
                (truncate 1700000000000 2097152)). }
  unfold bind.
  change (mul64 1 2097152) with 2097152.
  change (truncate 1700000000000 1) with 1700000000000.
  rewrite H0; [done|]. cbn. apply lookup_insert_eq.
Qed.

(** With a single slot every level has the tick of the base level as its
    interval, so a timer that is not due is handed from level to level for
    ever: the slot count of at least two is needed, and [New] does not ask
    for it. *)
Lemma diverges_one_slot t tm tk : ∀ c,
  0 < tk → 0 <= c → c + tk <= expiration tm → expiration tm <= max_int64 →
  diverges t tm 1 tk tk c.
Proof.
  intros c Htk Hc Hlo Hmax fuel. revert c Hc Hlo.
  induction fuel as [|fuel IH]; intros c Hc Hlo bs st wg w Ht; [done|].
  assert (Hcmp : (expiration tm <? add64 c tk) = false).
  { rewrite add64_id by (unfold in_int64, min_int64, max_int64 in *; lia).
    by destruct (Z.ltb_spec (expiration tm) (c + tk)); [lia|]. }
  rewrite add_unfold, (bind_Ok _ _ _ _ _ (load_timer_Ok _ _ _ Ht)).
  cbn [currentTime tick interval overflowWheel size]. rewrite Hcmp.
  destruct (newTimeWheel_Ok tk 1 c w ltac:(unfold max_slice_len; lia))
    as (bs' & w' & Hrun & _ & Hext & _).
  rewrite (bind_Ok _ _ _ _ _ Hrun). unfold bind.
  rewrite mul64_id
    by (unfold in_int64, min_int64, max_int64 in *; lia).
  rewrite Z.mul_1_r.
  pose proof (truncate_bounds c tk Htk Hc ltac:(lia)).
  rewrite IH; [done|lia|lia|]. destruct Hext as (_ & -> & _). done.
Qed.

Example AfterFunc_one_slot :
  ∃ tw w, New 5000000 1 1000 empty_world = Ok (tw, w)
          ∧ ∀ fuel, AfterFunc fuel tw 2000 w = OutOfFuel.
Proof.
  eexists _, _. split; [reflexivity|]. intros fuel.
  unfold AfterFunc, addOrRun, bind. cbn [fresh_timer store_timer].
  rewrite (diverges_one_slot 0%nat (Timer 2000 None None) 5 1000);
    [done|lia|lia|cbn; lia|cbn; unfold max_int64; lia|reflexivity].
Qed.

(** *** The invariant of the levels is kept *)

Lemma newTimeWheel_wf tickMs wheelSize startMs tw w w' :
  0 < tickMs → 0 < wheelSize → 0 <= startMs →
  startMs + tickMs <= max_int64 →
  newTimeWheel tickMs wheelSize startMs w = Ok (tw, w') → wf_wheel tw.
Proof.
  intros Htick Hsize Hstart Hmax Hrun.
  assert (Hfit : wheelSize <= max_slice_len).
  { destruct (Z.le_gt_cases wheelSize max_slice_len) as [|Hbig]; [done|].
    revert Hrun. unfold newTimeWheel.
    by rewrite (proj2 (make_panics_true _) (or_intror Hbig)). }
  revert Hrun.
  destruct (newTimeWheel_Ok tickMs wheelSize startMs w ltac:(lia))
    as (bs & w1 & -> & Hlen & _). intros [= <- _].
  pose proof (truncate_bounds startMs tickMs Htick Hstart ltac:(lia)).
  cbn. repeat split; try done; lia.
Qed.

Lemma New_wf tick0 wheelSize nowMs tw w w' :
  0 < wheelSize → 0 <= nowMs →
  nowMs + quo64 tick0 Millisecond <= max_int64 →
  New tick0 wheelSize nowMs w = Ok (tw, w') → wf_wheel tw.
Proof.
  intros Hsize Hnow Hmax. unfold New.
  destruct (Z.leb_spec (quo64 tick0 Millisecond) 0); [done|].
  intros ([] & w1 & _ & Hrun)%bind_inv.
  by eapply (newTimeWheel_wf (quo64 tick0 Millisecond) wheelSize nowMs).
Qed.

Lemma advanceClock_wf : ∀ tw e,
  wf_wheel tw → 0 <= e → 2 * e <= max_int64 →
  wf_wheel (advanceClock tw e)
  ∧ tick (advanceClock tw e) = tick tw
  ∧ size (advanceClock tw e) = size tw
  ∧ (currentTime (advanceClock tw e) = currentTime tw
     ∨ currentTime tw <= currentTime (advanceClock tw e) <= e).
Proof.
  induction tw as [tw IH] using wheel_ind. intros e Hwf He Hmax.
  pose proof Hwf as (Htick & Hsize & Hiv & Hcur & Hlen & Hov)%wf_wheel_unfold.
  rewrite advanceClock_unfold.
  rewrite add64_id by (unfold in_int64, min_int64, max_int64 in *; lia).
  destruct (Z.leb_spec (currentTime tw + tick tw) e) as [Hadv|Hkeep];
    [|by repeat split; [..|left]].
  pose proof (truncate_bounds e (tick tw) Htick He ltac:(lia)) as [Hb1 Hb2].
  cbn [set_clock tick size currentTime].
  split; [|split; [done|split; [done|right; lia]]].
  apply wf_wheel_unfold. cbn [set_clock tick size interval currentTime
                               buckets overflowWheel].
  split; [done|]. split; [done|]. split; [done|]. split; [lia|].
  split; [done|].
  destruct (overflowWheel tw) as [ov|] eqn:Hovw; [|done].
  destruct Hov as (Htov & Hsov & Hcov & Hwfov).
  destruct (IH ov eq_refl (truncate e (tick tw)) Hwfov ltac:(lia) ltac:(lia))
    as (Hwf' & Ht' & Hs' & Hc').
  split; [congruence|]. split; [congruence|]. split; [lia|done].
Qed.

Lemma add_fields fuel tw t w tw' r w' :
  add fuel tw t w = Ok ((tw', r), w') →
  tick tw' = tick tw ∧ size tw' = size tw ∧ interval tw' = interval tw
  ∧ currentTime tw' = currentTime tw ∧ buckets tw' = buckets tw.
Proof.
  destruct fuel as [|fuel]; [discriminate|]. rewrite add_unfold.
  intros (tm & ? & _ & Hrest)%bind_inv.
  destruct (expiration tm <? add64 (currentTime tw) (tick tw)).
  { by injection Hrest as <- _ _. }
  destruct (expiration tm <? add64 (currentTime tw) (interval tw)).
  - destruct (tick tw =? 0); [discriminate|].
    destruct (size tw =? 0); [discriminate|].
    destruct (index _ _); [|discriminate].
    apply bind_inv in Hrest
      as (? & ? & _ & (? & ? & _ & (? & ? & _ & Hret)%bind_inv)%bind_inv).
    by injection Hret as <- _ _.
  - apply bind_inv in Hrest
      as (ov & w1 & _ & ([ov' placed] & w2 & _ & [= <- _ _])%bind_inv).
    done.
Qed.

Lemma add_wf t tm C fuel : ∀ tw w tw' r w',
  wf_wheel tw → w_timers w !! t = Some tm →
  currentTime tw <= C → C + expiration tm * size tw <= max_int64 →
  add fuel tw t w = Ok ((tw', r), w') → wf_wheel tw'.
Proof.
  induction fuel as [|fuel IH]; intros tw w tw' r w' Hwf Ht HC Hbound;
    [discriminate|].
  pose proof Hwf as (Htick & Hsize & Hiv0 & Hcur & Hlen & Hov)%wf_wheel_unfold.
  destruct (Z.lt_ge_cases (expiration tm) (currentTime tw + tick tw))
    as [Hdue|Hlo].
  { rewrite add_unfold, (bind_Ok _ _ _ _ _ (load_timer_Ok _ _ _ Ht)).
    rewrite add64_id by (unfold in_int64, min_int64, max_int64 in *; lia).
    destruct (Z.ltb_spec (expiration tm) (currentTime tw + tick tw)); [|lia].
    by intros [= <- _ _]. }
  destruct (level_arith tm C tw Hwf HC Hbound Hlo)
    as (He & Hadd1 & Hiv & Hadd2 & Hmax).
  destruct (Z.lt_ge_cases (expiration tm) (currentTime tw + interval tw))
    as [Hin|Hout].
  - intros Hrun. pose proof (add_fields _ _ _ _ _ _ _ Hrun) as Hf. revert Hrun.
    rewrite add_unfold, (bind_Ok _ _ _ _ _ (load_timer_Ok _ _ _ Ht)).
    rewrite Hadd1, Hadd2.
    destruct (Z.ltb_spec (expiration tm) (currentTime tw + tick tw)); [lia|].
    destruct (Z.ltb_spec (expiration tm) (currentTime tw + interval tw));
      [|lia].
    destruct (tick tw =? 0); [discriminate|].
    destruct (size tw =? 0); [discriminate|].
    destruct (index _ _); [|discriminate].
    intros (? & ? & _ & (? & ? & _ & (? & ? & _ & Hret)%bind_inv)%bind_inv)%bind_inv.
    by injection Hret as <- _ _.
  - rewrite (add_delegate fuel tw t tm w Ht) by lia.
    destruct (overflow_level_Ok tw w Hwf ltac:(nia) ltac:(lia))
      as (ov & w1 & Hrun & Hwfov & Htov & Hsov & Hcov & Hext & _).
    rewrite (bind_Ok _ _ _ _ _ Hrun).
    intros ([ov' placed] & w2 & Hrec & [= <- _ _])%bind_inv.
    assert (Ht1 : w_timers w1 !! t = Some tm).
    { destruct Hext as (_ & -> & _). done. }
    pose proof (IH ov w1 ov' placed w2 Hwfov Ht1 ltac:(lia)
                  ltac:(by rewrite Hsov) Hrec) as Hwf'.
    destruct (add_fields _ _ _ _ _ _ _ Hrec) as (Ht' & Hs' & _ & Hc' & _).
    apply wf_wheel_unfold. cbn [set_clock tick size interval currentTime
                                 buckets overflowWheel].
    split; [done|]. split; [done|]. split; [done|]. split; [done|].
    split; [done|]. split; [congruence|]. split; [congruence|].
    split; [lia|done].
Qed.

(** A run of the engine on the sample wheel: a timer for instant 1207 is
    placed in the overflow level, in the bucket of slot 1200; when that
    bucket is dispatched the timer moves down to the bucket of slot 1205 of
    the base level; when this one is dispatched the task is started. *)
Example down_leveling :
  match AfterFunc 8 wheel_5_12 1207 world_5_12 with
  | Ok ((tw1, t), w1) =>
      queue w1 = [(20%nat, 1200)]
      ∧ match dispatch 8 tw1 20%nat w1 with
        | Ok (tw2, w2) =>
            currentTime tw2 = 1200
            ∧ queue w2 = [(20%nat, 1200); (1%nat, 1205)]
            ∧ spawned w2 = []
            ∧ match dispatch 8 tw2 1%nat w2 with
              | Ok (tw3, w3) => currentTime tw3 = 1205 ∧ spawned w3 = [t]
              | _ => False
              end
        | _ => False
        end
  | _ => False
  end.
Proof. vm_compute. repeat split. Qed.

(** ** The heap invariant of buckets and timers *)

Lemma heap_inv_backref w : heap_inv w → backref_iff_member w.
Proof.
  intros (Hl & Ho & _) t tm b Ht. split.
  - intros Hb. destruct (Ho t tm Ht b Hb) as (bk & e & ? & _ & ?).
    by exists bk, e.
  - intros (bk & e & Hbk & Hin).
    destruct (Hl b bk Hbk) as [_ Hlk].
    destruct (Hlk e t Hin) as (_ & tm' & Ht' & ? & _). congruence.
Qed.

Lemma heap_inv_empty : heap_inv empty_world.
Proof. split; [|split]; apply map_Forall_empty. Qed.

(** The invariant does not look at the delay queue, at the tasks started or
    at the counter of timers, and allocation counters may grow. *)
Lemma heap_inv_frame w w' :
  w_timers w' = w_timers w → w_buckets w' = w_buckets w →
  (next_elem w <= next_elem w')%nat → (next_bucket w <= next_bucket w')%nat →
  heap_inv w → heap_inv w'.
Proof.
  intros Ht Hb He Hn (Hl & Ho & Ha). unfold heap_inv. rewrite Ht, Hb.
  split; [|split].
  - intros b bk Hbk. destruct (Hl b bk Hbk) as [Hnd Hlk]. split; [done|].
    intros e t Hin. destruct (Hlk e t Hin) as (Hlt & tm & ? & ? & ?).
    split; [lia|]. exists tm. by rewrite Ht.
  - intros t tm Htm b Hown.
    destruct (Ho t tm Htm b Hown) as (bk & e & ? & ? & ?).
    exists bk, e. by rewrite Hb.
  - intros b bk Hbk. specialize (Ha b bk Hbk). cbn in *. lia.
Qed.

Lemma NoDup_fst_inj {A B} (l : list (A * B)) a b1 b2 :
  NoDup l.*1 → (a, b1) ∈ l → (a, b2) ∈ l → b1 = b2.
Proof.
  induction l as [|[a' b'] l IH]; cbn; intros Hnd H1 H2.
  - by apply elem_of_nil in H1.
  - apply NoDup_cons in Hnd as [Hnotin Hnd].
    apply elem_of_cons in H1 as [H1|H1]; apply elem_of_cons in H2 as [H2|H2].
    + congruence.
    + injection H1 as -> ->. destruct Hnotin.
      apply list_elem_of_fmap. by exists (a', b2).
    + injection H2 as -> ->. destruct Hnotin.
      apply list_elem_of_fmap. by exists (a', b1).
    + by apply IH.
Qed.

Lemma elem_of_list_remove e p (l : list (elem_ref * timer_ref)) :
  p ∈ list_remove e l ↔ p.1 ≠ e ∧ p ∈ l.
Proof.
  unfold list_remove.
  apply (list_elem_of_filter (fun q : elem_ref * timer_ref => q.1 ≠ e)).
Qed.

Lemma NoDup_list_remove e (l : list (elem_ref * timer_ref)) :
  NoDup l.*1 → NoDup (list_remove e l).*1.
Proof.
  induction l as [|p l IH]; [done|].
  rewrite fmap_cons. intros [Hnotin Hnd]%NoDup_cons.
  unfold list_remove in *. rewrite filter_cons.
  destruct (decide (p.1 ≠ e)); [|by apply IH].
  rewrite fmap_cons. apply NoDup_cons. split; [|by apply IH].
  intros (q & Hq & [_ Hin]%(elem_of_list_remove e))%list_elem_of_fmap.
  apply Hnotin. apply list_elem_of_fmap. by exists q.
Qed.

Lemma list_remove_head e t (l : list (elem_ref * timer_ref)) :
  NoDup ((e, t) :: l).*1 → list_remove e ((e, t) :: l) = l.
Proof.
  rewrite fmap_cons. intros [Hnotin _]%NoDup_cons. unfold list_remove.
  rewrite filter_cons. cbn. destruct (decide (e ≠ e)); [done|].
  induction l as [|p l IH]; [done|].
  rewrite filter_cons. rewrite fmap_cons in Hnotin.
  apply not_elem_of_cons in Hnotin as [Hne Hnotin].
  destruct (decide (p.1 ≠ e)) as [|Heq];
    [|destruct Heq; intros Hp; apply Hne; by rewrite Hp].
  f_equal. by apply IH.
Qed.

(** Changing the expiration or the mutex of a bucket keeps the invariant. *)
Lemma heap_inv_bucket_fields w b bk bk' :
  heap_inv w → w_buckets w !! b = Some bk → timers bk' = timers bk →
  heap_inv (with_buckets <[b := bk']> w).
Proof.
  intros (Hl & Ho & Ha) Hb Heq. split; [|split]; cbn.
  - intros b0 bk0. destruct (decide (b = b0)) as [<-|Hne].
    + rewrite lookup_insert_eq. intros [= <-].
      destruct (Hl b bk Hb) as [Hnd Hlk]. split; rewrite Heq; done.
    + rewrite lookup_insert_ne by done. apply Hl.
  - intros t tm Ht b0 Hb0.
    destruct (Ho t tm Ht b0 Hb0) as (bk0 & e & Hbk0 & He & Hin).
    destruct (decide (b = b0)) as [<-|Hne].
    + exists bk', e. cbn. rewrite lookup_insert_eq, Heq. split; [done|].
      split; [done|]. congruence.
    + exists bk0, e. cbn. by rewrite lookup_insert_ne.
  - apply map_Forall_insert_2; [|done]. exact (Ha b bk Hb).
Qed.

(** *** bucket.remove *)

Lemma remove_Ok b t bk tm e w :
  w_timers w !! t = Some tm → t_bucket tm = Some b → element tm = Some e →
  w_buckets w !! b = Some bk →
  remove b t w = Ok (true, remove_world b t bk tm e w).
Proof.
  intros Ht Hown He Hb. unfold remove, getBucket, Remove, setBucket, setElement.
  unfold_m. rewrite Ht, Hown. cbn. destruct (decide _); [|done].
  rewrite Ht, He, Hb. cbn. rewrite Ht. cbn. rewrite lookup_insert_eq. cbn.
  unfold remove_world. by rewrite insert_insert_eq.
Qed.

Lemma remove_other b t tm w :
  w_timers w !! t = Some tm → t_bucket tm ≠ Some b →
  remove b t w = Ok (false, w).
Proof.
  intros Ht Hown. unfold remove, getBucket. unfold_m. rewrite Ht. cbn.
  by destruct (decide _).
Qed.

Lemma remove_inv b t r w w' :
  remove b t w = Ok (r, w') →
  ∃ tm, w_timers w !! t = Some tm
    ∧ ((r = false ∧ w' = w ∧ t_bucket tm ≠ Some b)
       ∨ (r = true ∧ t_bucket tm = Some b
          ∧ ∃ bk e, element tm = Some e ∧ w_buckets w !! b = Some bk
                    ∧ w' = remove_world b t bk tm e w)).
Proof.
  destruct (w_timers w !! t) as [tm|] eqn:Ht.
  - exists tm. split; [done|].
    destruct (decide (t_bucket tm = Some b)) as [Hown|Hown].
    + right. destruct (element tm) as [e|] eqn:He.
      * destruct (w_buckets w !! b) as [bk|] eqn:Hb.
        -- rewrite (remove_Ok b t bk tm e w) in H by done.
           injection H as <- <-. eauto 10.
        -- revert H. unfold remove, getBucket, Remove. unfold_m.
           rewrite Ht, Hown. cbn. destruct (decide _); [|done].
           by rewrite Ht, He, Hb.
      * revert H. unfold remove, getBucket. unfold_m.
        rewrite Ht, Hown. cbn. destruct (decide _); [|done].
        by rewrite Ht, He.
    + left. rewrite (remove_other b t tm w) in H by done.
      by injection H as <- <-.
  - unfold remove, getBucket. unfold_m. by rewrite Ht.
Qed.

Lemma remove_world_inv b t bk tm e w :
  heap_inv w → w_timers w !! t = Some tm → t_bucket tm = Some b →
  element tm = Some e → w_buckets w !! b = Some bk →
  heap_inv (remove_world b t bk tm e w).
Proof.
  intros (Hl & Ho & Ha) Ht Hown He Hb.
  destruct (Hl b bk Hb) as [Hnd Hlk].
  destruct (Ho t tm Ht b Hown) as (bk' & e' & Hb' & He' & Hin).
  assert (bk' = bk) as -> by congruence. assert (e' = e) as -> by congruence.
  split; [|split]; cbn.
  - intros b0 bk0. destruct (decide (b = b0)) as [<-|Hne].
    + rewrite lookup_insert_eq. intros [= <-]. split; cbn.
      * by apply NoDup_list_remove.
      * intros e0 t0 [Hne Hin0]%elem_of_list_remove. cbn in Hne.
        destruct (Hlk e0 t0 Hin0) as (Hlt & tm0 & Ht0 & Hb0 & He0).
        split; [done|]. exists tm0. cbn.
        rewrite lookup_insert_ne; [done|]. intros <-. congruence.
    + rewrite lookup_insert_ne by done. intros Hb0.
      destruct (Hl b0 bk0 Hb0) as [Hnd0 Hlk0]. split; [done|].
      intros e0 t0 Hin0.
      destruct (Hlk0 e0 t0 Hin0) as (Hlt & tm0 & Ht0 & Hown0 & He0).
      split; [done|]. exists tm0. cbn.
      rewrite lookup_insert_ne; [done|]. intros <-. congruence.
  - intros t0 tm0. destruct (decide (t = t0)) as [<-|Hne].
    + rewrite lookup_insert_eq. intros [= <-] b0. discriminate.
    + rewrite lookup_insert_ne by done. intros Ht0 b0 Hown0.
      destruct (Ho t0 tm0 Ht0 b0 Hown0) as (bk0 & e0 & Hb0 & He0 & Hin0).
      destruct (decide (b = b0)) as [<-|Hneb].
      * assert (bk0 = bk) as -> by congruence.
        eexists _, e0. cbn. rewrite lookup_insert_eq. split; [done|].
        split; [done|]. cbn. apply elem_of_list_remove. split; [|done].
        cbn. intros ->. apply Hne.
        by apply (NoDup_fst_inj (timers bk) e t t0).
      * exists bk0, e0. cbn. by rewrite lookup_insert_ne.
  - apply map_Forall_insert_2; [|done]. exact (Ha b bk Hb).
Qed.

Lemma remove_preserves b t r w w' :
  heap_inv w → remove b t w = Ok (r, w') → heap_inv w'.
Proof.
  intros Hinv (tm & Ht & [(_ & -> & _)|(_ & Hown & bk & e & He & Hb & ->)])%remove_inv;
    [done|by apply remove_world_inv].
Qed.

(** Removal of the front element of a locked bucket. *)
Lemma remove_front b ex e t l w :
  heap_inv w → w_buckets w !! b = Some (Bucket ex true ((e, t) :: l)) →
  ∃ w2, remove b t w = Ok (true, w2)
    ∧ heap_inv w2
    ∧ w_buckets w2 !! b = Some (Bucket ex true l)
    ∧ ∃ tm', w_timers w2 !! t = Some tm'
             ∧ t_bucket tm' = None ∧ element tm' = None.
Proof.
  intros Hinv Hb. pose proof Hinv as (Hl & _ & _).
  destruct (Hl b _ Hb) as [Hnd Hlk]. cbn [timers] in Hnd, Hlk.
  destruct (Hlk e t ltac:(left)) as (_ & tm & Ht & Hown & He).
  exists (remove_world b t (Bucket ex true ((e, t) :: l)) tm e w).
  split; [by apply remove_Ok|]. split; [by apply remove_world_inv|].
  cbn [remove_world w_buckets w_timers b_expiration mu timers].
  rewrite (list_remove_head e t l Hnd).
  split; [apply lookup_insert_eq|]. eexists. by rewrite lookup_insert_eq.
Qed.

(** *** bucket.Add *)

Lemma Add_world_inv b t bk tm w :
  heap_inv w → w_buckets w !! b = Some bk → w_timers w !! t = Some tm →
  t_bucket tm = None → heap_inv (Add_world b t bk tm w).
Proof.
  intros (Hl & Ho & Ha) Hb Ht Hfree.
  split; [|split]; cbn.
  - intros b0 bk0. destruct (decide (b = b0)) as [<-|Hne].
    + rewrite lookup_insert_eq. intros [= <-].
      destruct (Hl b bk Hb) as [Hnd Hlk]. split; cbn.
      * rewrite fmap_app. cbn. apply NoDup_app. split; [done|].
        split; [|apply NoDup_singleton].
        intros e0 ([e1 t1] & Heq & Hin)%list_elem_of_fmap Hnew%list_elem_of_singleton.
        cbn in Heq. subst. destruct (Hlk _ _ Hin) as [Hlt _]. lia.
      * intros e0 t0 [Hin|[= -> ->]%list_elem_of_singleton]%elem_of_app.
        -- destruct (Hlk e0 t0 Hin) as (Hlt & tm0 & Ht0 & Hb0 & He0).
           split; [lia|]. exists tm0. cbn.
           rewrite lookup_insert_ne; [done|]. intros <-. congruence.
        -- split; [lia|]. eexists. cbn. by rewrite lookup_insert_eq.
    + rewrite lookup_insert_ne by done. intros Hb0.
      destruct (Hl b0 bk0 Hb0) as [Hnd0 Hlk0]. split; [done|].
      intros e0 t0 Hin0.
      destruct (Hlk0 e0 t0 Hin0) as (Hlt & tm0 & Ht0 & Hown0 & He0).
      split; [cbn; lia|]. exists tm0. cbn.
      rewrite lookup_insert_ne; [done|]. intros <-. congruence.
  - intros t0 tm0. destruct (decide (t = t0)) as [<-|Hne].
    + rewrite lookup_insert_eq. intros [= <-] b0 [= <-].
      eexists _, _. cbn. rewrite lookup_insert_eq. split; [done|].
      split; [done|].
      cbn. apply elem_of_app. right. by apply list_elem_of_singleton.
    + rewrite lookup_insert_ne by done. intros Ht0 b0 Hown0.
      destruct (Ho t0 tm0 Ht0 b0 Hown0) as (bk0 & e0 & Hb0 & He0 & Hin0).
      destruct (decide (b = b0)) as [<-|Hneb].
      * assert (bk0 = bk) as -> by congruence.
        eexists _, e0. cbn. rewrite lookup_insert_eq. split; [done|].
        split; [done|]. cbn. apply elem_of_app. by left.
      * exists bk0, e0. cbn. by rewrite lookup_insert_ne.
  - apply map_Forall_insert_2; [|done]. exact (Ha b bk Hb).
Qed.

Lemma Add_inv b t w w' :
  Add b t w = Ok (tt, w') →
  ∃ bk tm, w_buckets w !! b = Some bk ∧ mu bk = false
           ∧ w_timers w !! t = Some tm ∧ w' = Add_world b t bk tm w.
Proof.
  intros H. destruct (w_buckets w !! b) as [bk|] eqn:Hb.
  - destruct (mu bk) eqn:Hmu.
    + by rewrite (Add_locked b t bk w) in H.
    + destruct (w_timers w !! t) as [tm|] eqn:Ht.
      * rewrite (Add_Ok b t bk tm w) in H by done. injection H as <-.
        eauto 10.
      * revert H. unfold Add, Lock, PushBack, setElement. unfold_m.
        rewrite Hb, Hmu. cbn. rewrite lookup_insert_eq. cbn. by rewrite Ht.
  - revert H. unfold Add, Lock. unfold_m. by rewrite Hb.
Qed.

Lemma Add_preserves b t tm w w' :
  heap_inv w → w_timers w !! t = Some tm → t_bucket tm = None →
  Add b t w = Ok (tt, w') → heap_inv w'.
Proof.
  intros Hinv Ht Hfree (bk & tm' & Hb & _ & Ht' & ->)%Add_inv.
  assert (tm' = tm) as -> by congruence. by apply Add_world_inv.
Qed.

(** *** timer.Stop *)

Lemma stop_loop_unfold fuel t stopped :
  stop_loop fuel t stopped
  = (ob ← getBucket t;
     match ob with
     | None => ret stopped
     | Some b =>
         match fuel with
         | O => out_of_fuel
         | S fuel' => r ← remove b t; stop_loop fuel' t r
         end
     end).
Proof. by destruct fuel. Qed.

Lemma stop_loop_free fuel t tm stopped w :
  w_timers w !! t = Some tm → t_bucket tm = None →
  stop_loop fuel t stopped w = Ok (stopped, w).
Proof.
  intros Ht Hfree. rewrite stop_loop_unfold. unfold getBucket. unfold_m.
  by rewrite Ht, Hfree.
Qed.

Lemma Stop_owned fuel t tm b bk e w :
  w_timers w !! t = Some tm → t_bucket tm = Some b → element tm = Some e →
  w_buckets w !! b = Some bk →
  Stop (S fuel) t w = Ok (true, remove_world b t bk tm e w).
Proof.
  intros Ht Hown He Hb. unfold Stop. rewrite stop_loop_unfold.
  unfold getBucket at 1. unfold bind at 1 2. unfold load_timer at 1.
  rewrite Ht. cbn [ret t_bucket]. rewrite Hown.
  unfold bind. rewrite (remove_Ok b t bk tm e w) by done.
  eapply stop_loop_free; [cbn; apply lookup_insert_eq|done].
Qed.

Lemma Stop_preserves fuel t r w w' :
  heap_inv w → Stop fuel t w = Ok (r, w') → heap_inv w'.
Proof.
  unfold Stop. generalize false. revert w.
  induction fuel as [|fuel IH]; intros w stopped Hinv; rewrite stop_loop_unfold;
    intros ([b|] & w1 & Hget & Hrest)%bind_inv;
    apply bind_inv in Hget as (tm & ? & [-> Ht]%load_timer_inv & [= _ <-]);
    try discriminate; try (by injection Hrest as _ <-).
  apply bind_inv in Hrest as (r1 & w2 & Hrem & Hloop).
  eapply IH; [|exact Hloop]. by eapply remove_preserves.
Qed.

(** *** The steps of Flush *)

Lemma Lock_Ok b bk w :
  w_buckets w !! b = Some bk → mu bk = false →
  Lock b w
  = Ok (tt, with_buckets <[b := Bucket (b_expiration bk) true (timers bk)]> w).
Proof. intros Hb Hmu. unfold Lock. unfold_m. by rewrite Hb, Hmu. Qed.

Lemma Lock_inv b w w' :
  Lock b w = Ok (tt, w') →
  ∃ bk, w_buckets w !! b = Some bk ∧ mu bk = false
        ∧ w' = with_buckets
                 <[b := Bucket (b_expiration bk) true (timers bk)]> w.
Proof.
  unfold Lock. unfold_m. destruct (w_buckets w !! b) as [bk|]; [|done].
  destruct (mu bk) eqn:Hmu; [done|]. intros [= <-]. eauto.
Qed.

Lemma Unlock_Ok b bk w :
  w_buckets w !! b = Some bk → mu bk = true →
  Unlock b w
  = Ok (tt, with_buckets <[b := Bucket (b_expiration bk) false (timers bk)]> w).
Proof. intros Hb Hmu. unfold Unlock. unfold_m. by rewrite Hb, Hmu. Qed.

Lemma Unlock_inv b w w' :
  Unlock b w = Ok (tt, w') →
  ∃ bk, w_buckets w !! b = Some bk
        ∧ w' = with_buckets
                 <[b := Bucket (b_expiration bk) false (timers bk)]> w.
Proof.
  unfold Unlock. unfold_m. destruct (w_buckets w !! b) as [bk|]; [|done].
  destruct (mu bk); [|done]. intros [= <-]. eauto.
Qed.

Lemma SetExpiration_inv b e r w w' :
  SetExpiration b e w = Ok (r, w') →
  ∃ bk, w_buckets w !! b = Some bk
        ∧ w' = with_buckets <[b := Bucket e (mu bk) (timers bk)]> w.
Proof.
  intros H. destruct (w_buckets w !! b) as [bk|] eqn:Hb.
  - rewrite (SetExpiration_Ok b e bk w Hb) in H. injection H as _ <-. eauto.
  - revert H. unfold SetExpiration. unfold_m. by rewrite Hb.
Qed.

Lemma Next_Ok b e bk w :
  w_buckets w !! b = Some bk → Next b e w = Ok (list_next e (timers bk), w).
Proof. intros Hb. unfold Next. unfold_m. by rewrite Hb. Qed.

Lemma Front_Ok b bk w :
  w_buckets w !! b = Some bk → Front b w = Ok (head (timers bk), w).
Proof. intros Hb. unfold Front. unfold_m. by rewrite Hb. Qed.

Lemma flush_loop_unfold {X} fuel b eid t (reinsert : timer_ref → X → M X) x :
  flush_loop (S fuel) b (Some (eid, t)) reinsert x
  = (next ← Next b eid;
     remove b t;;
     x' ← reinsert t x;
     flush_loop fuel b next reinsert x').
Proof. reflexivity. Qed.

Lemma drain_app {X} b (reinsert : timer_ref → X → M X) l1 l2 x w :
  drain b reinsert (l1 ++ l2) x w
  = (x1 ← drain b reinsert l1 x; drain b reinsert l2 x1) w.
Proof.
  revert x w. induction l1 as [|[e t] l1 IH]; intros x w; [done|].
  cbn [app drain]. unfold bind.
  destruct (remove b t w) as [[r w1]| | |]; try done.
  destruct (reinsert t x w1) as [[x1 w2]| | |]; [apply IH|done..].
Qed.

Section FlushLoop.

Context {X : Type}.
Variables (b : bucket_ref) (reinsert : timer_ref → X → M X).
Hypothesis reinsert_ok : callback_ok b reinsert.

(** One turn of the loop on a locked bucket whose list is [(e, t) :: l]. *)
Lemma flush_turn ex e t l x w :
  heap_inv w → w_buckets w !! b = Some (Bucket ex true ((e, t) :: l)) →
  ∃ w2, remove b t w = Ok (true, w2)
    ∧ w_buckets w2 !! b = Some (Bucket ex true l)
    ∧ (∃ tm', w_timers w2 !! t = Some tm'
              ∧ t_bucket tm' = None ∧ element tm' = None)
    ∧ ∀ x' w3, reinsert t x w2 = Ok (x', w3) →
               heap_inv w3 ∧ w_buckets w3 !! b = Some (Bucket ex true l).
Proof.
  intros Hinv Hb.
  destruct (remove_front b ex e t l w Hinv Hb)
    as (w2 & Hrem & Hinv2 & Hb2 & tm' & Ht' & Hfree & Hel).
  exists w2. split; [done|]. split; [done|]. split; [eauto|].
  intros x' w3 Hcb.
  exact (reinsert_ok t x w2 x' w3 _ tm' Hinv2 Hb2 eq_refl Ht' Hfree Hcb).
Qed.

Lemma flush_loop_drain l : ∀ n x w ex,
  heap_inv w → w_buckets w !! b = Some (Bucket ex true l) →
  (length l <= n)%nat →
  flush_loop n b (head l) reinsert x w = drain b reinsert l x w.
Proof.
  induction l as [|[e t] l IH]; intros n x w ex Hinv Hb Hlen;
    [by destruct n|].
  destruct n as [|n]; [cbn in Hlen; lia|].
  cbn [head drain]. rewrite flush_loop_unfold.
  rewrite (bind_Ok _ _ _ _ _ (Next_Ok _ e _ _ Hb)).
  cbn [timers list_next fst]. destruct (decide (e = e)); [|done].
  destruct (flush_turn ex e t l x w Hinv Hb) as (w2 & Hrem & _ & _ & Hcb).
  rewrite !(bind_Ok _ _ _ _ _ Hrem). unfold bind.
  destruct (reinsert t x w2) as [[x' w3]| | |]; try done.
  destruct (Hcb x' w3 eq_refl) as [Hinv3 Hb3].
  apply (IH n x' w3 ex Hinv3 Hb3). cbn in Hlen. lia.
Qed.

Lemma flush_loop_inv n : ∀ l x w ex x' w',
  heap_inv w → w_buckets w !! b = Some (Bucket ex true l) →
  flush_loop n b (head l) reinsert x w = Ok (x', w') → heap_inv w'.
Proof.
  induction n as [|n IH]; intros [|[e t] l] x w ex x' w' Hinv Hb;
    try discriminate; try (by intros [= _ <-]).
  cbn [head]. rewrite flush_loop_unfold.
  rewrite (bind_Ok _ _ _ _ _ (Next_Ok _ e _ _ Hb)).
  cbn [timers list_next fst]. destruct (decide (e = e)); [|done].
  destruct (flush_turn ex e t l x w Hinv Hb) as (w2 & Hrem & _ & _ & Hcb).
  rewrite (bind_Ok _ _ _ _ _ Hrem).
  intros (x1 & w3 & Hrun & Hloop)%bind_inv.
  destruct (Hcb x1 w3 Hrun) as [Hinv3 Hb3].
  by apply (IH l x1 w3 ex x' w').
Qed.

Lemma drain_state l1 : ∀ l2 x w ex x1 w1,
  heap_inv w → w_buckets w !! b = Some (Bucket ex true (l1 ++ l2)) →
  drain b reinsert l1 x w = Ok (x1, w1) →
  heap_inv w1 ∧ w_buckets w1 !! b = Some (Bucket ex true l2).
Proof.
  induction l1 as [|[e t] l1 IH]; intros l2 x w ex x1 w1 Hinv Hb.
  - by intros [= _ <-].
  - cbn [drain].
    destruct (flush_turn ex e t (l1 ++ l2) x w Hinv Hb)
      as (w2 & Hrem & _ & _ & Hcb).
    rewrite (bind_Ok _ _ _ _ _ Hrem).
    intros (x' & w3 & Hrun & Hrest)%bind_inv.
    destruct (Hcb x' w3 Hrun) as [Hinv3 Hb3].
    by apply (IH l2 x' w3 ex x1 w1).
Qed.

Lemma Flush_preserves fuel x w x' w' :
  heap_inv w → Flush fuel b reinsert x w = Ok (x', w') → heap_inv w'.
Proof.
  intros Hinv. unfold Flush.
  intros ([] & w1 & (bk & Hb & _ & ->)%Lock_inv & Hrest)%bind_inv.
  assert (Hinv1 : heap_inv
            (with_buckets
               <[b := Bucket (b_expiration bk) true (timers bk)]> w))
    by by eapply heap_inv_bucket_fields.
  revert Hrest.
  erewrite bind_Ok by (apply Front_Ok; cbn; apply lookup_insert_eq).
  cbn [timers].
  intros (x1 & w3 & Hloop
          & (r & w4 & (bk4 & Hb4 & ->)%SetExpiration_inv
             & ([] & w5 & (bk5 & Hb5 & ->)%Unlock_inv
                & [= _ <-])%bind_inv)%bind_inv)%bind_inv.
  eapply heap_inv_bucket_fields; [|exact Hb5|done].
  eapply heap_inv_bucket_fields; [|exact Hb4|done].
  eapply flush_loop_inv; [exact Hinv1| |exact Hloop].
  cbn. apply lookup_insert_eq.
Qed.

(** C2, as the code has it. For a callback that leaves the bucket alone,
    [Flush] takes the mutex and visits the list front to back; each timer is
    unlinked, with its back-reference cleared, and handed to the callback at
    once, on a heap in which the bucket still holds the timers behind it and
    the mutex is still held; after the last callback the list is empty, the
    expiration is the sentinel -1 and the mutex is free. *)
Theorem Flush_interleaves (fuel : nat) (x : X) (w : World) (bk : bucket) :
  heap_inv w → w_buckets w !! b = Some bk → mu bk = false →
  (length (timers bk) <= fuel)%nat →
  Flush fuel b reinsert x w
  = (Lock b;;
     x' ← drain b reinsert (timers bk) x;
     SetExpiration b (-1);;
     Unlock b;;
     ret x') w
  ∧ (∀ l1 e t l2 x1 w1,
       timers bk = l1 ++ (e, t) :: l2 →
       (Lock b;; drain b reinsert l1 x) w = Ok (x1, w1) →
       ∃ w2, remove b t w1 = Ok (true, w2)
         ∧ w_buckets w2 !! b = Some (Bucket (b_expiration bk) true l2)
         ∧ (∃ tm', w_timers w2 !! t = Some tm'
                   ∧ t_bucket tm' = None ∧ element tm' = None)
         ∧ (Lock b;; drain b reinsert (l1 ++ [(e, t)]) x) w
           = reinsert t x1 w2)
  ∧ (∀ x' w',
       Flush fuel b reinsert x w = Ok (x', w') →
       w_buckets w' !! b = Some (Bucket (-1) false [])).
Proof.
  intros Hinv Hb Hmu Hlen.
  set (w0 := with_buckets
               <[b := Bucket (b_expiration bk) true (timers bk)]> w).
  assert (Hb0 : w_buckets w0 !! b
                = Some (Bucket (b_expiration bk) true (timers bk)))
    by apply lookup_insert_eq.
  assert (Hinv0 : heap_inv w0) by by eapply heap_inv_bucket_fields.
  assert (Heq : Flush fuel b reinsert x w
                = (Lock b;;
                   x' ← drain b reinsert (timers bk) x;
                   SetExpiration b (-1);;
                   Unlock b;;
                   ret x') w).
  { unfold Flush. rewrite !(bind_Ok _ _ _ _ _ (Lock_Ok _ _ _ Hb Hmu)).
    rewrite (bind_Ok _ _ _ _ _ (Front_Ok _ _ _ Hb0)). cbn [timers].
    unfold bind at 1 5. fold w0.
    by rewrite (flush_loop_drain (timers bk) fuel x w0 _ Hinv0 Hb0 Hlen). }
  split; [done|]. split.
  - intros l1 e t l2 x1 w1 Hsplit.
    rewrite (bind_Ok _ _ _ _ _ (Lock_Ok _ _ _ Hb Hmu)). fold w0. intros Hrun.
    rewrite Hsplit in Hb0.
    destruct (drain_state l1 _ x w0 _ x1 w1 Hinv0 Hb0 Hrun) as [Hinv1 Hb1].
    destruct (flush_turn _ e t l2 x1 w1 Hinv1 Hb1)
      as (w2 & Hrem & Hb2 & Hfree & _).
    exists w2. split; [done|]. split; [done|]. split; [done|].
    rewrite (bind_Ok _ _ _ _ _ (Lock_Ok _ _ _ Hb Hmu)). fold w0.
    rewrite drain_app. unfold bind at 1. rewrite Hrun. cbn [drain].
    rewrite (bind_Ok _ _ _ _ _ Hrem). unfold bind, ret.
    by destruct (reinsert t x1 w2) as [[? ?]| | |].
  - intros x' w'. rewrite Heq.
    rewrite (bind_Ok _ _ _ _ _ (Lock_Ok _ _ _ Hb Hmu)). fold w0.
    intros (x1 & w1 & Hrun & Hrest)%bind_inv.
    rewrite <- (app_nil_r (timers bk)) in Hb0.
    destruct (drain_state _ _ x w0 _ x1 w1 Hinv0 Hb0 Hrun) as [_ Hb1].
    revert Hrest.
    rewrite (bind_Ok _ _ _ _ _ (SetExpiration_Ok _ _ _ _ Hb1)).
    erewrite bind_Ok by (apply Unlock_Ok; [apply lookup_insert_eq|done]).
    intros [= _ <-]. cbn. by rewrite lookup_insert_eq.
Qed.

End FlushLoop.

Lemma run_task_ok b : callback_ok b run_task.
Proof.
  intros t x w x' w' bk tm Hinv Hb _ _ _ [= _ <-]. split; [|done].
  by eapply heap_inv_frame; [..|exact Hinv].
Qed.

Lemma world_free_inv : heap_inv world_free.
Proof.
  split; [|split]; cbn.
  - apply map_Forall_singleton. split; cbn; [apply NoDup_nil_2|].
    intros e t Hin. by apply elem_of_nil in Hin.
  - apply map_Forall_insert_2; [|apply map_Forall_singleton]; by intros b.
  - apply map_Forall_singleton. lia.
Qed.

Lemma world_one_run : Add 0%nat 0%nat world_free = Ok (tt, world_one).
Proof. reflexivity. Qed.

Lemma world_held_run : Add 0%nat 1%nat world_one = Ok (tt, world_held).
Proof. reflexivity. Qed.

Lemma world_one_inv : heap_inv world_one.
Proof.
  eapply (Add_preserves 0%nat 0%nat (Timer 1010 None None) world_free);
    [apply world_free_inv|reflexivity|reflexivity|apply world_one_run].
Qed.

Lemma world_held_inv : heap_inv world_held.
Proof.
  eapply (Add_preserves 0%nat 1%nat (Timer 1012 None None) world_one);
    [apply world_one_inv|reflexivity|reflexivity|apply world_held_run].
Qed.

Lemma Flush_interleaves_witness :
  Flush 2 0%nat run_task [] world_held
  = (Lock 0%nat;;
     x' ← drain 0%nat run_task [(0%nat, 0%nat); (1%nat, 1%nat)] [];
     SetExpiration 0%nat (-1);;
     Unlock 0%nat;;
     ret x') world_held
  ∧ (∀ l1 e t l2 x1 w1,
       [(0%nat, 0%nat); (1%nat, 1%nat)] = l1 ++ (e, t) :: l2 →
       (Lock 0%nat;; drain 0%nat run_task l1 []) world_held = Ok (x1, w1) →
       ∃ w2, remove 0%nat t w1 = Ok (true, w2)
         ∧ w_buckets w2 !! 0%nat = Some (Bucket (-1) true l2)
         ∧ (∃ tm', w_timers w2 !! t = Some tm'
                   ∧ t_bucket tm' = None ∧ element tm' = None)
         ∧ (Lock 0%nat;; drain 0%nat run_task (l1 ++ [(e, t)]) []) world_held
           = run_task t x1 w2)
  ∧ (∀ x' w',
       Flush 2 0%nat run_task [] world_held = Ok (x', w') →
       w_buckets w' !! 0%nat = Some (Bucket (-1) false [])).
Proof.
  apply (Flush_interleaves 0%nat run_task (run_task_ok 0%nat) 2 []
           world_held (Bucket (-1) false [(0%nat, 0%nat); (1%nat, 1%nat)]));
    [apply world_held_inv|reflexivity|reflexivity|cbn; lia].
Defined.

(** C2, as the claim states it, fails. Flushing a bucket that holds two
    timers, the callback of the first timer runs while the mutex is held and
    the second timer is still in the list; and a callback that adds the timer
    back to the bucket being flushed blocks forever on the mutex. *)
Lemma Flush_callback_sees_partial_drain :
  (∃ w', Flush 2 0%nat probe [] world_held
         = Ok ([(true, 1%nat); (true, 0%nat)], w'))
  ∧ Flush 2 0%nat (fun t x => Add 0%nat t;; ret x) tt world_held = Blocked.
Proof. split; [eexists|]; reflexivity. Qed.

(** *** TimeWheel.add keeps the invariant *)

Lemma make_buckets_heap n : ∀ w bs w',
  heap_inv w → make_buckets n w = Ok (bs, w') →
  heap_inv w' ∧ w_timers w' = w_timers w
  ∧ ∀ b bk, w_buckets w !! b = Some bk → w_buckets w' !! b = Some bk.
Proof.
  induction n as [|n IH]; intros w bs w' Hinv.
  - by intros [= _ <-].
  - cbn [make_buckets]. unfold bind at 1 2. cbn [fresh_bucket store_bucket].
    intros (bs' & w1 & Hrun & [= _ <-])%bind_inv.
    pose proof Hinv as (Hl & Ho & Ha).
    assert (Hfresh : w_buckets w !! next_bucket w = None).
    { destruct (w_buckets w !! next_bucket w) as [bk|] eqn:Hb; [|done].
      specialize (Ha _ _ Hb). cbn in Ha. lia. }
    eapply IH in Hrun as (Hinv1 & Ht1 & Hb1).
    + split; [done|]. split; [done|]. intros b bk Hb. apply Hb1. cbn.
      rewrite lookup_insert_ne; [done|]. intros <-. congruence.
    + split; [|split]; cbn.
      * apply map_Forall_insert_2.
        -- split; cbn; [apply NoDup_nil_2|].
           intros e t Hin. by apply elem_of_nil in Hin.
        -- intros b bk Hb. exact (Hl b bk Hb).
      * intros t tm Ht b Hown.
        destruct (Ho t tm Ht b Hown) as (bk & e & Hb & ? & ?).
        exists bk, e. cbn. rewrite lookup_insert_ne; [done|].
        intros <-. congruence.
      * apply map_Forall_insert_2; [lia|].
        intros b bk Hb. specialize (Ha b bk Hb). cbn in *. lia.
Qed.

Lemma overflow_level_heap tw ov w w' :
  heap_inv w → overflow_level tw w = Ok (ov, w') →
  heap_inv w' ∧ w_timers w' = w_timers w
  ∧ ∀ b bk, w_buckets w !! b = Some bk → w_buckets w' !! b = Some bk.
Proof.
  intros Hinv. unfold overflow_level, newTimeWheel.
  destruct (overflowWheel tw); [by intros [= _ <-]|].
  destruct (make_panics (size tw)); [done|].
  intros (bs & w1 & Hrun & [= _ <-])%bind_inv.
  by eapply make_buckets_heap.
Qed.

(** [add] of a timer without owner keeps the invariant and does not touch a
    bucket whose mutex is held. *)
Lemma add_heap t tm fuel : ∀ tw w r w',
  heap_inv w → w_timers w !! t = Some tm → t_bucket tm = None →
  add fuel tw t w = Ok (r, w') →
  heap_inv w'
  ∧ ∀ b bk, w_buckets w !! b = Some bk → mu bk = true →
            w_buckets w' !! b = Some bk.
Proof.
  induction fuel as [|fuel IH]; intros tw w r w' Hinv Ht Hfree; [discriminate|].
  rewrite add_unfold, (bind_Ok _ _ _ _ _ (load_timer_Ok _ _ _ Ht)).
  destruct (expiration tm <? add64 (currentTime tw) (tick tw)).
  { by intros [= _ <-]. }
  destruct (expiration tm <? add64 (currentTime tw) (interval tw)).
  - destruct (tick tw =? 0); [discriminate|].
    destruct (size tw =? 0); [discriminate|].
    destruct (index _ _) as [b'|]; [|discriminate].
    intros ([] & w1 & (bk' & tm' & Hb' & Hmu' & Ht' & ->)%Add_inv
            & (changed & w2 & (bk2 & Hb2 & ->)%SetExpiration_inv
               & ([] & w3 & Hoffer & [= _ <-])%bind_inv)%bind_inv)%bind_inv.
    assert (tm' = tm) as -> by congruence.
    pose proof (Add_world_inv b' t bk' tm w Hinv Hb' Ht Hfree) as Hinv1.
    pose proof (heap_inv_bucket_fields _ b' bk2
                  (Bucket (mul64 (quo64 (expiration tm) (tick tw)) (tick tw))
                     (mu bk2) (timers bk2)) Hinv1 Hb2 eq_refl) as Hinv2.
    assert (Hw3 : w_timers w3 = w_timers
                    (with_buckets
                       <[b' := Bucket
                                 (mul64 (quo64 (expiration tm) (tick tw))
                                    (tick tw)) (mu bk2) (timers bk2)]>
                       (Add_world b' t bk' tm w))
                  ∧ w_buckets w3 = w_buckets
                      (with_buckets
                         <[b' := Bucket
                                   (mul64 (quo64 (expiration tm) (tick tw))
                                      (tick tw)) (mu bk2) (timers bk2)]>
                         (Add_world b' t bk' tm w))
                  ∧ next_elem w3 = S (next_elem w)
                  ∧ next_bucket w3 = next_bucket w).
    { destruct changed.
      - revert Hoffer. unfold Expiration, Offer. unfold_m. cbn.
        rewrite lookup_insert_eq. by intros [= <-].
      - by injection Hoffer as <-. }
    destruct Hw3 as (Ht3 & Hb3 & He3 & Hn3).
    split.
    + eapply heap_inv_frame; [exact Ht3|exact Hb3| | |exact Hinv2]; cbn; lia.
    + intros b bk Hb Hmu. rewrite Hb3. cbn.
      rewrite !lookup_insert_ne; [done|intros <-; congruence..].
  - intros (ov & w1 & Hov & ([ov' placed] & w2 & Hrec & [= _ <-])%bind_inv)%bind_inv.
    destruct (overflow_level_heap tw ov w w1 Hinv Hov) as (Hinv1 & Ht1 & Hb1).
    destruct (IH ov w1 _ w2 Hinv1 ltac:(by rewrite Ht1) Hfree Hrec)
      as [Hinv2 Hb2].
    split; [done|]. intros b bk Hb Hmu. apply Hb2; [|done]. by apply Hb1.
Qed.

(** The callback of the dispatch loop, [tw.addOrRun], is one that [Flush]
    can run. *)
Lemma addOrRun_ok fuel b :
  callback_ok b (fun t tw => addOrRun fuel tw t).
Proof.
  intros t tw w tw' w' bk tm Hinv Hb Hmu Ht Hfree.
  unfold addOrRun.
  intros ([tw1 placed] & w1 & Hadd & Hrest)%bind_inv.
  destruct (add_heap t tm fuel tw w _ w1 Hinv Ht Hfree Hadd) as [Hinv1 Hb1].
  specialize (Hb1 b bk Hb Hmu). destruct placed.
  - by injection Hrest as _ <-.
  - injection Hrest as _ <-. split; [|done].
    by eapply heap_inv_frame; [..|exact Hinv1].
Qed.

(** One turn of the dispatch loop keeps the invariant. *)
Lemma dispatch_preserves fuel tw b tw' w w' :
  heap_inv w → dispatch fuel tw b w = Ok (tw', w') → heap_inv w'.
Proof.
  intros Hinv. unfold dispatch, Expiration.
  intros (e & w1 & (bk & ? & [-> _]%load_bucket_inv & [= _ <-])%bind_inv
          & Hflush)%bind_inv.
  eapply Flush_preserves; [apply addOrRun_ok|exact Hinv|exact Hflush].
Qed.

(** C8. The heap with no bucket and no timer satisfies the invariant;
    [b.Add(t)] on a timer without owner links the timer into the list of [b]
    and sets its back-reference to [b]; and every operation [Add], [remove],
    [Flush] and [Stop] that returns leaves a heap in which, for every timer
    and bucket, the back-reference of the timer is the bucket if and only if
    the timer is an element of the list of the bucket. *)
Theorem backref_invariant :
  heap_inv empty_world
  ∧ (∀ b t bk tm w,
       heap_inv w → w_buckets w !! b = Some bk → mu bk = false →
       w_timers w !! t = Some tm → t_bucket tm = None →
       ∃ w' tm', Add b t w = Ok (tt, w')
                 ∧ w_timers w' !! t = Some tm'
                 ∧ t_bucket tm' = Some b ∧ member t b w')
  ∧ (∀ w w', heap_inv w → bucket_step w w' →
             heap_inv w' ∧ backref_iff_member w').
Proof.
  split; [apply heap_inv_empty|]. split.
  - intros b t bk tm w Hinv Hb Hmu Ht Hfree.
    eexists _, _. split; [by apply Add_Ok|]. split; [apply lookup_insert_eq|].
    split; [done|]. eexists _, _. split; [apply lookup_insert_eq|].
    cbn. apply elem_of_app. right. by apply list_elem_of_singleton.
  - intros w w' Hinv Hstep.
    assert (heap_inv w'); [|split; [done|by apply heap_inv_backref]].
    destruct Hstep as [b t tm w w' Ht Hfree Hrun|b t r w w' Hrun
                      |X fuel b reinsert x x' w w' Hcb Hrun|fuel t r w w' Hrun].
    + by eapply Add_preserves.
    + by eapply remove_preserves.
    + by eapply Flush_preserves.
    + by eapply Stop_preserves.
Qed.

Lemma backref_invariant_witness :
  (∃ w' tm', Add 0%nat 1%nat world_one = Ok (tt, w')
             ∧ w_timers w' !! 1%nat = Some tm'
             ∧ t_bucket tm' = Some 0%nat ∧ member 1%nat 0%nat w')
  ∧ heap_inv world_held ∧ backref_iff_member world_held.
Proof.
  destruct backref_invariant as (_ & Hadd & Hstep). split.
  - apply (Hadd 0%nat 1%nat (Bucket (-1) false [(0%nat, 0%nat)])
             (Timer 1012 None None) world_one);
      [apply world_one_inv|reflexivity|reflexivity|reflexivity|reflexivity].
  - apply (Hstep world_one world_held); [apply world_one_inv|].
    apply (step_Add 0%nat 1%nat (Timer 1012 None None));
      [reflexivity|reflexivity|apply world_held_run].
Defined.

(** [Add] on a timer that another bucket holds breaks the invariant: the
    timer stays in the list of the first bucket while its back-reference is
    the second. *)
Example Add_of_owned_timer :
  ∃ w', Add 1%nat 0%nat (with_buckets <[1%nat := newBucket]> world_one)
        = Ok (tt, w')
        ∧ member 0%nat 0%nat w'
        ∧ w_timers w' !! 0%nat = Some (Timer 1010 (Some 1%nat) (Some 1%nat)).
Proof.
  eexists. split; [reflexivity|]. split; [|reflexivity].
  exists (Bucket (-1) false [(0%nat, 0%nat)]), 0%nat. split; [reflexivity|].
  by apply list_elem_of_singleton.
Qed.

(** *** A timer that was not placed *)

Lemma newTimeWheel_inv tk sz c tw w w' :
  newTimeWheel tk sz c w = Ok (tw, w') → buckets_extended w w'.
Proof.
  destruct (make_panics sz) eqn:Hmk.
  - unfold newTimeWheel. by rewrite Hmk.
  - apply make_panics_false in Hmk.
    destruct (newTimeWheel_Ok tk sz c w Hmk) as (bs & w1 & -> & _ & Hext & _).
    by intros [= _ <-].
Qed.

(** When [add] returns false, all it may have done to the heap is to
    allocate the buckets of new overflow levels. *)
Lemma add_false_heap t fuel : ∀ tw w tw' w',
  add fuel tw t w = Ok ((tw', false), w') → buckets_extended w w'.
Proof.
  induction fuel as [|fuel IH]; intros tw w tw' w'; [discriminate|].
  rewrite add_unfold.
  intros (tm & ? & [-> Ht]%load_timer_inv & Hrest)%bind_inv.
  destruct (expiration tm <? add64 (currentTime tw) (tick tw)).
  { injection Hrest as _ <-. apply buckets_extended_refl. }
  destruct (expiration tm <? add64 (currentTime tw) (interval tw)).
  { destruct (tick tw =? 0); [discriminate|].
    destruct (size tw =? 0); [discriminate|].
    destruct (index _ _); [|discriminate].
    apply bind_inv in Hrest
      as (? & ? & _ & (? & ? & _ & (? & ? & _ & Hret)%bind_inv)%bind_inv).
    discriminate. }
  apply bind_inv in Hrest
    as (ov & w1 & Hov & ([ov' placed] & w2 & Hrec & [= _ -> <-])%bind_inv).
  eapply buckets_extended_trans; [|by eapply IH].
  destruct (overflowWheel tw).
  - injection Hov as _ <-. apply buckets_extended_refl.
  - by eapply newTimeWheel_inv.
Qed.

(** C3. On a heap that satisfies the invariant, [t.Stop()] returns, and
    returns true exactly when the timer has an owning bucket at the call.
    Afterwards the timer is in the list of no bucket it was owned by and its
    back-reference is nil; a second call returns false and changes nothing;
    and the call returns false on a timer that [add] did not place, so that
    [addOrRun] started its task, be it at scheduling or at the flush of its
    bucket. *)
Theorem Stop_spec (fuel : nat) (t : timer_ref) (tm : timer) (w : World) :
  heap_inv w → w_timers w !! t = Some tm →
  ∃ stopped w',
    Stop (S fuel) t w = Ok (stopped, w')
    ∧ (stopped = true ↔ is_Some (t_bucket tm))
    ∧ (∀ b, t_bucket tm = Some b → ¬ member t b w')
    ∧ (∃ tm', w_timers w' !! t = Some tm' ∧ t_bucket tm' = None)
    ∧ (∀ n, Stop (S n) t w' = Ok (false, w'))
    ∧ (∀ n tw tw' w1,
         t_bucket tm = None → add n tw t w = Ok ((tw', false), w1) →
         ∃ w2, addOrRun n tw t w = Ok (tw', w2)
               ∧ spawned w2 = spawned w1 ++ [t]
               ∧ ∀ k, Stop (S k) t w2 = Ok (false, w2)).
Proof.
  intros Hinv Ht. destruct (t_bucket tm) as [b|] eqn:Hown.
  - destruct Hinv as (Hl & Ho & _).
    destruct (Ho t tm Ht b Hown) as (bk & e & Hb & He & Hin).
    exists true, (remove_world b t bk tm e w).
    split; [by apply Stop_owned|]. split; [by split|].
    split; [|split; [|split; [|done]]].
    + intros b0 [= <-] (bk' & e' & Hb' & Hin'). cbn in Hb'.
      rewrite lookup_insert_eq in Hb'. injection Hb' as <-. cbn in Hin'.
      apply elem_of_list_remove in Hin' as [Hne Hin']. cbn in Hne.
      destruct (Hl b bk Hb) as [_ Hlk].
      destruct (Hlk e' t Hin') as (_ & tm' & ? & _ & ?). congruence.
    + eexists. split; [cbn; apply lookup_insert_eq|done].
    + intros n. unfold Stop.
      eapply stop_loop_free; [cbn; apply lookup_insert_eq|done].
  - exists false, w. unfold Stop.
    split; [by eapply stop_loop_free|].
    split; [split; [done|by intros [? ?]]|].
    split; [done|]. split; [eauto|].
    split; [intros n; by eapply stop_loop_free|].
    intros n tw tw' w1 _ Hadd. unfold addOrRun. rewrite (bind_Ok _ _ _ _ _ Hadd).
    eexists. split; [reflexivity|]. split; [done|].
    intros k. eapply stop_loop_free; [|exact Hown]. cbn.
    apply add_false_heap in Hadd as (_ & -> & _). done.
Qed.

Lemma Stop_spec_witness :
  ∃ stopped w',
    Stop 1 0%nat world_held = Ok (stopped, w')
    ∧ (stopped = true ↔ is_Some (Some 0%nat))
    ∧ (∀ b, Some 0%nat = Some b → ¬ member 0%nat b w')
    ∧ (∃ tm', w_timers w' !! 0%nat = Some tm' ∧ t_bucket tm' = None)
    ∧ (∀ n, Stop (S n) 0%nat w' = Ok (false, w'))
    ∧ (∀ n tw tw' w1,
         Some 0%nat = None →
         add n tw 0%nat world_held = Ok ((tw', false), w1) →
         ∃ w2, addOrRun n tw 0%nat world_held = Ok (tw', w2)
               ∧ spawned w2 = spawned w1 ++ [0%nat]
               ∧ ∀ k, Stop (S k) 0%nat w2 = Ok (false, w2)).
Proof.
  apply (Stop_spec 0 0%nat (Timer 1010 (Some 0%nat) (Some 0%nat)) world_held);
    [apply world_held_inv|reflexivity].
Defined.

Example Stop_twice :
  ∃ w', Stop 1 0%nat world_held = Ok (true, w')
        ∧ Stop 1 0%nat w' = Ok (false, w')
        ∧ w_buckets w' !! 0%nat = Some (Bucket (-1) false [(1%nat, 1%nat)]).
Proof. eexists. repeat split; reflexivity. Qed.

(** A timer that is due when it is scheduled: its task is started, it is in
    no bucket, and [Stop] returns false. *)
Example Stop_after_immediate_run :
  ∃ tw' t w',
    AfterFunc 1 wheel_5_12 1003 world_5_12 = Ok ((tw', t), w')
    ∧ spawned w' = [t]
    ∧ Stop 1 t w' = Ok (false, w').
Proof. eexists _, _, _. repeat split; reflexivity. Qed.

(** * Further properties of the code *)

(** ** truncate on all of [int64] *)


Lemma rem64_id x m : in_int64 x → 0 < m → rem64 x m = Z.rem x m.
Proof.
  intros Hx Hm. apply wrap64_id. unfold in_int64, min_int64, max_int64 in *.
  destruct (Z.le_gt_cases 0 x).
  - pose proof (Z.rem_bound_pos x m ltac:(lia) Hm).
    pose proof (Z.rem_le x m ltac:(lia) Hm). lia.
  - pose proof (Z.rem_opp_l x m ltac:(lia)).
    pose proof (Z.rem_bound_pos (- x) m ltac:(lia) Hm).
    pose proof (Z.rem_le (- x) m ltac:(lia) Hm). lia.
Qed.

Lemma truncate_quot x m :
  in_int64 x → 0 < m → truncate x m = m * (x `quot` m).
Proof.
  intros Hx Hm. unfold truncate. destruct (Z.leb_spec m 0); [lia|].
  rewrite rem64_id by done. unfold sub64.
  pose proof (Z.quot_rem' x m).
  rewrite wrap64_id; [lia|]. unfold in_int64, min_int64, max_int64 in *.
  destruct (Z.le_gt_cases 0 x).
  - pose proof (Z.rem_bound_pos x m ltac:(lia) Hm).
    pose proof (Z.rem_le x m ltac:(lia) Hm). lia.
  - pose proof (Z.rem_opp_l x m ltac:(lia)).
    pose proof (Z.rem_bound_pos (- x) m ltac:(lia) Hm).
    pose proof (Z.rem_le (- x) m ltac:(lia) Hm). lia.
Qed.

(** ** The levels of a wheel *)

Lemma clocks_unfold tw :
  clocks tw
  = currentTime tw
    :: match overflowWheel tw with Some ov => clocks ov | None => [] end.
Proof. by destruct tw. Qed.

Lemma levels_unfold tw :
  levels tw
  = (tick tw, size tw, interval tw, buckets tw)
    :: match overflowWheel tw with Some ov => levels ov | None => [] end.
Proof. by destruct tw. Qed.

(** *** advanceClock on the whole chain *)

Lemma advanceClock_chain : ∀ tw e,
  wf_wheel tw → 0 <= e → 2 * e <= max_int64 →
  levels (advanceClock tw e) = levels tw
  ∧ Forall2 Z.le (clocks tw) (clocks (advanceClock tw e)).
Proof.
  induction tw as [tw IH] using wheel_ind. intros e Hwf He Hmax.
  pose proof Hwf as (Htick & Hsize & Hiv & Hcur & Hlen & Hov)%wf_wheel_unfold.
  rewrite advanceClock_unfold.
  rewrite add64_id by (unfold in_int64, min_int64, max_int64 in *; lia).
  destruct (Z.leb_spec (currentTime tw + tick tw) e) as [Hadv|Hkeep].
  2:{ split; [done|]. apply Forall2_same_length_lookup_2; [done|].
      intros i x y Hx Hy. assert (x = y) by congruence. lia. }
  pose proof (truncate_bounds e (tick tw) Htick He ltac:(lia)) as [Hb1 Hb2].
  rewrite (levels_unfold (set_clock _ _ _)), (clocks_unfold (set_clock _ _ _)).
  rewrite (levels_unfold tw), (clocks_unfold tw).
  cbn [set_clock tick size interval currentTime buckets overflowWheel].
  destruct (overflowWheel tw) as [ov|] eqn:Hovw.
  - destruct Hov as (Htov & Hsov & Hcov & Hwfov).
    destruct (IH ov eq_refl (truncate e (tick tw)) Hwfov ltac:(lia) ltac:(lia))
      as [Hl Hc].
    split; [by rewrite Hl|]. constructor; [lia|done].
  - split; [done|]. constructor; [lia|constructor].
Qed.

(** *** New *)

Lemma quo64_Millisecond tick0 :
  in_int64 tick0 → Millisecond <= tick0 →
  quo64 tick0 Millisecond = tick0 `quot` Millisecond
  ∧ 0 < tick0 `quot` Millisecond.
Proof.
  intros Hrange Hms. unfold Millisecond in *.
  pose proof (Z.quot_le_lower_bound tick0 1000000 1 ltac:(lia) ltac:(lia)).
  pose proof (Z.quot_le_upper_bound tick0 1000000 tick0 ltac:(lia) ltac:(lia)).
  split; [|lia]. apply wrap64_id.
  unfold in_int64, min_int64, max_int64 in *. lia.
Qed.

Lemma make_buckets_seq n : ∀ w,
  ∃ w', make_buckets n w = Ok (seq (next_bucket w) n, w').
Proof.
  induction n as [|n IH]; intros w; [by eexists|].
  cbn [make_buckets]. unfold bind, fresh_bucket, store_bucket, ret.
  match goal with |- context [make_buckets n ?w1] =>
    destruct (IH w1) as (w' & Hrun) end.
  rewrite Hrun. by eexists.
Qed.

(** *** What add does to the heap and to the levels *)

Lemma world_5_12_inv : heap_inv world_5_12.
Proof.
  split; [|split].
  - intros b bk Hbk. assert (bk = newBucket) as ->.
    { apply elem_of_list_to_map_2, list_elem_of_fmap in Hbk
        as (? & [= _ ->] & _). done. }
    split; [apply NoDup_nil_2|]. by intros e t ?%elem_of_nil.
  - cbn. apply map_Forall_singleton. by intros b.
  - intros b bk Hbk.
    apply elem_of_list_to_map_2, list_elem_of_fmap in Hbk
      as (b' & [= -> _] & Hin%elem_of_seq). cbn. lia.
Qed.

Lemma overflow_level_inv tw ov w w1 :
  overflow_level tw w = Ok (ov, w1) →
  buckets_extended w w1
  ∧ match overflowWheel tw with
    | Some ov0 => ov = ov0
    | None => overflowWheel ov = None
    end.
Proof.
  unfold overflow_level. destruct (overflowWheel tw) as [ov0|].
  - intros [= <- <-]. split; [apply buckets_extended_refl|done].
  - intros Hrun. split; [by eapply newTimeWheel_inv|].
    revert Hrun. unfold newTimeWheel. destruct (make_panics (size tw)); [done|].
    by intros (bs & w' & _ & [= <- _])%bind_inv.
Qed.

Lemma add_levels t fuel : ∀ tw w tw' r w',
  add fuel tw t w = Ok ((tw', r), w') →
  levels tw `prefix_of` levels tw' ∧ clocks tw `prefix_of` clocks tw'.
Proof.
  induction fuel as [|fuel IH]; intros tw w tw' r w'; [discriminate|].
  rewrite add_unfold.
  intros (tm & ? & _ & Hrest)%bind_inv.
  destruct (expiration tm <? add64 (currentTime tw) (tick tw)).
  { by injection Hrest as <- _ _. }
  destruct (expiration tm <? add64 (currentTime tw) (interval tw)).
  - destruct (tick tw =? 0); [discriminate|].
    destruct (size tw =? 0); [discriminate|].
    destruct (index _ _); [|discriminate].
    apply bind_inv in Hrest
      as (? & ? & _ & (? & ? & _ & (? & ? & _ & Hret)%bind_inv)%bind_inv).
    by injection Hret as <- _ _.
  - apply bind_inv in Hrest
      as (ov & w1 & Hov & ([ov' placed] & w2 & Hrec & [= <- _ _])%bind_inv).
    apply overflow_level_inv in Hov as [_ Hov].
    destruct (IH _ _ _ _ _ Hrec) as [Hl Hc].
    rewrite (levels_unfold (set_clock _ _ _)), (clocks_unfold (set_clock _ _ _)).
    rewrite (levels_unfold tw), (clocks_unfold tw).
    cbn [set_clock tick size interval currentTime buckets overflowWheel].
    destruct (overflowWheel tw) as [ov0|].
    + subst ov0. split; by apply prefix_cons.
    + split; apply prefix_cons, prefix_nil.
Qed.

(** Where the timer and the delay queue are after [add] has returned: the
    level that took the timer, the tests that it passed there, and the
    bucket. *)
Lemma add_outcome t fuel : ∀ tw w tw' placed w',
  add fuel tw t w = Ok ((tw', placed), w') →
  spawned w' = spawned w ∧ next_timer w' = next_timer w
  ∧ ∃ tm, w_timers w !! t = Some tm
    ∧ if placed : bool then
        ∃ k lv b el bk',
          level k tw' = Some lv
          ∧ add64 (currentTime lv) (tick lv) <= expiration tm
            < add64 (currentTime lv) (interval lv)
          ∧ index (buckets lv)
              (rem64 (quo64 (expiration tm) (tick lv)) (size lv)) = Some b
          ∧ w_timers w' = <[t := Timer (expiration tm) (Some b) (Some el)]>
                            (w_timers w)
          ∧ w_buckets w' !! b = Some bk'
          ∧ b_expiration bk'
            = mul64 (quo64 (expiration tm) (tick lv)) (tick lv)
          ∧ (el, t) ∈ timers bk'
          ∧ (queue w' = queue w
             ∨ queue w' = queue w ++ [(b, b_expiration bk')])
      else w_timers w' = w_timers w ∧ queue w' = queue w.
Proof.
  induction fuel as [|fuel IH]; intros tw w tw' placed w'; [discriminate|].
  rewrite add_unfold.
  intros (tm & ? & [-> Ht]%load_timer_inv & Hrest)%bind_inv.
  destruct (Z.ltb_spec (expiration tm) (add64 (currentTime tw) (tick tw)))
    as [_|Hlo].
  { injection Hrest as <- <- <-. split; [done|]. split; [done|].
    by exists tm. }
  destruct (Z.ltb_spec (expiration tm) (add64 (currentTime tw) (interval tw)))
    as [Hin|_].
  - destruct (tick tw =? 0); [discriminate|].
    destruct (size tw =? 0); [discriminate|].
    destruct (index _ _) as [b|] eqn:Hidx; [|discriminate].
    apply bind_inv in Hrest
      as ([] & w1 & (bk & tm' & Hb & Hmu & Ht' & ->)%Add_inv
          & (changed & w2 & (bk2 & Hb2 & ->)%SetExpiration_inv
             & ([] & w3 & Hoffer & [= <- <- <-])%bind_inv)%bind_inv).
    assert (tm' = tm) as -> by congruence.
    cbn in Hb2. rewrite lookup_insert_eq in Hb2. injection Hb2 as <-.
    cbn [mu timers b_expiration] in Hoffer.
    assert (Hq : spawned w3 = spawned w ∧ next_timer w3 = next_timer w
                 ∧ w_timers w3 = <[t := Timer (expiration tm) (Some b)
                                          (Some (next_elem w))]> (w_timers w)
                 ∧ w_buckets w3 !! b
                   = Some (Bucket
                             (mul64 (quo64 (expiration tm) (tick tw)) (tick tw))
                             false (timers bk ++ [(next_elem w, t)]))
                 ∧ (queue w3 = queue w
                    ∨ queue w3
                      = queue w
                        ++ [(b, mul64 (quo64 (expiration tm) (tick tw))
                                  (tick tw))])).
    { destruct changed.
      - revert Hoffer. unfold Expiration, Offer. unfold_m. cbn.
        rewrite lookup_insert_eq. intros [= <-]. cbn.
        rewrite lookup_insert_eq. repeat split; auto.
      - injection Hoffer as <-. cbn. rewrite lookup_insert_eq.
        repeat split; auto. }
    destruct Hq as (Hs & Hn & Htm & Hbk & Hqueue).
    split; [done|]. split; [done|]. exists tm. split; [done|].
    eexists 0%nat, tw, b, (next_elem w), _. split; [done|].
    split; [done|]. split; [done|]. split; [done|].
    split; [exact Hbk|]. split; [done|]. split; [|exact Hqueue].
    cbn. apply elem_of_app. right. by apply list_elem_of_singleton.
  - apply bind_inv in Hrest
      as (ov & w1 & Hov & ([ov' placed'] & w2 & Hrec & [= <- <- <-])%bind_inv).
    apply overflow_level_inv in Hov as [(_ & Ht1 & Hn1 & _ & Hq1 & Hs1) _].
    destruct (IH _ _ _ _ _ Hrec) as (Hs & Hn & tm2 & Ht2 & Hout).
    rewrite Ht1 in Ht2. assert (tm2 = tm) as -> by congruence.
    split; [congruence|]. split; [congruence|]. exists tm. split; [done|].
    destruct placed'.
    + destruct Hout
        as (k & lv & b & e & bk' & Hlv & Htest & Hidx & Htm & Hbk & Hex
            & Hmem & Hqueue).
      exists (S k), lv, b, e, bk'. split; [done|].
      rewrite <- Ht1, <- Hq1. done.
    + destruct Hout as [Htm Hqueue]. split; congruence.
Qed.

(** The arithmetic of the slot on the level that has taken a timer. *)
Lemma slot_arith lv tm :
  wf_wheel lv → add64 (currentTime lv) (tick lv) <= expiration tm →
  expiration tm <= max_int64 →
  mul64 (quo64 (expiration tm) (tick lv)) (tick lv)
  = truncate (expiration tm) (tick lv)
  ∧ 0 <= truncate (expiration tm) (tick lv) <= expiration tm
  ∧ expiration tm < truncate (expiration tm) (tick lv) + tick lv.
Proof.
  intros (Htick & _ & _ & Hcur & _)%wf_wheel_unfold Hlo Hmax.
  rewrite add64_id in Hlo
    by (unfold in_int64, min_int64, max_int64 in *; lia).
  rewrite (mul64_slot lv tm Htick ltac:(lia) Hlo Hmax).
  destruct (slot_start lv tm Htick ltac:(lia) Hlo Hmax) as [-> Hs].
  pose proof (truncate_bounds (expiration tm) (tick lv) Htick ltac:(lia) Hmax).
  split; [done|]. lia.
Qed.

Lemma index_elem_of {A} (l : list A) i x : index l i = Some x → x ∈ l.
Proof.
  unfold index. destruct (i <? 0); [done|]. apply list_elem_of_lookup_2.
Qed.

(** *** AfterFunc *)

Lemma buckets_ready_same tw w w' :
  w_buckets w' = w_buckets w → buckets_ready tw w → buckets_ready tw w'.
Proof.
  intros Heq. induction tw as [tw IH] using wheel_ind.
  rewrite !buckets_ready_unfold, Heq. intros [Hhere Hov]. split; [done|].
  destruct (overflowWheel tw) as [ov|]; [|done]. by apply IH.
Qed.

(** The heap after the allocation of a timer by [AfterFunc]. *)
Lemma new_timer_Ok e w :
  (t ← fresh_timer; store_timer t (Timer e None None);; ret t) w
  = Ok (next_timer w,
        MkWorld (<[next_timer w := Timer e None None]> (w_timers w))
          (w_buckets w) (S (next_timer w)) (next_elem w) (next_bucket w)
          (queue w) (spawned w)).
Proof. reflexivity. Qed.

Lemma new_timer_heap e w :
  heap_inv w → w_timers w !! next_timer w = None →
  heap_inv (MkWorld (<[next_timer w := Timer e None None]> (w_timers w))
              (w_buckets w) (S (next_timer w)) (next_elem w) (next_bucket w)
              (queue w) (spawned w)).
Proof.
  intros (Hl & Ho & Ha) Hfresh. split; [|split]; cbn; [| |done].
  - intros b bk Hbk. destruct (Hl b bk Hbk) as [Hnd Hlk]. split; [done|].
    intros el t Hin. destruct (Hlk el t Hin) as (Hlt & tm & Ht & ? & ?).
    split; [done|]. exists tm. cbn. rewrite lookup_insert_ne; [done|].
    intros <-. congruence.
  - apply map_Forall_insert_2; [by intros b|].
    intros t tm Ht b Hown. by apply (Ho t tm Ht b Hown).
Qed.

(** *** bucket.remove, bucket.Add and timer.Stop *)

Lemma list_remove_fresh e (l : list (elem_ref * timer_ref)) :
  e ∉ l.*1 → list_remove e l = l.
Proof.
  unfold list_remove. induction l as [|p l IH]; [done|].
  rewrite fmap_cons, filter_cons. intros [Hne Hnot]%not_elem_of_cons.
  destruct (decide (p.1 ≠ e)) as [|Heq]; [|by destruct Heq].
  f_equal. by apply IH.
Qed.

Lemma list_remove_middle e t (l1 l2 : list (elem_ref * timer_ref)) :
  NoDup (l1 ++ (e, t) :: l2).*1 →
  list_remove e (l1 ++ (e, t) :: l2) = l1 ++ l2.
Proof.
  rewrite fmap_app, fmap_cons. cbn [fst].
  intros (Hn1 & Hdisj & [Hnot Hn2]%NoDup_cons)%NoDup_app.
  assert (H1 : e ∉ l1.*1) by (intros Hin; apply (Hdisj e Hin); left).
  unfold list_remove. rewrite filter_app, filter_cons.
  destruct (decide ((e, t).1 ≠ e)) as [Hne|_]; [done|].
  fold (list_remove e l1). fold (list_remove e l2).
  by rewrite !list_remove_fresh.
Qed.

(** *** Aligned clocks *)

Lemma aligned_unfold tw :
  aligned tw
  ↔ interval tw = tick tw * size tw
    ∧ (tick tw | currentTime tw)
    ∧ match overflowWheel tw with
      | None => True
      | Some ov =>
          currentTime ov = truncate (currentTime tw) (tick ov) ∧ aligned ov
      end.
Proof. by destruct tw. Qed.

(** An instant between a multiple of [m] and the next one truncates to that
    multiple. *)
Lemma truncate_within x m c :
  0 < m → 0 <= c → (m | c) → c <= x < c + m → x <= max_int64 →
  truncate x m = c.
Proof.
  intros Hm Hc [q ->] Hx Hmax.
  rewrite truncate_nonneg by lia.
  rewrite (Z.div_unique x m q (x - q * m)) by lia. lia.
Qed.

Lemma advanceClock_aligned : ∀ tw e,
  wf_wheel tw → aligned tw → 0 <= e → 2 * e <= max_int64 →
  aligned (advanceClock tw e).
Proof.
  induction tw as [tw IH] using wheel_ind. intros e Hwf Hal He Hmax.
  pose proof Hwf as (Htick & Hsize & _ & Hcur & _ & Hov)%wf_wheel_unfold.
  pose proof Hal as (Hiv & Hdiv & Halov)%aligned_unfold.
  rewrite advanceClock_unfold.
  rewrite add64_id by (unfold in_int64, min_int64, max_int64 in *; lia).
  destruct (Z.leb_spec (currentTime tw + tick tw) e) as [Hadv|Hno]; [|done].
  pose proof (truncate_bounds e (tick tw) Htick He ltac:(lia)) as [Hb1 Hb2].
  apply aligned_unfold.
  cbn [set_clock tick size interval currentTime buckets overflowWheel].
  split; [done|]. split; [apply truncate_multiple; lia|].
  destruct (overflowWheel tw) as [ov|] eqn:Heq; [|done].
  destruct Hov as (Htov & Hsov & Hcov & Hwfov).
  destruct Halov as [Hc1 Halov].
  pose proof Hwfov as (Htick1 & _ & _ & Hcur1 & _)%wf_wheel_unfold.
  pose proof Halov as (_ & Hdiv1 & _)%aligned_unfold.
  destruct (advanceClock_wf ov (truncate e (tick tw)) Hwfov ltac:(lia)
              ltac:(lia)) as (_ & Ht' & _ & _).
  split; [|apply IH; [done..|lia|lia]].
  rewrite Ht'. rewrite advanceClock_unfold.
  rewrite add64_id by (unfold in_int64, min_int64, max_int64 in *; lia).
  destruct (Z.leb_spec (currentTime ov + tick ov) (truncate e (tick tw)))
    as [Hadv1|Hno1]; [done|].
  symmetry. apply truncate_within; try done; lia.
Qed.

Lemma add_aligned t tm C fuel : ∀ tw w tw' r w',
  wf_wheel tw → aligned tw → w_timers w !! t = Some tm →
  currentTime tw <= C → C + expiration tm * size tw <= max_int64 →
  add fuel tw t w = Ok ((tw', r), w') → aligned tw'.
Proof.
  induction fuel as [|fuel IH]; intros tw w tw' r w' Hwf Hal Ht HC Hbound;
    [discriminate|].
  pose proof Hwf as (Htick & Hsize & Hiv0 & Hcur & Hlen & Hov)%wf_wheel_unfold.
  destruct (Z.lt_ge_cases (expiration tm) (currentTime tw + tick tw))
    as [Hdue|Hlo].
  { rewrite add_unfold, (bind_Ok _ _ _ _ _ (load_timer_Ok _ _ _ Ht)).
    rewrite add64_id by (unfold in_int64, min_int64, max_int64 in *; lia).
    destruct (Z.ltb_spec (expiration tm) (currentTime tw + tick tw)); [|lia].
    by intros [= <- _ _]. }
  destruct (level_arith tm C tw Hwf HC Hbound Hlo)
    as (He & Hadd1 & Hiv & Hadd2 & Hmax).
  destruct (Z.lt_ge_cases (expiration tm) (currentTime tw + interval tw))
    as [Hin|Hout].
  - rewrite add_unfold, (bind_Ok _ _ _ _ _ (load_timer_Ok _ _ _ Ht)).
    rewrite Hadd1, Hadd2.
    destruct (Z.ltb_spec (expiration tm) (currentTime tw + tick tw)); [lia|].
    destruct (Z.ltb_spec (expiration tm) (currentTime tw + interval tw));
      [|lia].
    destruct (tick tw =? 0); [discriminate|].
    destruct (size tw =? 0); [discriminate|].
    destruct (index _ _); [|discriminate].
    intros (? & ? & _ & (? & ? & _ & (? & ? & _ & Hret)%bind_inv)%bind_inv)%bind_inv.
    by injection Hret as <- _ _.
  - rewrite (add_delegate fuel tw t tm w Ht) by lia.
    destruct (overflow_level_Ok tw w Hwf ltac:(nia) ltac:(lia))
      as (ov & w1 & Hrun & Hwfov & Htov & Hsov & Hcov & Hext & _).
    rewrite (bind_Ok _ _ _ _ _ Hrun).
    intros ([ov' placed] & w2 & Hrec & [= <- _ _])%bind_inv.
    assert (Ht1 : w_timers w1 !! t = Some tm).
    { destruct Hext as (_ & -> & _). done. }
    pose proof Hal as (_ & Hdiv & Halov)%aligned_unfold.
    assert (Hov1 : currentTime ov = truncate (currentTime tw) (tick ov)
                   ∧ aligned ov).
    { revert Hrun. unfold overflow_level.
      destruct (overflowWheel tw) as [ov0|]; [by intros [= <- _]|].
      unfold newTimeWheel. destruct (make_panics (size tw)); [done|].
      intros (bs & w0 & _ & [= <- _])%bind_inv. split; [done|].
      apply aligned_unfold.
      cbn [tick size interval currentTime buckets overflowWheel].
      split; [|split; [apply truncate_multiple; lia|done]].
      apply mul64_id. unfold in_int64, min_int64, max_int64 in *. nia. }
    destruct Hov1 as [Hc1 Hal1].
    pose proof (IH ov w1 ov' placed w2 Hwfov Hal1 Ht1 ltac:(lia)
                  ltac:(by rewrite Hsov) Hrec) as Hal'.
    destruct (add_fields _ _ _ _ _ _ _ Hrec) as (Ht' & Hs' & _ & Hc' & _).
    apply aligned_unfold.
    cbn [set_clock tick size interval currentTime buckets overflowWheel].
    split; [done|]. split; [done|]. split; [congruence|done].
Qed.

Lemma newTimeWheel_aligned tickMs wheelSize startMs tw w w' :
  0 < tickMs → 0 < wheelSize → 0 <= startMs → startMs <= max_int64 →
  tickMs * wheelSize <= max_int64 →
  newTimeWheel tickMs wheelSize startMs w = Ok (tw, w') → aligned tw.
Proof.
  intros Htick Hsize Hstart Hmax Hiv. unfold newTimeWheel.
  destruct (make_panics wheelSize); [done|].
  intros (bs & w0 & _ & [= <- _])%bind_inv. apply aligned_unfold.
  cbn [tick size interval currentTime buckets overflowWheel].
  split; [|split; [apply truncate_multiple; lia|done]].
  apply mul64_id. unfold in_int64, min_int64, max_int64 in *. nia.
Qed.

(** *** Timers that move down a level *)

Lemma set_clock_id tw ov :
  overflowWheel tw = Some ov → set_clock tw (currentTime tw) (Some ov) = tw.
Proof. destruct tw. cbn. by intros ->. Qed.

Lemma ready_below_update k b b' : ∀ tw w w',
  (∀ b0, b0 ≠ b' → w_buckets w' !! b0 = w_buckets w !! b0) →
  (b' = b ∨ ∃ bk, w_buckets w' !! b' = Some bk ∧ mu bk = false) →
  ready_below k b tw w → ready_below k b tw w'.
Proof.
  induction k as [|k IH]; intros tw w w' Hsame Hnew; [done|].
  cbn [ready_below]. intros [Hhere Hov]. split.
  - intros b0 Hb0. destruct (Hhere b0 Hb0) as (Hne & bk & Hbk & Hmu).
    split; [done|]. destruct (decide (b0 = b')) as [->|Hne'].
    + by destruct Hnew as [->|?].
    + exists bk. by rewrite Hsame.
  - destruct (overflowWheel tw) as [ov|]; [|done]. by eapply IH.
Qed.

Section Cascade.

Variables (b : bucket_ref) (t : timer_ref) (tm : timer) (C : Z).

(** A timer below the horizon of the first [k] levels is placed in one of
    them, and the wheel is as before. *)
Lemma add_within n : ∀ k tw w,
  wf_wheel tw → ready_below k b tw w → w_timers w !! t = Some tm →
  currentTime tw <= C → C + expiration tm * size tw <= max_int64 →
  currentTime tw + tick tw <= expiration tm →
  within k tw (expiration tm) →
  ∃ j lv b' bk',
    (j < k)%nat ∧ level j tw = Some lv ∧ b' ∈ buckets lv
    ∧ add (k + n) tw t w = Ok ((tw, true), placed_world lv t tm w b' bk')
    ∧ b' ≠ b ∧ w_buckets w !! b' = Some bk' ∧ mu bk' = false.
Proof.
  induction k as [|k IH]; intros tw w Hwf Hready Ht HC Hbound Hlo Hin;
    [done|].
  destruct (level_arith tm C tw Hwf HC Hbound Hlo)
    as (He & Hadd1 & Hiv & Hadd2 & Hmax).
  pose proof Hwf as (Htick & Hsize & _ & Hcur & Hlen & Hov)%wf_wheel_unfold.
  destruct Hready as [Hhere Hrov].
  destruct (Z.lt_ge_cases (expiration tm) (currentTime tw + interval tw))
    as [Hplace|Hout].
  - destruct (add_place tw t tm w Htick (proj1 Hsize) ltac:(lia) Hlen Ht Hlo
                He ltac:(rewrite Hadd2; exact Hplace)
                ltac:(intros b0 Hb0; by destruct (Hhere b0 Hb0)) (k + n))
      as (b' & bk' & Hidx & Hbk' & Hrun).
    assert (Hin' : b' ∈ buckets tw) by (by eapply list_elem_of_lookup_2).
    exists 0%nat, tw, b', bk'. split; [lia|]. split; [done|].
    split; [done|]. split; [done|].
    destruct (Hhere b' Hin') as (Hne & bk0 & Hbk0 & Hmu).
    split; [done|]. split; [done|]. congruence.
  - destruct Hin as [?|Hin]; [lia|].
    destruct (overflowWheel tw) as [ov|] eqn:Heq; [|done].
    destruct Hov as (Htov & Hsov & Hcov & Hwfov).
    destruct (IH ov w Hwfov Hrov Ht ltac:(lia) ltac:(by rewrite Hsov)
                ltac:(lia) Hin)
      as (j & lv & b' & bk' & Hj & Hlv & Hin' & Hrec & Hrest).
    exists (S j), lv, b', bk'. split; [lia|].
    split; [cbn [level]; by rewrite Heq|]. split; [done|]. split; [|done].
    cbn [Nat.add].
    rewrite (add_delegate (k + n) tw t tm w Ht) by lia.
    unfold overflow_level. rewrite Heq. unfold bind at 1. cbn [ret].
    rewrite (bind_Ok _ _ _ _ _ Hrec). cbn [ret].
    by rewrite (set_clock_id tw ov Heq).
Qed.

End Cascade.

Lemma due_same tw w w' t :
  (∀ tm, w_timers w !! t = Some tm →
         ∃ tm', w_timers w' !! t = Some tm' ∧ expiration tm' = expiration tm) →
  (w_timers w !! t = None → w_timers w' !! t = None) →
  due tw w' t = due tw w t.
Proof.
  intros Hsome Hnone. unfold due.
  destruct (w_timers w !! t) as [tm|].
  - destruct (Hsome tm eq_refl) as (tm' & -> & ->). done.
  - by rewrite Hnone.
Qed.

Section Drain.

Variables (b : bucket_ref) (k : nat) (tw : TimeWheel) (H C : Z) (fuel : nat).
Hypothesis tw_wf : wf_wheel tw.
Hypothesis fuel_k : (k <= fuel)%nat.
Hypothesis clock_C : currentTime tw <= C.
Hypothesis bound : C + H * size tw <= max_int64.
Hypothesis reach :
  ∀ e, e < H → currentTime tw + tick tw <= e → within k tw e.

(** The callback of the dispatch loop on one timer of the bucket that is
    flushed. *)
Lemma addOrRun_step t tm w :
  (0 < fuel)%nat → heap_inv w → ready_below k b tw w →
  w_timers w !! t = Some tm → t_bucket tm = None → expiration tm < H →
  ∃ w' tm',
    addOrRun fuel tw t w = Ok (tw, w')
    ∧ heap_inv w' ∧ ready_below k b tw w'
    ∧ w_buckets w' !! b = w_buckets w !! b
    ∧ (∀ t', t' ≠ t → w_timers w' !! t' = w_timers w !! t')
    ∧ w_timers w' !! t = Some tm' ∧ expiration tm' = expiration tm
    ∧ if expiration tm <? currentTime tw + tick tw
      then t_bucket tm' = None ∧ spawned w' = spawned w ++ [t]
      else spawned w' = spawned w
           ∧ ∃ j lv b', (j < k)%nat ∧ level j tw = Some lv ∧ b' ∈ buckets lv
                        ∧ t_bucket tm' = Some b' ∧ b' ≠ b.
Proof.
  intros Hfuel Hinv Hready Ht Hfree Hlt.
  pose proof tw_wf as (Htick & Hsize & _ & Hcur & _)%wf_wheel_unfold.
  destruct (Z.ltb_spec (expiration tm) (currentTime tw + tick tw))
    as [Hdue|Hlo].
  - destruct fuel as [|f]; [lia|].
    assert (Hnow : add (S f) tw t w = Ok ((tw, false), w)).
    { rewrite add_unfold, (bind_Ok _ _ _ _ _ (load_timer_Ok _ _ _ Ht)).
      rewrite add64_id by (unfold in_int64, min_int64, max_int64 in *; lia).
      by destruct (Z.ltb_spec (expiration tm) (currentTime tw + tick tw));
        [|lia]. }
    eexists _, tm. split.
    { unfold addOrRun. rewrite (bind_Ok _ _ _ _ _ Hnow). reflexivity. }
    split; [by eapply heap_inv_frame; [..|exact Hinv]|].
    split; [eapply (ready_below_update k b b); [| |exact Hready]; auto|].
    by cbn.
  - assert (Hb : C + expiration tm * size tw <= max_int64) by nia.
    destruct (add_within b t tm C (fuel - k) k tw w tw_wf Hready Ht clock_C
                Hb Hlo (reach _ Hlt Hlo))
      as (j & lv & b' & bk' & Hj & Hlv & Hin' & Hadd & Hne & Hbk' & Hmu).
    replace (k + (fuel - k))%nat with fuel in Hadd by lia.
    destruct (add_heap t tm fuel tw w _ _ Hinv Ht Hfree Hadd) as [Hinv' _].
    eexists _, _. split.
    { unfold addOrRun. rewrite (bind_Ok _ _ _ _ _ Hadd). reflexivity. }
    split; [done|]. split.
    { eapply (ready_below_update k b b'); [| |exact Hready].
      - intros b0 Hb0. cbn. by rewrite lookup_insert_ne.
      - right. eexists. cbn. by rewrite lookup_insert_eq. }
    split; [cbn; by rewrite lookup_insert_ne|].
    split; [intros t' Hne'; cbn; by rewrite lookup_insert_ne|].
    split; [cbn; by rewrite lookup_insert_eq|].
    split; [done|]. split; [done|]. by exists j, lv, b'.
Qed.

(** The loop of [Flush] with the callback of the dispatch loop. *)
Lemma drain_cascade l : ∀ w ex,
  (length l <= fuel)%nat →
  heap_inv w → w_buckets w !! b = Some (Bucket ex true l) →
  ready_below k b tw w →
  (∀ e t, (e, t) ∈ l →
     ∃ tm, w_timers w !! t = Some tm ∧ expiration tm < H) →
  ∃ w',
    drain b (fun t x => addOrRun fuel x t) l tw w = Ok (tw, w')
    ∧ heap_inv w'
    ∧ w_buckets w' !! b = Some (Bucket ex true [])
    ∧ (∀ t', t' ∉ l.*2 → w_timers w' !! t' = w_timers w !! t')
    ∧ spawned w' = spawned w ++ filter (fun t => due tw w t) l.*2
    ∧ ∀ e t, (e, t) ∈ l →
        ∃ tm tm', w_timers w !! t = Some tm ∧ w_timers w' !! t = Some tm'
          ∧ expiration tm' = expiration tm
          ∧ if due tw w t then t_bucket tm' = None
            else ∃ j lv b',
                   (j < k)%nat ∧ level j tw = Some lv ∧ b' ∈ buckets lv
                   ∧ t_bucket tm' = Some b' ∧ b' ≠ b.
Proof.
  induction l as [|[e t] l IH]; intros w ex Hlen Hinv Hb Hready Hrange.
  { exists w. split; [done|]. split; [done|]. split; [done|].
    split; [done|]. split; [cbn; by rewrite app_nil_r|].
    by intros e t ?%elem_of_nil. }
  pose proof Hinv as (Hlk & _ & _).
  destruct (Hlk b _ Hb) as [Hnd Hel]. cbn [timers] in Hnd, Hel.
  destruct (Hel e t ltac:(left)) as (_ & tm & Ht & Hown & Helem).
  assert (Hnotin : t ∉ l.*2).
  { intros ([e' t'] & Heq & Hin)%list_elem_of_fmap. cbn in Heq. subst t'.
    destruct (Hel e' t ltac:(by right)) as (_ & tm0 & Ht0 & _ & Helem0).
    assert (e' = e) as -> by congruence.
    rewrite fmap_cons in Hnd. apply NoDup_cons in Hnd as [Hnd _].
    apply Hnd. by apply (list_elem_of_fmap_2 fst _ (e, t)). }
  pose proof (remove_Ok b t _ tm e w Ht Hown Helem Hb) as Hrm.
  pose proof (remove_world_inv b t _ tm e w Hinv Ht Hown Helem Hb) as Hinv2.
  set (w2 := remove_world b t (Bucket ex true ((e, t) :: l)) tm e w) in *.
  assert (Hb2 : w_buckets w2 !! b = Some (Bucket ex true l)).
  { unfold w2, remove_world. cbn [w_buckets b_expiration mu timers].
    by rewrite lookup_insert_eq, (list_remove_head e t l Hnd). }
  assert (Ht2 : w_timers w2 !! t = Some (Timer (expiration tm) None None)).
  { unfold w2, remove_world. cbn. by rewrite lookup_insert_eq. }
  assert (Hother2 : ∀ t', t' ≠ t → w_timers w2 !! t' = w_timers w !! t').
  { intros t' Hne. unfold w2, remove_world. cbn. by rewrite lookup_insert_ne. }
  assert (Hready2 : ready_below k b tw w2).
  { eapply (ready_below_update k b b); [| |exact Hready]; [|by left].
    intros b0 Hb0. unfold w2, remove_world. cbn. by rewrite lookup_insert_ne. }
  destruct (Hrange e t ltac:(left)) as (tm0 & Ht0 & Hlt).
  assert (tm0 = tm) as -> by congruence.
  cbn [length] in Hlen.
  destruct (addOrRun_step t _ w2 ltac:(lia) Hinv2 Hready2 Ht2 eq_refl Hlt)
    as (w3 & tm3 & Hrun & Hinv3 & Hready3 & Hb3 & Hother3 & Ht3 & He3 & Hout).
  cbn [expiration] in He3, Hout.
  assert (Hexp : ∀ t' tm', w_timers w !! t' = Some tm' →
            ∃ tm'', w_timers w3 !! t' = Some tm''
                    ∧ expiration tm'' = expiration tm').
  { intros t' tm' Ht'. destruct (decide (t' = t)) as [->|Hne].
    - exists tm3. split; [done|]. congruence.
    - exists tm'. by rewrite Hother3, Hother2. }
  assert (Hdue : ∀ t', due tw w3 t' = due tw w t').
  { intros t'. apply due_same; [apply Hexp|].
    intros Hnone. destruct (decide (t' = t)) as [->|Hne]; [congruence|].
    by rewrite Hother3, Hother2. }
  destruct (IH w3 ex ltac:(lia) Hinv3 ltac:(by rewrite Hb3) Hready3)
    as (w' & Hdrain & Hinv' & Hb' & Hother' & Hsp' & Hout').
  { intros e' t' Hin. destruct (Hrange e' t' ltac:(by right))
      as (tm' & Ht' & Hlt').
    destruct (Hexp t' tm' Ht') as (tm'' & ? & ?). exists tm''.
    split; [done|]. lia. }
  exists w'. split.
  { cbn [drain]. rewrite (bind_Ok _ _ _ _ _ Hrm).
    by rewrite (bind_Ok _ _ _ _ _ Hrun). }
  split; [done|]. split; [done|]. split.
  { intros t' [Hne Hnot]%not_elem_of_cons.
    by rewrite Hother', Hother3, Hother2. }
  assert (Hduet : due tw w t = (expiration tm <? currentTime tw + tick tw)).
  { unfold due. by rewrite Ht. }
  split.
  { rewrite Hsp'. rewrite fmap_cons, filter_cons. cbn [snd].
    rewrite (list_filter_iff _ (fun t0 => due tw w t0))
      by (intros t'; by rewrite Hdue).
    rewrite Hduet. unfold w2, remove_world in Hout. cbn [spawned] in Hout.
    destruct (expiration tm <? currentTime tw + tick tw).
    - destruct Hout as [_ ->].
      destruct (decide (Is_true true)) as [|Hn]; [|by destruct Hn].
      by rewrite <- app_assoc.
    - destruct Hout as [-> _].
      by destruct (decide (Is_true false)). }
  intros e' t' [[= -> ->]|Hin]%elem_of_cons.
  - exists tm, tm3. split; [done|].
    split; [by rewrite Hother'|]. split; [done|].
    rewrite Hduet. destruct (expiration tm <? currentTime tw + tick tw);
      by destruct Hout.
  - destruct (Hout' e' t' Hin) as (tm1 & tm' & Ht1 & Ht' & He' & Hres).
    destruct (Hrange e' t' ltac:(by right)) as (tm0 & Ht0' & _).
    destruct (Hexp t' tm0 Ht0') as (tm1' & Ht1' & He1).
    assert (tm1' = tm1) as -> by congruence.
    exists tm0, tm'. split; [done|]. split; [done|].
    split; [congruence|]. by rewrite <- Hdue.
Qed.

End Drain.

(** *** The clocks of the levels after advanceClock *)

Lemma level_wf k : ∀ tw lk,
  wf_wheel tw → level k tw = Some lk →
  wf_wheel lk ∧ size lk = size tw ∧ currentTime lk <= currentTime tw.
Proof.
  induction k as [|k IH]; intros tw lk Hwf; cbn [level].
  { intros [= <-]. split; [done|]. split; [done|]. lia. }
  pose proof Hwf as (_ & _ & _ & _ & _ & Hov)%wf_wheel_unfold.
  destruct (overflowWheel tw) as [ov|]; [|done].
  destruct Hov as (_ & Hsov & Hcov & Hwfov). intros Hl.
  destruct (IH ov lk Hwfov Hl) as (? & ? & ?).
  split; [done|]. split; [congruence|lia].
Qed.

Lemma level_aligned k : ∀ tw lk,
  aligned tw → level k tw = Some lk → aligned lk.
Proof.
  induction k as [|k IH]; intros tw lk Hal; cbn [level].
  { by intros [= <-]. }
  pose proof Hal as (_ & _ & Hov)%aligned_unfold.
  destruct (overflowWheel tw) as [ov|]; [|done].
  destruct Hov as [_ Halov]. by apply IH.
Qed.

Lemma level_tick_divide k : ∀ tw lk,
  wf_wheel tw → aligned tw → level k tw = Some lk → (tick tw | tick lk).
Proof.
  induction k as [|k IH]; intros tw lk Hwf Hal; cbn [level].
  { by intros [= <-]. }
  pose proof Hwf as (_ & _ & _ & _ & _ & Hov)%wf_wheel_unfold.
  pose proof Hal as (Hiv & _ & Halov)%aligned_unfold.
  destruct (overflowWheel tw) as [ov|]; [|done].
  destruct Hov as (Htov & _ & _ & Hwfov). destruct Halov as [_ Halov].
  intros Hl. etrans; [|by apply (IH ov lk)].
  rewrite Htov, Hiv. apply Z.divide_factor_l.
Qed.

Lemma level_pred k : ∀ tw lk,
  level (S k) tw = Some lk →
  ∃ l, level k tw = Some l ∧ overflowWheel l = Some lk.
Proof.
  induction k as [|k IH]; intros tw lk.
  - cbn. destruct (overflowWheel tw) as [ov|] eqn:Heq; [|done].
    intros [= <-]. by exists tw.
  - change (level (S (S k)) tw)
      with (match overflowWheel tw with
            | Some ov => level (S k) ov
            | None => None
            end).
    cbn [level]. destruct (overflowWheel tw) as [ov|]; [|done].
    apply IH.
Qed.

Lemma within_of_level k : ∀ tw l e,
  level k tw = Some l → e < currentTime l + interval l → within (S k) tw e.
Proof.
  induction k as [|k IH]; intros tw l e.
  - intros [= <-] Hlt. by left.
  - cbn [level]. destruct (overflowWheel tw) as [ov|] eqn:Heq; [|done].
    intros Hl Hlt. right. rewrite Heq. by eapply IH.
Qed.

Lemma truncate_ge x m E :
  0 < m → (m | E) → 0 <= E → E <= x → x <= max_int64 → E <= truncate x m.
Proof.
  intros Hm [q ->] HE Hx Hmax. rewrite truncate_nonneg by lia.
  assert (q <= x / m) by (apply Z.div_le_lower_bound; lia). nia.
Qed.

Lemma multiple_le m c E :
  0 < m → (m | c) → (m | E) → E < c + m → E <= c.
Proof.
  intros Hm [q1 ->] [q2 ->] Hlt.
  assert (q2 < q1 + 1) by (apply (Z.mul_lt_mono_pos_r m); lia).
  apply Z.mul_le_mono_nonneg_r; lia.
Qed.

Lemma aligned_clock_ge E k : ∀ tw lk,
  wf_wheel tw → aligned tw → level k tw = Some lk →
  (tick lk | E) → 0 <= E → E <= currentTime tw → E <= currentTime lk.
Proof.
  induction k as [|k IH]; intros tw lk Hwf Hal; cbn [level].
  { by intros [= <-]. }
  pose proof Hwf as (Htick & _ & _ & Hcur & _ & Hov)%wf_wheel_unfold.
  pose proof Hal as (_ & _ & Halov)%aligned_unfold.
  destruct (overflowWheel tw) as [ov|]; [|done].
  destruct Hov as (_ & _ & _ & Hwfov). destruct Halov as [Hc Halov].
  intros Hl Hdiv HE Hle.
  pose proof Hwfov as (Htick1 & _)%wf_wheel_unfold.
  apply (IH ov lk); try done. rewrite Hc.
  apply truncate_ge; try done; [|lia].
  etrans; [by apply (level_tick_divide k ov lk)|done].
Qed.

Lemma advanceClock_level E k : ∀ tw lk,
  wf_wheel tw → aligned tw → level k tw = Some lk →
  (tick lk | E) → 0 <= E → 2 * E <= max_int64 →
  ∃ lk', level k (advanceClock tw E) = Some lk'
         ∧ E <= currentTime lk'
         ∧ tick lk' = tick lk ∧ interval lk' = interval lk.
Proof.
  induction k as [|k IH]; intros tw lk Hwf Hal Hl Hdiv HE Hmax.
  all: pose proof Hwf as (Htick & _ & _ & Hcur & _ & Hov)%wf_wheel_unfold.
  all: pose proof Hal as (_ & Hdivc & Halov)%aligned_unfold.
  all: pose proof (level_tick_divide _ tw lk Hwf Hal Hl) as Hdiv0.
  all: assert (Hdiv1 : (tick tw | E)) by (by etrans).
  all: rewrite advanceClock_unfold.
  all: rewrite add64_id
         by (unfold in_int64, min_int64, max_int64 in *; lia).
  all: destruct (Z.leb_spec (currentTime tw + tick tw) E) as [Hadv|Hno].
  - injection Hl as <-. eexists. split; [done|]. cbn. split; [|done].
    apply truncate_ge; try done; lia.
  - injection Hl as <-. exists tw. split; [done|]. split; [|done].
    by apply (multiple_le (tick tw)).
  - assert (Htr : truncate E (tick tw) = E)
      by (apply truncate_within; try done; lia).
    rewrite Htr. cbn [level] in Hl |- *.
    cbn [set_clock overflowWheel].
    destruct (overflowWheel tw) as [ov|]; [|done].
    destruct Hov as (_ & _ & _ & Hwfov). destruct Halov as [_ Halov].
    by apply IH.
  - exists lk. split; [done|]. split; [|done].
    apply (aligned_clock_ge E (S k) tw lk); try done.
    by apply (multiple_le (tick tw)).
Qed.

Lemma ready_below_advance b w k : ∀ tw e,
  ready_below k b tw w → ready_below k b (advanceClock tw e) w.
Proof.
  induction k as [|k IH]; intros tw e; [done|].
  rewrite advanceClock_unfold.
  destruct (_ <=? _); [|done].
  cbn [ready_below set_clock buckets overflowWheel].
  intros [Hhere Hov]. split; [done|].
  destruct (overflowWheel tw) as [ov|]; [|done]. by apply IH.
Qed.

(** After [advanceClock] to the start [E] of a slot of level [k], a timer
    of that slot that is not due fits in one of the levels below [k]. *)
Lemma advanceClock_reach E k tw lk e :
  wf_wheel tw → aligned tw → level k tw = Some lk →
  (tick lk | E) → 0 <= E → 2 * E <= max_int64 →
  e < E + tick lk →
  currentTime (advanceClock tw E) + tick (advanceClock tw E) <= e →
  within k (advanceClock tw E) e.
Proof.
  intros Hwf Hal Hl Hdiv HE Hmax Hlt Hlo.
  destruct k as [|k].
  - destruct (advanceClock_level E 0 tw lk Hwf Hal Hl Hdiv HE Hmax)
      as (l' & [= <-] & Hge & Ht & _).
    injection Hl as <-. lia.
  - destruct (level_pred k tw lk Hl) as (l & Hl0 & Hov).
    destruct (level_wf k tw l Hwf Hl0) as (Hwfl & _ & _).
    pose proof (level_aligned k tw l Hal Hl0) as Hall.
    pose proof Hwfl as (_ & _ & _ & _ & _ & Hovl)%wf_wheel_unfold.
    pose proof Hall as (Hivl & _ & _)%aligned_unfold.
    rewrite Hov in Hovl. destruct Hovl as (Htk & _).
    assert (Hdivl : (tick l | E)).
    { etrans; [|exact Hdiv]. rewrite Htk, Hivl. apply Z.divide_factor_l. }
    destruct (advanceClock_level E k tw l Hwf Hal Hl0 Hdivl HE Hmax)
      as (l' & Hl' & Hge & _ & Hiv').
    apply (within_of_level k _ l'); [done|]. lia.
Qed.

(** *** Flush as a loop over the list *)

Lemma Flush_drain {X} fuel b (reinsert : timer_ref → X → M X) x bk w :
  callback_ok b reinsert →
  heap_inv w → w_buckets w !! b = Some bk → mu bk = false →
  (length (timers bk) <= fuel)%nat →
  Flush fuel b reinsert x w
  = (x' ← drain b reinsert (timers bk) x;
     SetExpiration b (-1);;
     Unlock b;;
     ret x')
      (with_buckets <[b := Bucket (b_expiration bk) true (timers bk)]> w).
Proof.
  intros Hok Hinv Hb Hmu Hlen.
  set (w0 := with_buckets
               <[b := Bucket (b_expiration bk) true (timers bk)]> w).
  assert (Hb0 : w_buckets w0 !! b
                = Some (Bucket (b_expiration bk) true (timers bk)))
    by apply lookup_insert_eq.
  assert (Hinv0 : heap_inv w0) by by eapply heap_inv_bucket_fields.
  unfold Flush. rewrite (bind_Ok _ _ _ _ _ (Lock_Ok _ _ _ Hb Hmu)).
  rewrite (bind_Ok _ _ _ _ _ (Front_Ok _ _ _ Hb0)). cbn [timers].
  unfold bind at 1 4. fold w0.
  by rewrite (flush_loop_drain b reinsert Hok (timers bk) fuel x w0 _
                Hinv0 Hb0 Hlen).
Qed.

(** *** One turn of the dispatch loop *)

Lemma world_1207_run :
  AfterFunc 2 wheel_5_12 1207 world_5_12
  = Ok ((wheel_5_12, 1%nat), world_1207).
Proof. by vm_compute. Qed.

Lemma AfterFunc_heap fuel tw e r w w' :
  heap_inv w → w_timers w !! next_timer w = None →
  AfterFunc fuel tw e w = Ok (r, w') → heap_inv w'.
Proof.
  intros Hinv Hfresh.
  pose proof (new_timer_heap e w Hinv Hfresh) as Hinv1.
  unfold AfterFunc. unfold bind at 1 2. cbn [fresh_timer store_timer].
  intros (tw' & w2 & Hrun & [= _ <-])%bind_inv. revert Hrun.
  unfold addOrRun.
  intros ([tw1 placed] & w1 & Hadd & Hrest)%bind_inv.
  destruct (add_heap _ (Timer e None None) _ _ _ _ _ Hinv1
              ltac:(apply lookup_insert_eq) eq_refl Hadd) as [Hinv2 _].
  destruct placed.
  - by injection Hrest as _ <-.
  - injection Hrest as _ <-. by eapply heap_inv_frame; [..|exact Hinv2].
Qed.

Lemma world_1207_inv : heap_inv world_1207.
Proof.
  eapply (AfterFunc_heap 2 wheel_5_12 1207 _ world_5_12);
    [apply world_5_12_inv|reflexivity|apply world_1207_run].
Qed.

(** *** The invariant of the engine *)

Lemma Next_inv b e r w w' : Next b e w = Ok (r, w') → w' = w.
Proof.
  unfold Next.
  by intros (bk & ? & [-> _]%load_bucket_inv & [= _ <-])%bind_inv.
Qed.

Lemma Front_inv b r w w' : Front b w = Ok (r, w') → w' = w.
Proof.
  unfold Front.
  by intros (bk & ? & [-> _]%load_bucket_inv & [= _ <-])%bind_inv.
Qed.

Section Keeps.

(** A property of the heap that the steps of [Flush] keep is kept by
    [Flush]. *)
Context {X : Type}.
Variables (I : World → Prop) (b : bucket_ref)
  (reinsert : timer_ref → X → M X).
Hypothesis keeps_remove : ∀ t r w w', I w → remove b t w = Ok (r, w') → I w'.
Hypothesis keeps_callback :
  ∀ t x w x' w', I w → reinsert t x w = Ok (x', w') → I w'.
Hypothesis keeps_fields :
  ∀ bk bk' w, I w → w_buckets w !! b = Some bk →
    (b_expiration bk' = b_expiration bk ∨ b_expiration bk' = -1) →
    I (with_buckets <[b := bk']> w).

Lemma flush_loop_keeps n : ∀ e x w x' w',
  I w → flush_loop n b e reinsert x w = Ok (x', w') → I w'.
Proof.
  induction n as [|n IH]; intros [[eid t]|] x w x' w' HI; cbn [flush_loop];
    try discriminate; try (by intros [= _ <-]).
  intros (next & w1 & ->%Next_inv
          & (r & w2 & Hrm
             & (x1 & w3 & Hcb & Hloop)%bind_inv)%bind_inv)%bind_inv.
  eapply IH; [|exact Hloop].
  eapply keeps_callback; [|exact Hcb]. by eapply keeps_remove.
Qed.

Lemma Flush_keeps fuel x w x' w' :
  I w → Flush fuel b reinsert x w = Ok (x', w') → I w'.
Proof.
  intros HI. unfold Flush.
  intros ([] & w1 & (bk & Hb & _ & ->)%Lock_inv
          & (e & w2 & ->%Front_inv
             & (x1 & w3 & Hloop
                & (r & w4 & (bk4 & Hb4 & ->)%SetExpiration_inv
                   & ([] & w5 & (bk5 & Hb5 & ->)%Unlock_inv
                      & [= _ <-])%bind_inv)%bind_inv)%bind_inv)%bind_inv
         )%bind_inv.
  eapply keeps_fields; [|exact Hb5|by left].
  eapply keeps_fields; [|exact Hb4|by right].
  eapply flush_loop_keeps; [|exact Hloop].
  eapply keeps_fields; [exact HI|exact Hb|by left].
Qed.

End Keeps.

Lemma stop_loop_keeps (I : World → Prop) t :
  (∀ b r w w', I w → remove b t w = Ok (r, w') → I w') →
  ∀ fuel stopped w r w',
    I w → stop_loop fuel t stopped w = Ok (r, w') → I w'.
Proof.
  intros Hrm. induction fuel as [|fuel IH]; intros stopped w r w' HI;
    rewrite stop_loop_unfold; unfold getBucket.
  all: intros (ob & w1 & (tm & ? & [-> _]%load_timer_inv
                          & [= <- <-])%bind_inv & Hrest)%bind_inv.
  all: destruct (t_bucket tm) as [b|]; [|by injection Hrest as _ <-].
  - discriminate.
  - apply bind_inv in Hrest as (r1 & w2 & Hrem & Hloop).
    eapply IH; [|exact Hloop]. by eapply Hrm.
Qed.

(** **** Submission to the delay queue *)

Lemma offered_insert b bk' w :
  offered w →
  b_expiration bk' = -1 ∨ (b, b_expiration bk') ∈ queue w →
  offered (with_buckets <[b := bk']> w).
Proof. intros Hof Hnew. by apply map_Forall_insert_2. Qed.

Lemma offered_fields b bk bk' w :
  offered w → w_buckets w !! b = Some bk →
  b_expiration bk' = b_expiration bk ∨ b_expiration bk' = -1 →
  offered (with_buckets <[b := bk']> w).
Proof.
  intros Hof Hb [Heq|Heq]; apply offered_insert; try done; [|by left].
  rewrite Heq. apply (Hof b bk Hb).
Qed.

Lemma offered_extended w w' :
  buckets_extended w w' → offered w → offered w'.
Proof.
  intros (Hext & _ & _ & _ & Hq & _) Hof b bk Hb. cbn.
  destruct (Hext b) as [Hnew|Hsame].
  - rewrite Hnew in Hb. injection Hb as <-. by left.
  - rewrite Hsame in Hb. rewrite Hq. apply (Hof b bk Hb).
Qed.

Lemma remove_offered b t r w w' :
  offered w → remove b t w = Ok (r, w') → offered w'.
Proof.
  intros Hof (tm & _ & [(_ & -> & _)|(_ & _ & bk & e & _ & Hb & ->)])%remove_inv;
    [done|].
  apply (offered_fields b bk _ w Hof Hb). by left.
Qed.

Lemma add_offered t fuel : ∀ tw w r w',
  offered w → add fuel tw t w = Ok (r, w') → offered w'.
Proof.
  induction fuel as [|fuel IH]; intros tw w r w' Hof; [discriminate|].
  rewrite add_unfold.
  intros (tm & ? & [-> Ht]%load_timer_inv & Hrest)%bind_inv.
  destruct (expiration tm <? add64 (currentTime tw) (tick tw)).
  { by injection Hrest as _ <-. }
  destruct (expiration tm <? add64 (currentTime tw) (interval tw)).
  - destruct (tick tw =? 0); [discriminate|].
    destruct (size tw =? 0); [discriminate|].
    destruct (index _ _) as [b|]; [|discriminate].
    apply bind_inv in Hrest
      as ([] & w1 & (bk & tm' & Hb & Hmu & Ht' & ->)%Add_inv
          & (changed & w2 & Hset & ([] & w3 & Hoffer & [= _ <-])%bind_inv
            )%bind_inv).
    set (w1 := Add_world b t bk tm' w) in *.
    assert (Hb1 : w_buckets w1 !! b
                  = Some (Bucket (b_expiration bk) false
                            (timers bk ++ [(next_elem w, t)])))
      by apply lookup_insert_eq.
    assert (Hof1 : offered w1).
    { intros b0 bk0. unfold w1, Add_world. cbn [w_buckets queue].
      destruct (decide (b0 = b)) as [->|Hne].
      - rewrite lookup_insert_eq. intros [= <-]. apply (Hof b bk Hb).
      - rewrite lookup_insert_ne by done. apply Hof. }
    rewrite (SetExpiration_Ok _ _ _ _ Hb1) in Hset.
    injection Hset as <- <-.
    cbn [swap_expiration fst b_expiration] in Hoffer.
    destruct (Z.eqb_spec (b_expiration bk)
                (mul64 (quo64 (expiration tm) (tick tw)) (tick tw)))
      as [Heq|Hne]; cbn [negb] in Hoffer.
    + injection Hoffer as <-. apply (offered_fields b _ _ w1 Hof1 Hb1).
      left. cbn. by rewrite Heq.
    + revert Hoffer. unfold Expiration, Offer. unfold_m.
      cbn [w_buckets]. rewrite lookup_insert_eq. intros [= <-].
      intros b0 bk0. cbn [w_buckets queue swap_expiration snd b_expiration].
      destruct (decide (b0 = b)) as [->|Hne0].
      * rewrite lookup_insert_eq. intros [= <-]. right. cbn.
        apply elem_of_app. right. by apply list_elem_of_singleton.
      * rewrite lookup_insert_ne by done. intros Hb0.
        destruct (Hof1 b0 bk0 Hb0) as [?|Hin]; [by left|right].
        apply elem_of_app. by left.
  - apply bind_inv in Hrest
      as (ov & w1 & Hov & ([ov' placed] & w2 & Hrec & [= _ <-])%bind_inv).
    apply overflow_level_inv in Hov as [Hext _].
    eapply IH; [|exact Hrec]. by eapply offered_extended.
Qed.

Lemma offered_frame w w' :
  w_buckets w' = w_buckets w → queue w' = queue w → offered w → offered w'.
Proof. intros Hb Hq. unfold offered. by rewrite Hb, Hq. Qed.

Lemma addOrRun_offered fuel t tw tw' w w' :
  offered w → addOrRun fuel tw t w = Ok (tw', w') → offered w'.
Proof.
  intros Hof. unfold addOrRun.
  intros ([tw1 placed] & w1 & Hadd & Hrest)%bind_inv.
  pose proof (add_offered _ _ _ _ _ _ Hof Hadd) as Hof1.
  destruct placed; injection Hrest as _ <-; [done|].
  by eapply offered_frame; [..|exact Hof1].
Qed.

(** **** Allocation of timers *)

Lemma allocated_update t tm' w w' :
  is_Some (w_timers w !! t) →
  w_timers w' = <[t := tm']> (w_timers w) → next_timer w' = next_timer w →
  allocated w → allocated w'.
Proof.
  intros [tm Ht] Htm Hn Hal. unfold allocated. rewrite Htm, Hn.
  apply map_Forall_insert_2; [|done]. apply (Hal t tm Ht).
Qed.

Lemma allocated_frame w w' :
  w_timers w' = w_timers w → next_timer w' = next_timer w →
  allocated w → allocated w'.
Proof. intros Ht Hn. unfold allocated. by rewrite Ht, Hn. Qed.

Lemma remove_allocated b t r w w' :
  allocated w → remove b t w = Ok (r, w') → allocated w'.
Proof.
  intros Hal (tm & Ht & [(_ & -> & _)|(_ & _ & bk & e & _ & Hb & ->)])%remove_inv;
    [done|].
  by eapply (allocated_update t); [..|exact Hal].
Qed.

Lemma add_allocated fuel t tw r w w' :
  allocated w → add fuel tw t w = Ok (r, w') → allocated w'.
Proof.
  intros Hal Hadd. destruct r as [tw' placed].
  destruct (add_outcome _ _ _ _ _ _ _ Hadd) as (_ & Hn & tm & Ht & Hout).
  destruct placed.
  - destruct Hout as (k & lv & b & e & bk' & _ & _ & _ & Htm & _).
    by eapply (allocated_update t); [..|exact Hal].
  - destruct Hout as [Htm _]. by eapply allocated_frame; [..|exact Hal].
Qed.

Lemma addOrRun_allocated fuel t tw tw' w w' :
  allocated w → addOrRun fuel tw t w = Ok (tw', w') → allocated w'.
Proof.
  intros Hal. unfold addOrRun.
  intros ([tw1 placed] & w1 & Hadd & Hrest)%bind_inv.
  pose proof (add_allocated _ _ _ _ _ _ Hal Hadd) as Hal1.
  destruct placed; injection Hrest as _ <-; [done|].
  by eapply allocated_frame; [..|exact Hal1].
Qed.

Lemma allocated_fresh w : allocated w → w_timers w !! next_timer w = None.
Proof.
  intros Hal. destruct (w_timers w !! next_timer w) as [tm|] eqn:Ht; [|done].
  specialize (Hal _ _ Ht). cbn in Hal. lia.
Qed.

Lemma world_5_12_engine : engine_inv world_5_12.
Proof.
  split; [apply world_5_12_inv|]. split.
  - intros b bk Hbk. left.
    apply elem_of_list_to_map_2, list_elem_of_fmap in Hbk
      as (? & [= _ ->] & _). done.
  - apply map_Forall_singleton. cbn. lia.
Qed.
(** *** What a turn of the dispatch loop can touch *)

Lemma addOrRun_frame fuel tw t tw' w w' :
  addOrRun fuel tw t w = Ok (tw', w') →
  (spawned w' = spawned w ∨ spawned w' = spawned w ++ [t])
  ∧ ∀ t', t' ≠ t → w_timers w' !! t' = w_timers w !! t'.
Proof.
  unfold addOrRun.
  intros ([tw1 placed] & w1 & Hadd & Hrest)%bind_inv.
  destruct (add_outcome _ _ _ _ _ _ _ Hadd) as (Hs & _ & tm & Ht & Hout).
  destruct placed.
  - injection Hrest as _ <-. split; [by left|].
    destruct Hout as (k & lv & b & e & bk' & _ & _ & _ & Htm & _).
    intros t' Hne. by rewrite Htm, lookup_insert_ne.
  - injection Hrest as _ <-. cbn. split; [right; by rewrite Hs|].
    destruct Hout as [-> _]. done.
Qed.

(** The loop of [Flush] with the callback of the dispatch loop starts tasks
    of timers of the list only, in the order of the list, and leaves the
    timers outside the list alone. *)
Lemma flush_loop_only fa b n : ∀ l tw w ex tw' w',
  heap_inv w → w_buckets w !! b = Some (Bucket ex true l) →
  flush_loop n b (head l) (fun t x => addOrRun fa x t) tw w = Ok (tw', w') →
  heap_inv w'
  ∧ w_buckets w' !! b = Some (Bucket ex true [])
  ∧ (∃ ran, spawned w' = spawned w ++ ran ∧ ran `sublist_of` l.*2)
  ∧ ∀ t, t ∉ l.*2 → w_timers w' !! t = w_timers w !! t.
Proof.
  induction n as [|n IH]; intros [|[e t] l] tw w ex tw' w' Hinv Hb;
    try discriminate.
  1,2: intros [= _ <-]; split; [done|]; split; [done|];
       split; [|done]; exists []; by rewrite app_nil_r.
  cbn [head]. rewrite flush_loop_unfold.
  rewrite (bind_Ok _ _ _ _ _ (Next_Ok _ e _ _ Hb)).
  cbn [timers list_next fst]. destruct (decide (e = e)); [|done].
  destruct (flush_turn b (fun t x => addOrRun fa x t) (addOrRun_ok fa b)
              ex e t l tw w Hinv Hb) as (w2 & Hrem & _ & _ & Hcb).
  rewrite (bind_Ok _ _ _ _ _ Hrem).
  intros (x1 & w3 & Hrun & Hloop)%bind_inv.
  destruct (Hcb x1 w3 Hrun) as [Hinv3 Hb3].
  destruct (IH l x1 w3 ex tw' w' Hinv3 Hb3 Hloop)
    as (Hinv' & Hb' & (ran & Hsp & Hsub) & Hother).
  destruct (addOrRun_frame _ _ _ _ _ _ Hrun) as [Hsp3 Hother3].
  apply remove_inv in Hrem
    as (tm & Ht & [(? & _)|(_ & _ & bk & e1 & _ & _ & ->)]); [done|].
  split; [done|]. split; [done|]. split.
  - cbn [spawned remove_world] in Hsp3. rewrite fmap_cons. cbn [snd].
    destruct Hsp3 as [Hsp3|Hsp3]; rewrite Hsp, Hsp3.
    + exists ran. split; [done|]. by apply sublist_cons.
    + exists (t :: ran). rewrite <- app_assoc. split; [done|].
      by apply sublist_skip.
  - intros t' [Hne Hnot]%not_elem_of_cons.
    rewrite Hother, Hother3 by done. cbn. by rewrite lookup_insert_ne.
Qed.

(** ** Theorems *)

(** X1. [truncate] rounds toward zero. For a modulus that is not positive
    it returns its argument. For a positive modulus [m] the result is [m]
    times the quotient of the division that rounds toward zero: a multiple
    of [m], no farther from zero than the argument, less than [m] away from
    it, never of the opposite sign, and a fixed point of [truncate]. *)
Theorem truncate_toward_zero (x m : Z) :
  in_int64 x →
  (m <= 0 → truncate x m = x)
  ∧ (0 < m →
     truncate x m = m * (x `quot` m)
     ∧ (m | truncate x m)
     ∧ Z.abs (truncate x m) <= Z.abs x
     ∧ Z.abs (x - truncate x m) < m
     ∧ 0 <= x * truncate x m
     ∧ truncate (truncate x m) m = truncate x m).
Proof.
  intros Hx. split.
  - intros Hm. unfold truncate. by destruct (Z.leb_spec m 0); [|lia].
  - intros Hm. rewrite (truncate_quot x m Hx Hm).
    pose proof (Z.quot_rem' x m) as Hqr.
    assert (Hrem : Z.abs (Z.rem x m) < m ∧ Z.abs (Z.rem x m) <= Z.abs x
                   ∧ 0 <= x * Z.rem x m).
    { destruct (Z.le_gt_cases 0 x).
      - pose proof (Z.rem_bound_pos x m ltac:(lia) Hm).
        pose proof (Z.rem_le x m ltac:(lia) Hm). split; [lia|]. split; [lia|nia].
      - pose proof (Z.rem_opp_l x m ltac:(lia)).
        pose proof (Z.rem_bound_pos (- x) m ltac:(lia) Hm).
        pose proof (Z.rem_le (- x) m ltac:(lia) Hm). split; [lia|]. split; [lia|nia]. }
    destruct Hrem as (Hr1 & Hr2 & Hr3).
    assert (Hsame : Z.abs (m * (x `quot` m)) <= Z.abs x ∧ 0 <= x * (m * (x `quot` m))).
    { destruct (Z.le_gt_cases 0 x).
      - pose proof (Z.quot_pos x m ltac:(lia) Hm). split; nia.
      - pose proof (Z.quot_opp_l x m ltac:(lia)).
        pose proof (Z.quot_pos (- x) m ltac:(lia) Hm). split; nia. }
    destruct Hsame as [Hs1 Hs2].
    split; [done|]. split; [apply Z.divide_factor_l|]. split; [done|].
    split; [lia|]. split; [done|].
    rewrite truncate_quot; [|unfold in_int64, min_int64, max_int64 in *; lia|done].
    rewrite (Z.mul_comm m (x `quot` m)), Z.quot_mul by lia. lia.
Qed.

Lemma truncate_toward_zero_witness :
  (5 <= 0 → truncate (-7) 5 = -7)
  ∧ (0 < 5 →
     truncate (-7) 5 = 5 * (-7 `quot` 5)
     ∧ (5 | truncate (-7) 5)
     ∧ Z.abs (truncate (-7) 5) <= Z.abs (-7)
     ∧ Z.abs (-7 - truncate (-7) 5) < 5
     ∧ 0 <= -7 * truncate (-7) 5
     ∧ truncate (truncate (-7) 5) 5 = truncate (-7) 5).
Proof.
  apply (truncate_toward_zero (-7) 5).
  unfold in_int64, min_int64, max_int64. lia.
Defined.

(** X2. For a tick of at least one millisecond, a positive slot count that
    [make] accepts and a clock at or after the epoch, [New] returns a wheel
    that satisfies the
    invariant of the levels; its clock is the instant of construction
    truncated to the tick, and its clocks are aligned when the interval
    fits in [int64]; its buckets are distinct, were not in use before, and
    are empty, unlocked and without expiration; the delay queue is empty;
    and the heap keeps its invariant, its timers and its other buckets. *)
Theorem New_establishes (tick0 wheelSize nowMs : Z) (w : World) :
  heap_inv w → in_int64 tick0 → Millisecond <= tick0 →
  0 < wheelSize <= max_slice_len →
  0 <= nowMs → nowMs + tick0 `quot` Millisecond <= max_int64 →
  ∃ tw w',
    New tick0 wheelSize nowMs w = Ok (tw, w')
    ∧ wf_wheel tw
    ∧ currentTime tw = truncate nowMs (tick tw)
    ∧ currentTime tw <= nowMs
    ∧ (tick tw * wheelSize <= max_int64 → aligned tw)
    ∧ NoDup (buckets tw)
    ∧ (∀ b, b ∈ buckets tw →
         w_buckets w !! b = None ∧ w_buckets w' !! b = Some newBucket)
    ∧ queue w' = []
    ∧ heap_inv w'
    ∧ w_timers w' = w_timers w
    ∧ (∀ b bk, w_buckets w !! b = Some bk → w_buckets w' !! b = Some bk).
Proof.
  intros Hinv Hrange Hms Hsize Hnow Hmax.
  destruct (quo64_Millisecond tick0 Hrange Hms) as [Hq Hpos].
  set (w0 := with_queue (fun _ => []) w).
  assert (Hinv0 : heap_inv w0) by (by eapply heap_inv_frame; [..|exact Hinv]).
  destruct (make_buckets_seq (Z.to_nat wheelSize) w0) as (w' & Hmk).
  destruct (make_buckets_Ok (Z.to_nat wheelSize) w0)
    as (bs & w'' & Hmk' & Hlen & Hext & Hnew).
  rewrite Hmk in Hmk'. injection Hmk' as <- <-.
  destruct (make_buckets_heap _ _ _ _ Hinv0 Hmk) as (Hinv' & Htm & Hold).
  pose proof (truncate_bounds nowMs (tick0 `quot` Millisecond) Hpos Hnow
                ltac:(lia)) as [Hb1 Hb2].
  eexists _, w'. split.
  { unfold New. rewrite Hq.
    destruct (Z.leb_spec (tick0 `quot` Millisecond) 0); [lia|].
    assert (Hnq : newQueue wheelSize w = Ok (tt, w0)) by done.
    rewrite (bind_Ok _ _ _ _ _ Hnq). unfold newTimeWheel.
    rewrite (proj2 (make_panics_false wheelSize)) by lia.
    by rewrite (bind_Ok _ _ _ _ _ Hmk). }
  cbn [tick currentTime buckets].
  split.
  { apply wf_wheel_unfold.
    cbn [tick size interval currentTime buckets overflowWheel].
    rewrite length_seq, Z2Nat.id by lia. repeat split; try done; lia. }
  split; [done|]. split; [lia|].
  split.
  { intros Hiv. apply aligned_unfold.
    cbn [tick size interval currentTime buckets overflowWheel].
    split; [|split; [apply truncate_multiple; lia|done]].
    apply mul64_id. unfold in_int64, min_int64, max_int64 in *. nia. }
  split; [apply NoDup_seq|].
  split; [|split; [by destruct Hext as (_ & _ & _ & _ & -> & _)|done]].
  intros b Hb. split; [|by apply Hnew].
  apply elem_of_seq in Hb. destruct Hinv as (_ & _ & Ha).
  destruct (w_buckets w !! b) as [bk|] eqn:Hbk; [|done].
  specialize (Ha b bk Hbk). cbn in *. lia.
Qed.

Lemma New_establishes_witness :
  ∃ tw w',
    New 5000000 12 1003 world_held = Ok (tw, w')
    ∧ wf_wheel tw
    ∧ currentTime tw = truncate 1003 (tick tw)
    ∧ currentTime tw <= 1003
    ∧ (tick tw * 12 <= max_int64 → aligned tw)
    ∧ NoDup (buckets tw)
    ∧ (∀ b, b ∈ buckets tw →
         w_buckets world_held !! b = None
         ∧ w_buckets w' !! b = Some newBucket)
    ∧ queue w' = []
    ∧ heap_inv w'
    ∧ w_timers w' = w_timers world_held
    ∧ (∀ b bk, w_buckets world_held !! b = Some bk →
               w_buckets w' !! b = Some bk).
Proof.
  apply (New_establishes 5000000 12 1003 world_held);
    [apply world_held_inv
    |unfold in_int64, min_int64, max_int64; lia
    |unfold Millisecond; lia|unfold max_slice_len; lia|lia
    |by vm_compute].
Defined.

(** X3. [advanceClock] keeps the invariant of the levels and the alignment
    of the clocks, changes no tick, slot count, interval or bucket of any
    level, and moves no clock of any level backwards. *)
Theorem advanceClock_keeps_levels (tw : TimeWheel) (e : Z) :
  wf_wheel tw → 0 <= e → 2 * e <= max_int64 →
  wf_wheel (advanceClock tw e)
  ∧ (aligned tw → aligned (advanceClock tw e))
  ∧ levels (advanceClock tw e) = levels tw
  ∧ Forall2 Z.le (clocks tw) (clocks (advanceClock tw e)).
Proof.
  intros Hwf He Hmax. split; [by apply advanceClock_wf|].
  split; [intros Hal; by apply advanceClock_aligned|].
  by apply advanceClock_chain.
Qed.

Lemma advanceClock_keeps_levels_witness :
  wf_wheel (advanceClock wheel_5_12 1023)
  ∧ (aligned wheel_5_12 → aligned (advanceClock wheel_5_12 1023))
  ∧ levels (advanceClock wheel_5_12 1023) = levels wheel_5_12
  ∧ Forall2 Z.le (clocks wheel_5_12) (clocks (advanceClock wheel_5_12 1023)).
Proof.
  apply (advanceClock_keeps_levels wheel_5_12 1023);
    [apply wheel_5_12_wf|lia|unfold max_int64; lia].
Defined.

(** X4. [advanceClock] is idempotent: advancing a well-formed wheel twice to
    the same instant is advancing it once. *)
Theorem advanceClock_idempotent (tw : TimeWheel) (e : Z) :
  wf_wheel tw → 0 <= e → 2 * e <= max_int64 →
  advanceClock (advanceClock tw e) e = advanceClock tw e.
Proof.
  intros Hwf He Hmax.
  pose proof Hwf as (Htick & Hsize & Hiv & Hcur & Hlen & Hov)%wf_wheel_unfold.
  rewrite (advanceClock_unfold tw).
  rewrite add64_id by (unfold in_int64, min_int64, max_int64 in *; lia).
  destruct (Z.leb_spec (currentTime tw + tick tw) e) as [Hadv|Hkeep].
  - pose proof (truncate_bounds e (tick tw) Htick He ltac:(lia)) as [Hb1 Hb2].
    rewrite advanceClock_unfold.
    cbn [set_clock tick size interval currentTime buckets overflowWheel].
    rewrite add64_id by (unfold in_int64, min_int64, max_int64 in *; lia).
    by destruct (Z.leb_spec (truncate e (tick tw) + tick tw) e); [lia|].
  - rewrite advanceClock_unfold.
    rewrite add64_id by (unfold in_int64, min_int64, max_int64 in *; lia).
    by destruct (Z.leb_spec (currentTime tw + tick tw) e); [lia|].
Qed.

Lemma advanceClock_idempotent_witness :
  advanceClock (advanceClock wheel_5_12 1023) 1023
  = advanceClock wheel_5_12 1023.
Proof.
  apply (advanceClock_idempotent wheel_5_12 1023);
    [apply wheel_5_12_wf|lia|unfold max_int64; lia].
Defined.

(** X5. On a well-formed wheel and a heap that satisfies its invariant, and
    within the bound that keeps the arithmetic in [int64], [add] of a timer
    without owner keeps both invariants, the alignment of the clocks and
    the submissions to the delay queue, starts no task, replaces no level
    and moves no clock. When it returns true the timer is held by the bucket
    of its slot on one level: the expiration of the bucket is the expiration
    of the timer truncated to the tick of that level, and the bucket has
    been submitted to the delay queue with it. When it returns false the
    timer and the queue are untouched. *)
Theorem add_keeps_invariants (fuel : nat) (tw tw' : TimeWheel)
    (t : timer_ref) (tm : timer) (placed : bool) (w w' : World) :
  wf_wheel tw → heap_inv w →
  w_timers w !! t = Some tm → t_bucket tm = None →
  currentTime tw + expiration tm * size tw <= max_int64 →
  add fuel tw t w = Ok ((tw', placed), w') →
  wf_wheel tw' ∧ heap_inv w'
  ∧ (aligned tw → aligned tw')
  ∧ (offered w → offered w')
  ∧ spawned w' = spawned w
  ∧ levels tw `prefix_of` levels tw' ∧ clocks tw `prefix_of` clocks tw'
  ∧ if placed then
      ∃ k lv b bk' tm',
        level k tw' = Some lv ∧ b ∈ buckets lv
        ∧ w_buckets w' !! b = Some bk'
        ∧ b_expiration bk' = truncate (expiration tm) (tick lv)
        ∧ b_expiration bk' <= expiration tm < b_expiration bk' + tick lv
        ∧ w_timers w' !! t = Some tm'
        ∧ t_bucket tm' = Some b ∧ expiration tm' = expiration tm
        ∧ member t b w'
        ∧ (offered w → (b, b_expiration bk') ∈ queue w')
    else w_timers w' = w_timers w ∧ queue w' = queue w.
Proof.
  intros Hwf Hinv Ht Hfree Hbound Hrun.
  pose proof Hwf as (_ & Hsize & _ & Hcur & _)%wf_wheel_unfold.
  pose proof (add_wf t tm (currentTime tw) _ _ _ _ _ _ Hwf Ht (Z.le_refl _)
                Hbound Hrun) as Hwf'.
  split; [done|].
  split; [by eapply (add_heap t tm)|].
  split.
  { intros Hal.
    eapply (add_aligned t tm (currentTime tw));
      [exact Hwf|exact Hal|exact Ht|lia|exact Hbound|exact Hrun]. }
  split; [intros Hof; by eapply add_offered|].
  destruct (add_outcome _ _ _ _ _ _ _ Hrun) as (Hs & _ & tm0 & Ht0 & Hout).
  assert (tm0 = tm) as -> by congruence.
  split; [done|].
  destruct (add_levels _ _ _ _ _ _ _ Hrun) as [Hl Hc].
  split; [done|]. split; [done|].
  destruct placed; [|done].
  destruct Hout
    as (k & lv & b & el & bk' & Hlv & [Hlo _] & Hidx & Htm & Hbk & Hex & Hmem
        & _).
  destruct (level_wf k tw' lv Hwf' Hlv) as (Hwflv & _ & _).
  pose proof Hwflv as (Htick & _ & _ & Hcurlv & _)%wf_wheel_unfold.
  assert (He : expiration tm <= max_int64).
  { rewrite add64_id in Hlo
      by (unfold in_int64, min_int64, max_int64 in *; lia). nia. }
  destruct (slot_arith lv tm Hwflv Hlo He) as (Hslot & Hs1 & Hs2).
  exists k, lv, b, bk', (Timer (expiration tm) (Some b) (Some el)).
  split; [done|]. split; [by eapply index_elem_of|]. split; [done|].
  split; [congruence|]. split; [rewrite Hex, Hslot; lia|].
  split; [by rewrite Htm, lookup_insert_eq|].
  split; [done|]. split; [done|]. split; [by exists bk', el|].
  intros Hof. pose proof (add_offered _ _ _ _ _ _ Hof Hrun) as Hof'.
  destruct (Hof' b bk' Hbk) as [Hneg|Hin]; [|done].
  rewrite Hex, Hslot in Hneg. lia.
Qed.

Lemma add_keeps_invariants_witness :
  ∃ tw' w',
    add 2 wheel_5_12 0%nat world_5_12 = Ok ((tw', true), w')
    ∧ wf_wheel tw' ∧ heap_inv w'
    ∧ (aligned wheel_5_12 → aligned tw')
    ∧ (offered world_5_12 → offered w')
    ∧ spawned w' = spawned world_5_12
    ∧ levels wheel_5_12 `prefix_of` levels tw'
    ∧ clocks wheel_5_12 `prefix_of` clocks tw'
    ∧ ∃ k lv b bk' tm',
        level k tw' = Some lv ∧ b ∈ buckets lv
        ∧ w_buckets w' !! b = Some bk'
        ∧ b_expiration bk' = truncate 1010 (tick lv)
        ∧ b_expiration bk' <= 1010 < b_expiration bk' + tick lv
        ∧ w_timers w' !! 0%nat = Some tm'
        ∧ t_bucket tm' = Some b ∧ expiration tm' = 1010
        ∧ member 0%nat b w'
        ∧ (offered world_5_12 → (b, b_expiration bk') ∈ queue w').
Proof.
  eexists _, _. split; [by vm_compute|].
  eapply (add_keeps_invariants 2 wheel_5_12 _ 0%nat (Timer 1010 None None)
            true world_5_12);
    [apply wheel_5_12_wf|apply world_5_12_inv|reflexivity|reflexivity
    |cbn; unfold max_int64; lia|by vm_compute].
Defined.

(** X6. On a well-formed wheel with free buckets, within the bound that
    keeps the arithmetic in [int64] and with fuel for the levels needed,
    [AfterFunc] returns the new timer and keeps the invariants of wheel and
    heap; a timer due before the end of the current tick is not stored in
    any bucket and its task is started at once, any other timer is stored
    in one bucket of one level of the wheel and no task is started. *)
Theorem AfterFunc_runs_or_places (n : nat) (tw : TimeWheel) (e : Z)
    (w : World) :
  wf_wheel tw → buckets_ready tw w → heap_inv w → 2 <= size tw →
  w_timers w !! next_timer w = None →
  currentTime tw + e * size tw <= max_int64 →
  e < tick tw * 2 ^ Z.of_nat n →
  ∃ tw' w',
    AfterFunc (S n) tw e w = Ok ((tw', next_timer w), w')
    ∧ wf_wheel tw' ∧ heap_inv w'
    ∧ if e <? currentTime tw + tick tw then
        tw' = tw
        ∧ spawned w' = spawned w ++ [next_timer w]
        ∧ w_timers w' !! next_timer w = Some (Timer e None None)
        ∧ w_buckets w' = w_buckets w ∧ queue w' = queue w
      else
        spawned w' = spawned w
        ∧ ∃ k lv b el,
            level k tw' = Some lv ∧ b ∈ buckets lv
            ∧ w_timers w' !! next_timer w = Some (Timer e (Some b) (Some el))
            ∧ member (next_timer w) b w'.
Proof.
  intros Hwf Hready Hinv Hsize Hfresh Hbound Hdepth.
  set (t := next_timer w).
  set (w1 := MkWorld (<[t := Timer e None None]> (w_timers w))
               (w_buckets w) (S t) (next_elem w) (next_bucket w)
               (queue w) (spawned w)).
  assert (Ht : w_timers w1 !! t = Some (Timer e None None))
    by apply lookup_insert_eq.
  assert (Hinv1 : heap_inv w1) by by apply new_timer_heap.
  assert (Hready1 : buckets_ready tw w1)
    by exact (buckets_ready_same tw w w1 eq_refl Hready).
  assert (Hrun : ∀ k, AfterFunc k tw e w
                      = (tw' ← addOrRun k tw t; ret (tw', t)) w1) by done.
  pose proof Hwf as (Htick & _ & _ & Hcur & _)%wf_wheel_unfold.
  destruct (add_returns t (Timer e None None) (currentTime tw) n tw w1)
    as (tw' & placed & w' & Hadd); [done..|lia|done|done|].
  pose proof (add_wf _ _ _ _ _ _ _ _ _ Hwf Ht (Z.le_refl _) Hbound Hadd)
    as Hwf'.
  destruct (add_heap _ _ _ _ _ _ _ Hinv1 Ht eq_refl Hadd) as [Hinv' _].
  destruct (add_outcome _ _ _ _ _ _ _ Hadd) as (Hs & _ & tm & Htm & Hout).
  assert (tm = Timer e None None) as -> by congruence.
  destruct (Z.ltb_spec e (currentTime tw + tick tw)) as [Hdue|Hlo].
  - assert (Hnow : add (S n) tw t w1 = Ok ((tw, false), w1)).
    { rewrite add_unfold, (bind_Ok _ _ _ _ _ (load_timer_Ok _ _ _ Ht)).
      cbn [expiration]. rewrite add64_id
        by (unfold in_int64, min_int64, max_int64 in *; lia).
      by destruct (Z.ltb_spec e (currentTime tw + tick tw)); [|lia]. }
    rewrite Hnow in Hadd. injection Hadd as <- <- <-.
    eexists tw, _. split.
    { rewrite Hrun. unfold addOrRun.
      rewrite (bind_Ok _ _ _ _ _ (bind_Ok _ _ _ _ _ Hnow)). reflexivity. }
    split; [done|].
    split; [by eapply heap_inv_frame; [..|exact Hinv1]|].
    by cbn.
  - destruct placed.
    2:{ by destruct (add_never_false t (Timer e None None) (currentTime tw)
                       (S n) tw w1 Hwf Ht (Z.le_refl _) Hbound Hlo tw' w'). }
    exists tw', w'. split.
    { rewrite Hrun. unfold addOrRun.
      by rewrite (bind_Ok _ _ _ _ _ (bind_Ok _ _ _ _ _ Hadd)). }
    split; [done|]. split; [done|]. split; [done|].
    destruct Hout
      as (k & lv & b & el & bk' & Hlv & _ & Hidx & Hts & Hbk & _ & Hmem & _).
    exists k, lv, b, el. split; [done|]. split; [by eapply index_elem_of|].
    split; [by rewrite Hts, lookup_insert_eq|]. by exists bk', el.
Qed.

Lemma AfterFunc_runs_or_places_witness :
  ∃ tw' w',
    AfterFunc 9 wheel_5_12 1100 world_5_12 = Ok ((tw', 1%nat), w')
    ∧ wf_wheel tw' ∧ heap_inv w'
    ∧ spawned w' = []
    ∧ ∃ k lv b el,
        level k tw' = Some lv ∧ b ∈ buckets lv
        ∧ w_timers w' !! 1%nat = Some (Timer 1100 (Some b) (Some el))
        ∧ member 1%nat b w'.
Proof.
  apply (AfterFunc_runs_or_places 8 wheel_5_12 1100 world_5_12);
    [apply wheel_5_12_wf|apply wheel_5_12_ready|apply world_5_12_inv
    |cbn; lia|reflexivity|cbn; unfold max_int64; lia|by vm_compute].
Defined.

(** X7. [remove] takes a timer that the bucket holds out of the list where it
    stands: the elements before and after keep their order, the state of
    the mutex is not looked at and not changed, both back-references of the
    timer are cleared, nothing else in the heap changes, and the result is
    true. *)
Theorem remove_unlinks_in_place (b : bucket_ref) (bk : bucket)
    (l1 l2 : list (elem_ref * timer_ref)) (e : elem_ref) (t : timer_ref)
    (w : World) :
  heap_inv w → w_buckets w !! b = Some bk →
  timers bk = l1 ++ (e, t) :: l2 →
  ∃ tm, w_timers w !! t = Some tm
    ∧ remove b t w
      = Ok (true,
            MkWorld (<[t := Timer (expiration tm) None None]> (w_timers w))
              (<[b := Bucket (b_expiration bk) (mu bk) (l1 ++ l2)]>
                 (w_buckets w))
              (next_timer w) (next_elem w) (next_bucket w) (queue w)
              (spawned w)).
Proof.
  intros Hinv Hb Hl. destruct Hinv as (Hlk & _ & _).
  destruct (Hlk b bk Hb) as [Hnd Hel].
  destruct (Hel e t) as (_ & tm & Ht & Hown & Helem).
  { rewrite Hl. apply elem_of_app. right. left. }
  exists tm. split; [done|].
  rewrite (remove_Ok b t bk tm e w Ht Hown Helem Hb). unfold remove_world.
  rewrite Hl in Hnd |- *. by rewrite list_remove_middle.
Qed.

Lemma remove_unlinks_in_place_witness :
  ∃ tm, w_timers world_held !! 1%nat = Some tm
    ∧ remove 0%nat 1%nat world_held
      = Ok (true,
            MkWorld (<[1%nat := Timer (expiration tm) None None]>
                       (w_timers world_held))
              (<[0%nat := Bucket (-1) false ([(0%nat, 0%nat)] ++ [])]>
                 (w_buckets world_held))
              (next_timer world_held) (next_elem world_held)
              (next_bucket world_held) (queue world_held)
              (spawned world_held)).
Proof.
  apply (remove_unlinks_in_place 0%nat
           (Bucket (-1) false [(0%nat, 0%nat); (1%nat, 1%nat)])
           [(0%nat, 0%nat)] [] 1%nat 1%nat world_held);
    [apply world_held_inv|reflexivity|reflexivity].
Defined.

(** X8. [Add] of a timer without owner to a bucket whose mutex is free,
    followed by [Stop] of the timer, returns true and gives back the heap as
    it was: the list, the expiration and the mutex of the bucket and the
    timer itself are as before [Add]; only the address of the list element
    is used up. *)
Theorem Add_then_Stop (fuel : nat) (b : bucket_ref) (bk : bucket)
    (t : timer_ref) (ex : Z) (w : World) :
  heap_inv w → w_buckets w !! b = Some bk → mu bk = false →
  w_timers w !! t = Some (Timer ex None None) →
  (Add b t;; Stop (S fuel) t) w
  = Ok (true,
        MkWorld (w_timers w) (w_buckets w) (next_timer w) (S (next_elem w))
          (next_bucket w) (queue w) (spawned w)).
Proof.
  intros Hinv Hb Hmu Ht.
  rewrite (bind_Ok _ _ _ _ _ (Add_Ok b t bk _ w Hb Hmu Ht)).
  erewrite (Stop_owned fuel t _ b _ (next_elem w));
    [|unfold Add_world; cbn; apply lookup_insert_eq|done|done
     |unfold Add_world; cbn; apply lookup_insert_eq].
  unfold remove_world, Add_world.
  cbn [w_timers w_buckets next_timer next_elem next_bucket queue spawned
       expiration b_expiration mu timers].
  rewrite !insert_insert_eq.
  assert (Hfresh : next_elem w ∉ (timers bk).*1).
  { destruct Hinv as (Hlk & _ & _). destruct (Hlk b bk Hb) as [_ Hel].
    intros ([e t'] & Heq & Hin)%list_elem_of_fmap.
    destruct (Hel e t' Hin) as [Hlt _]. cbn in Heq. lia. }
  replace (list_remove (next_elem w) (timers bk ++ [(next_elem w, t)]))
    with (timers bk).
  2:{ unfold list_remove. rewrite filter_app, filter_cons, filter_nil.
      destruct (decide ((next_elem w, t).1 ≠ next_elem w)); [done|].
      fold (list_remove (next_elem w) (timers bk)).
      by rewrite list_remove_fresh, app_nil_r. }
  rewrite (insert_id (w_timers w) t _ Ht).
  rewrite (insert_id (w_buckets w) b); [done|].
  rewrite Hb. destruct bk. cbn in *. by subst.
Qed.

Lemma Add_then_Stop_witness :
  (Add 0%nat 1%nat;; Stop 1 1%nat) world_one
  = Ok (true,
        MkWorld (w_timers world_one) (w_buckets world_one)
          (next_timer world_one) (S (next_elem world_one))
          (next_bucket world_one) (queue world_one) (spawned world_one)).
Proof.
  apply (Add_then_Stop 0 0%nat (Bucket (-1) false [(0%nat, 0%nat)]) 1%nat
           1012 world_one);
    [apply world_one_inv|reflexivity|reflexivity|reflexivity].
Defined.

(** X9. The mutex of a bucket is not reentrant and [Flush] holds it while it
    runs the callback: [Flush] of a bucket that holds a timer does not
    return when the callback adds the timer back to the same bucket. *)
Theorem Flush_holds_the_mutex {X : Type} (fuel : nat) (b : bucket_ref)
    (bk : bucket) (x : X) (w : World) :
  heap_inv w → w_buckets w !! b = Some bk → mu bk = false →
  timers bk ≠ [] → (0 < fuel)%nat →
  Flush fuel b (add_back b) x w = Blocked.
Proof.
  intros Hinv Hb Hmu Hne Hfuel.
  destruct (timers bk) as [|[e t] l] eqn:Hl; [done|].
  destruct fuel as [|fuel]; [lia|].
  set (w1 := with_buckets
               <[b := Bucket (b_expiration bk) true (timers bk)]> w).
  assert (Hb1 : w_buckets w1 !! b
                = Some (Bucket (b_expiration bk) true ((e, t) :: l))).
  { cbn. by rewrite lookup_insert_eq, Hl. }
  assert (Hinv1 : heap_inv w1) by (by eapply heap_inv_bucket_fields).
  destruct (remove_front b _ e t l w1 Hinv1 Hb1)
    as (w2 & Hrm & _ & Hb2 & _).
  unfold Flush.
  rewrite (bind_Ok _ _ _ _ _ (Lock_Ok b bk w Hb Hmu)). fold w1.
  rewrite (bind_Ok _ _ _ _ _ (Front_Ok b _ w1 Hb1)). cbn [timers head].
  unfold bind at 1. rewrite flush_loop_unfold.
  rewrite (bind_Ok _ _ _ _ _ (Next_Ok b e _ w1 Hb1)).
  rewrite (bind_Ok _ _ _ _ _ Hrm).
  unfold bind at 1. unfold add_back at 1.
  unfold bind at 1. by rewrite (Add_locked b t _ w2 Hb2).
Qed.

Lemma Flush_holds_the_mutex_witness :
  Flush 2 0%nat (add_back 0%nat) tt world_held = Blocked.
Proof.
  apply (Flush_holds_the_mutex 2 0%nat
           (Bucket (-1) false [(0%nat, 0%nat); (1%nat, 1%nat)]) tt
           world_held);
    [apply world_held_inv|reflexivity|reflexivity|done|lia].
Defined.

(** X10. One turn of the dispatch loop on a bucket of level [k] whose timers
    belong to its slot, while the buckets of the levels below are free: the
    turn returns, with the clocks advanced to the start of the slot and no
    level added; the bucket ends up empty, unlocked and without expiration;
    the timers that are due at the new clock have their tasks started, in
    the order of the list, and are in no bucket; every other timer is in a
    bucket of one of the levels below [k] of the wheel, never in the bucket
    that is flushed; all other timers are untouched and the heap keeps its
    invariant. *)
Theorem dispatch_moves_timers_down (fuel k : nat) (tw lk : TimeWheel)
    (b : bucket_ref) (bk : bucket) (w : World) :
  wf_wheel tw → aligned tw → heap_inv w →
  level k tw = Some lk → ready_below k b tw w →
  w_buckets w !! b = Some bk → mu bk = false →
  0 <= b_expiration bk → (tick lk | b_expiration bk) →
  slot_bucket w (tick lk) bk →
  2 * b_expiration bk <= max_int64 →
  Z.max (currentTime tw) (b_expiration bk)
  + (b_expiration bk + tick lk) * size tw <= max_int64 →
  (k <= fuel)%nat → (length (timers bk) <= fuel)%nat →
  ∃ w',
    dispatch fuel tw b w = Ok (advanceClock tw (b_expiration bk), w')
    ∧ heap_inv w'
    ∧ w_buckets w' !! b = Some (Bucket (-1) false [])
    ∧ spawned w'
      = spawned w
        ++ filter (fun t => due (advanceClock tw (b_expiration bk)) w t)
             (timers bk).*2
    ∧ (∀ t, t ∉ (timers bk).*2 → w_timers w' !! t = w_timers w !! t)
    ∧ ∀ e t, (e, t) ∈ timers bk →
        ∃ tm tm', w_timers w !! t = Some tm ∧ w_timers w' !! t = Some tm'
          ∧ expiration tm' = expiration tm
          ∧ if due (advanceClock tw (b_expiration bk)) w t
            then t_bucket tm' = None
            else ∃ j lv b',
                   (j < k)%nat
                   ∧ level j (advanceClock tw (b_expiration bk)) = Some lv
                   ∧ b' ∈ buckets lv
                   ∧ t_bucket tm' = Some b' ∧ b' ≠ b ∧ member t b' w'.
Proof.
  intros Hwf Hal Hinv Hl Hready Hb Hmu HE Hdiv Hslot Hmax Hbound Hk Hlen.
  set (E := b_expiration bk) in *. set (tw' := advanceClock tw E).
  destruct (advanceClock_wf tw E Hwf HE Hmax) as (Hwf' & Htk' & Hsz' & Hc').
  fold tw' in Hwf', Htk', Hsz', Hc'.
  set (w0 := with_buckets <[b := Bucket E true (timers bk)]> w).
  assert (Hb0 : w_buckets w0 !! b = Some (Bucket E true (timers bk)))
    by apply lookup_insert_eq.
  assert (Hinv0 : heap_inv w0) by by eapply heap_inv_bucket_fields.
  assert (Hready0 : ready_below k b tw' w0).
  { apply ready_below_advance.
    eapply (ready_below_update k b b); [| |exact Hready]; [|by left].
    intros b0 Hb0'. cbn. by rewrite lookup_insert_ne. }
  destruct (drain_cascade b k tw' (E + tick lk) (Z.max (currentTime tw) E)
              fuel Hwf' Hk ltac:(lia) ltac:(by rewrite Hsz')
              ltac:(intros e; by apply advanceClock_reach)
              (timers bk) w0 E Hlen Hinv0 Hb0 Hready0)
    as (w1 & Hdrain & Hinv1 & Hb1 & Hother & Hsp & Hout).
  { intros e t Hin. destruct (Hslot e t Hin) as (tm & Ht & Hrange).
    exists tm. split; [done|]. fold E in Hrange. lia. }
  set (w2 := with_buckets <[b := Bucket (-1) true []]> w1).
  assert (Hinv2 : heap_inv w2) by by eapply heap_inv_bucket_fields.
  assert (Hb2 : w_buckets w2 !! b = Some (Bucket (-1) true []))
    by apply lookup_insert_eq.
  set (w3 := with_buckets <[b := Bucket (-1) false []]> w2).
  assert (Hinv3 : heap_inv w3) by by eapply heap_inv_bucket_fields.
  exists w3. split.
  { unfold dispatch, Expiration.
    rewrite (bind_Ok _ _ _ _ _
               (bind_Ok _ _ _ _ _ (load_bucket_Ok _ _ _ Hb))).
    cbn [ret]. fold E tw'.
    rewrite (Flush_drain fuel b _ tw' bk w (addOrRun_ok fuel b) Hinv Hb Hmu
               Hlen).
    fold E w0. rewrite (bind_Ok _ _ _ _ _ Hdrain).
    rewrite (bind_Ok _ _ _ _ _ (SetExpiration_Ok _ _ _ _ Hb1)).
    cbn [swap_expiration snd b_expiration mu timers]. fold w2.
    by rewrite (bind_Ok _ _ _ _ _ (Unlock_Ok _ _ _ Hb2 eq_refl)). }
  split; [done|]. split; [apply lookup_insert_eq|].
  split; [done|]. split; [done|].
  intros e t Hin. destruct (Hout e t Hin) as (tm & tm' & Ht & Ht' & He & Hres).
  exists tm, tm'. split; [done|]. split; [done|]. split; [done|].
  change (due tw' w0 t) with (due tw' w t) in Hres.
  destruct (due tw' w t); [done|].
  destruct Hres as (j & lv & b' & Hj & Hlv & Hin' & Hown & Hne).
  exists j, lv, b'. split; [done|]. split; [done|]. split; [done|].
  split; [done|]. split; [done|].
  destruct Hinv3 as (_ & Ho & _).
  destruct (Ho t tm' Ht' b' Hown) as (bk' & e' & ? & _ & ?).
  by exists bk', e'.
Qed.

Lemma dispatch_moves_timers_down_witness :
  ∃ w',
    dispatch 1 wheel_5_12 20%nat world_1207
    = Ok (advanceClock wheel_5_12 1200, w')
    ∧ heap_inv w'
    ∧ w_buckets w' !! 20%nat = Some (Bucket (-1) false [])
    ∧ spawned w'
      = spawned world_1207
        ++ filter (fun t => due (advanceClock wheel_5_12 1200) world_1207 t)
             [(0%nat, 1%nat)].*2
    ∧ (∀ t, t ∉ [(0%nat, 1%nat)].*2 →
            w_timers w' !! t = w_timers world_1207 !! t)
    ∧ ∀ e t, (e, t) ∈ [(0%nat, 1%nat)] →
        ∃ tm tm', w_timers world_1207 !! t = Some tm
          ∧ w_timers w' !! t = Some tm'
          ∧ expiration tm' = expiration tm
          ∧ if due (advanceClock wheel_5_12 1200) world_1207 t
            then t_bucket tm' = None
            else ∃ j lv b',
                   (j < 1)%nat
                   ∧ level j (advanceClock wheel_5_12 1200) = Some lv
                   ∧ b' ∈ buckets lv
                   ∧ t_bucket tm' = Some b' ∧ b' ≠ 20%nat
                   ∧ member t b' w'.
Proof.
  apply (dispatch_moves_timers_down 1 1 wheel_5_12
           (MkTimeWheel 60 12 720 960 (seq 12 12) false 0 None) 20%nat
           (Bucket 1200 false [(0%nat, 1%nat)]) world_1207).
  - apply wheel_5_12_wf.
  - repeat split; try done; cbn.
    + by exists 200.
    + by exists 16.
  - apply world_1207_inv.
  - reflexivity.
  - split; [|done]. intros b' Hb'. change (b' ∈ seq 0 12) in Hb'.
    apply elem_of_seq in Hb'. split; [lia|].
    exists newBucket. split; [|done]. unfold world_1207. cbn [w_buckets].
    rewrite lookup_insert_ne by lia.
    apply elem_of_list_to_map_1.
    + rewrite <- list_fmap_compose.
      apply NoDup_fmap_2; [|apply NoDup_seq]. intros x y Heq. exact Heq.
    + apply list_elem_of_fmap. exists b'.
      split; [done|]. apply elem_of_seq. lia.
  - reflexivity.
  - reflexivity.
  - cbn. lia.
  - cbn. by exists 20.
  - intros e t [= -> ->]%list_elem_of_singleton.
    exists (Timer 1207 (Some 20%nat) (Some 0%nat)). split; [done|].
    cbn. lia.
  - cbn. unfold max_int64. lia.
  - cbn. unfold max_int64. lia.
  - lia.
  - cbn. lia.
Defined.

(** X11. The operations of the engine, [AfterFunc], a turn of the dispatch
    loop and [Stop] of a timer, keep the invariant of the engine whenever
    they return: lists and back-references agree, every bucket that has an
    expiration has been submitted to the delay queue with it, and every
    timer in use has been allocated. *)
Theorem engine_invariant (w w' : World) :
  engine_inv w → engine_step w w' → engine_inv w'.
Proof.
  intros (Hinv & Hof & Hal) Hstep. destruct Hstep as
    [fuel tw e r w w' Hrun|fuel tw b tw' w w' Hrun|fuel t r w w' Hrun].
  - split; [by eapply AfterFunc_heap; [|apply allocated_fresh|]|].
    revert Hrun. unfold AfterFunc. unfold bind at 1 2.
    cbn [fresh_timer store_timer].
    intros (tw' & w2 & Hrun & [= _ <-])%bind_inv. split.
    + eapply addOrRun_offered; [|exact Hrun].
      by eapply offered_frame; [..|exact Hof].
    + eapply addOrRun_allocated; [|exact Hrun].
      unfold allocated. cbn [with_timers w_timers next_timer].
      apply map_Forall_insert_2; [lia|].
      intros t tm Ht. specialize (Hal t tm Ht). cbn in Hal |- *. lia.
  - split; [by eapply dispatch_preserves|].
    revert Hrun. unfold dispatch, Expiration.
    intros (e & w1 & (bk & ? & [-> _]%load_bucket_inv & [= _ <-])%bind_inv
            & Hflush)%bind_inv.
    split.
    + eapply (Flush_keeps offered); [| | |exact Hof|exact Hflush].
      * intros ?????. by apply remove_offered.
      * intros ?????. by apply addOrRun_offered.
      * intros ???. by apply offered_fields.
    + eapply (Flush_keeps allocated); [| | |exact Hal|exact Hflush].
      * intros ?????. by apply remove_allocated.
      * intros ?????. by apply addOrRun_allocated.
      * intros ??????. by eapply allocated_frame.
  - split; [by eapply Stop_preserves|]. split.
    + eapply (stop_loop_keeps offered); [|exact Hof|exact Hrun].
      intros ?????. by apply remove_offered.
    + eapply (stop_loop_keeps allocated); [|exact Hal|exact Hrun].
      intros ?????. by apply remove_allocated.
Qed.

Lemma engine_invariant_witness : engine_inv world_1207.
Proof.
  apply (engine_invariant world_5_12 world_1207);
    [apply world_5_12_engine|].
  apply (step_AfterFunc 2 wheel_5_12 1207 (wheel_5_12, 1%nat)).
  apply world_1207_run.
Defined.

(** X12. Whenever a turn of the dispatch loop returns, the bucket it has
    flushed is empty, unlocked and without expiration, the heap keeps its
    invariant, the tasks started are tasks of timers of that bucket, each
    started at most once and in the order of the list, and no other timer
    is touched: a timer that is in another bucket or in none, as after
    [Stop], is not run and not changed. *)
Theorem dispatch_runs_only_its_bucket (fuel : nat) (tw tw' : TimeWheel)
    (b : bucket_ref) (bk : bucket) (w w' : World) :
  heap_inv w → w_buckets w !! b = Some bk →
  dispatch fuel tw b w = Ok (tw', w') →
  heap_inv w'
  ∧ w_buckets w' !! b = Some (Bucket (-1) false [])
  ∧ ∃ ran,
      spawned w' = spawned w ++ ran
      ∧ ran `sublist_of` (timers bk).*2
      ∧ (∀ t, t ∉ (timers bk).*2 → w_timers w' !! t = w_timers w !! t)
      ∧ ∀ t tm, w_timers w !! t = Some tm → t_bucket tm ≠ Some b →
                (t ∉ ran) ∧ w_timers w' !! t = Some tm.
Proof.
  intros Hinv Hb. unfold dispatch, Expiration.
  rewrite (bind_Ok _ _ _ _ _ (bind_Ok _ _ _ _ _ (load_bucket_Ok _ _ _ Hb))).
  cbn [ret]. unfold Flush.
  intros ([] & w0 & (bk0 & Hb0 & Hmu & ->)%Lock_inv & Hrest)%bind_inv.
  assert (bk0 = bk) as -> by congruence.
  set (w0 := with_buckets
               <[b := Bucket (b_expiration bk) true (timers bk)]> w) in *.
  assert (Hbl : w_buckets w0 !! b
                = Some (Bucket (b_expiration bk) true (timers bk)))
    by apply lookup_insert_eq.
  assert (Hinv0 : heap_inv w0) by by eapply heap_inv_bucket_fields.
  rewrite (bind_Ok _ _ _ _ _ (Front_Ok _ _ _ Hbl)) in Hrest.
  cbn [timers] in Hrest.
  apply bind_inv in Hrest as (x1 & w1 & Hloop & Hrest).
  destruct (flush_loop_only _ _ _ _ _ _ _ _ _ Hinv0 Hbl Hloop)
    as (Hinv1 & Hb1 & (ran & Hsp & Hsub) & Hother).
  rewrite (bind_Ok _ _ _ _ _ (SetExpiration_Ok _ _ _ _ Hb1)) in Hrest.
  cbn [swap_expiration snd b_expiration mu timers] in Hrest.
  set (w2 := with_buckets <[b := Bucket (-1) true []]> w1) in *.
  assert (Hinv2 : heap_inv w2) by by eapply heap_inv_bucket_fields.
  assert (Hb2 : w_buckets w2 !! b = Some (Bucket (-1) true []))
    by apply lookup_insert_eq.
  rewrite (bind_Ok _ _ _ _ _ (Unlock_Ok _ _ _ Hb2 eq_refl)) in Hrest.
  injection Hrest as _ <-.
  split; [by eapply heap_inv_bucket_fields|].
  split; [apply lookup_insert_eq|].
  exists ran. split; [done|]. split; [done|]. split; [done|].
  intros t tm Ht Hown.
  assert (Hnot : t ∉ (timers bk).*2).
  { intros ([e t'] & Heq & Hin)%list_elem_of_fmap. cbn in Heq. subst t'.
    destruct Hinv as (Hlk & _ & _). destruct (Hlk b bk Hb) as [_ Hel].
    destruct (Hel e t Hin) as (_ & tm0 & Ht0 & Hown0 & _). congruence. }
  split; [|cbn; by rewrite (Hother t Hnot)].
  intros Hin. apply Hnot. by eapply elem_of_sublist.
Qed.

Lemma dispatch_runs_only_its_bucket_witness :
  ∃ tw' w',
    dispatch 1 wheel_5_12 20%nat world_1207 = Ok (tw', w')
    ∧ heap_inv w'
    ∧ w_buckets w' !! 20%nat = Some (Bucket (-1) false [])
    ∧ ∃ ran,
        spawned w' = spawned world_1207 ++ ran
        ∧ ran `sublist_of` [(0%nat, 1%nat)].*2
        ∧ (∀ t, t ∉ [(0%nat, 1%nat)].*2 →
                w_timers w' !! t = w_timers world_1207 !! t)
        ∧ ∀ t tm, w_timers world_1207 !! t = Some tm →
                  t_bucket tm ≠ Some 20%nat →
                  (t ∉ ran) ∧ w_timers w' !! t = Some tm.
Proof.
  eexists _, _. split; [by vm_compute|].
  eapply (dispatch_runs_only_its_bucket 1 wheel_5_12 _ 20%nat
           (Bucket 1200 false [(0%nat, 1%nat)]) world_1207);
    [apply world_1207_inv|reflexivity|by vm_compute].
Defined.

(** X13. [New] does not check the slot count. A negative count panics. With
    no slot or a single slot, and a tick of at least one millisecond, [New]
    returns a wheel on which [AfterFunc] of a timer that is not yet due
    never returns: every level hands the timer to a new overflow level. *)
Theorem New_needs_two_slots (tick0 wheelSize nowMs : Z) (w : World) :
  in_int64 tick0 → Millisecond <= tick0 → 0 <= nowMs → nowMs <= max_int64 →
  (wheelSize < 0 → New tick0 wheelSize nowMs w = Panic)
  ∧ (0 <= wheelSize <= 1 →
     ∃ tw w',
       New tick0 wheelSize nowMs w = Ok (tw, w')
       ∧ ∀ fuel e,
           currentTime tw + tick tw <= e → e <= max_int64 →
           AfterFunc fuel tw e w' = OutOfFuel).
Proof.
  intros Hrange Hms Hnow Hmax.
  destruct (quo64_Millisecond tick0 Hrange Hms) as [Hq Hpos].
  set (tk := tick0 `quot` Millisecond) in *.
  assert (Htk : tk <= max_int64).
  { unfold tk, Millisecond, in_int64, max_int64 in *.
    pose proof (Z.quot_le_upper_bound tick0 1000000 tick0 ltac:(lia)
                  ltac:(lia)). lia. }
  assert (HNew : New tick0 wheelSize nowMs w
                 = newTimeWheel tk wheelSize nowMs
                     (with_queue (fun _ => []) w)).
  { unfold New. rewrite Hq. by destruct (Z.leb_spec tk 0); [lia|]. }
  split.
  { intros Hneg. rewrite HNew. unfold newTimeWheel.
    by rewrite (proj2 (make_panics_true wheelSize) (or_introl Hneg)). }
  intros Hsz.
  destruct (newTimeWheel_Ok tk wheelSize nowMs (with_queue (fun _ => []) w)
              ltac:(unfold max_slice_len; lia)) as (bs & w' & Hrun & _).
  eexists _, w'. split; [by rewrite HNew|].
  cbn [currentTime tick]. intros fuel e Hlo He.
  pose proof (truncate_bounds nowMs tk Hpos Hnow Hmax) as [Hc _].
  set (c := truncate nowMs tk) in *.
  unfold AfterFunc, addOrRun, bind. cbn [fresh_timer store_timer].
  assert (Hcmp : (e <? add64 c tk) = false).
  { rewrite add64_id by (unfold in_int64, min_int64, max_int64 in *; lia).
    by destruct (Z.ltb_spec e (c + tk)); [lia|]. }
  assert (Hdiv : diverges (next_timer w') (Timer e None None) wheelSize tk
                   (mul64 tk wheelSize) c).
  { destruct (decide (wheelSize = 0)) as [->|Hne].
    - assert (H0 : mul64 tk 0 = 0).
      { rewrite mul64_id; rewrite Z.mul_0_r; [done|].
        unfold in_int64, min_int64, max_int64. lia. }
      rewrite H0.
      apply (diverges_step _ _ 0 ltac:(unfold max_slice_len; lia) tk 0 c 0 c);
        try done.
      + rewrite add64_id
          by (unfold in_int64, min_int64, max_int64 in *; lia).
        cbn [expiration]. by destruct (Z.ltb_spec e (c + 0)); [lia|].
      + apply diverges_zero; cbn [expiration];
          [unfold max_slice_len; lia
          |unfold in_int64, min_int64, max_int64 in *; lia|lia].
    - assert (wheelSize = 1) as -> by lia.
      rewrite mul64_id
        by (unfold in_int64, min_int64, max_int64 in *; lia).
      rewrite Z.mul_1_r. apply diverges_one_slot; cbn [expiration]; lia. }
  rewrite Hdiv; [done|]. cbn. apply lookup_insert_eq.
Qed.

Lemma New_needs_two_slots_witness :
  (1 < 0 → New 5000000 1 1000 empty_world = Panic)
  ∧ (0 <= 1 <= 1 →
     ∃ tw w',
       New 5000000 1 1000 empty_world = Ok (tw, w')
       ∧ ∀ fuel e,
           currentTime tw + tick tw <= e → e <= max_int64 →
           AfterFunc fuel tw e w' = OutOfFuel).
Proof.
  apply (New_needs_two_slots 5000000 1 1000 empty_world);
    [unfold in_int64, min_int64, max_int64; lia|unfold Millisecond; lia|lia
    |unfold max_int64; lia].
Defined.
